(** * SmartCollage: the layout engine of [src/lib/collage.ts]

    A shallow embedding of the collage layout code and of the render
    pipeline that assigns images to rectangles, followed by the helpers of
    the page and by the previous revision of the layout.

    Numbers.  A JavaScript [number] is modelled as a rational ([Q]); the
    values the code passes through [Math.floor] or [Math.round] are
    integers ([Z]).  Arithmetic on integers is exact, as it is in doubles
    below [2^53].  Where the code computes with numbers that are not
    integers, every operation is rounded to the nearest double by [fl]:
    the product that gives the main size, the scores of the row counts,
    the source window of [drawImageCover] and the cells of the previous
    revision.  The shares of [allocateCounts] are the exception: they are
    kept as exact rationals.  NaN, the infinities, overflow and underflow
    are outside the model.  [Math.log] is a parameter of the development
    ([ln]), since its value is left to the platform. *)

From Stdlib Require Import String Ascii.
From Stdlib Require Import ZArith QArith Qround Qminmax Qabs Qpower.
From Stdlib Require Import List Bool Lia Lqa Permutation Sorted.
Import ListNotations.

Local Open Scope Z_scope.

(** ** Numeric primitives *)

(** [Math.floor] *)
Definition js_floor (q : Q) : Z := Qfloor q.

(** [Math.round]: the nearest integer, halves rounded up. *)
Definition js_round (q : Q) : Z := Qfloor (q + (1 # 2)).

(** ** Doubles

    [fl q] is the double nearest to [q], a tie going to the even
    significand: 53 bits of significand and an exponent without bounds (the
    sizes and scores of a collage stay far from overflow and underflow). *)

Definition pow2 (e : Z) : Q := Qpower 2 e.

(** The exponent [e] of the last place of [q]:
    [2^52 <= |q| / 2^e < 2^53]. *)
Definition ulp_exponent (q : Q) : Z :=
  let c := Z.log2 (Z.abs (Qnum q)) - Z.log2 (Zpos (Qden q)) in
  if Qle_bool (pow2 c) (Qabs q) then c - 52 else c - 53.

(** The nearest integer, halves to the even one. *)
Definition round_even (q : Q) : Z :=
  let f := Qfloor q in
  match (q - inject_Z f ?= 1 # 2)%Q with
  | Lt => f
  | Gt => f + 1
  | Eq => if Z.even f then f else f + 1
  end.

Definition fl (q : Q) : Q :=
  if Qeq_bool q 0 then 0%Q
  else
    let e := ulp_exponent q in
    (inject_Z (round_even (q / pow2 e)) * pow2 e)%Q.

(** Half the distance between neighbouring doubles, relative to their
    size. *)
Definition eps : Q := pow2 (-53).

(** [a < b] on numbers, as a boolean. *)
Definition Qltb (a b : Q) : bool := negb (Qle_bool b a).

(** [clamp(value, min, max) = Math.min(max, Math.max(min, value))] *)
Definition clamp (value min max : Q) : Q := Qmin max (Qmax min value).

(** [clamp] at integer arguments (the main size). *)
Definition clampZ (value min max : Z) : Z := Z.min max (Z.max min value).

(** [Array.from({ length }, (_, i) => f(i))] *)
Definition array_from {A : Type} (len : Z) (f : Z -> A) : list A :=
  map (fun i => f (Z.of_nat i)) (seq 0 (Z.to_nat len)).

(** [l.length] *)
Definition len {A : Type} (l : list A) : Z := Z.of_nat (length l).

(** ** Data model *)

Record Rect : Type := mkRect {
  rect_x : Q;
  rect_y : Q;
  rect_width : Q;
  rect_height : Q
}.

(** A rectangle whose four fields are integers. *)
Definition rectZ (x y w h : Z) : Rect :=
  mkRect (inject_Z x) (inject_Z y) (inject_Z w) (inject_Z h).

Inductive RegionName : Type := Top | Right | Bottom | Left.

Record Region : Type := mkRegion {
  region_name : RegionName;
  region_rect : Rect;
  region_area : Q
}.

Record CollageLayoutOptions : Type := mkOptions {
  opt_size : Q;
  opt_mainRatio : Q;
  opt_gap : Q;
  opt_othersCount : Q
}.

Record CollageLayout : Type := mkLayout {
  layout_size : Z;
  layout_gap : Q;
  mainRect : Rect;
  ringCells : list Rect
}.

Definition RegionName_eqb (a b : RegionName) : bool :=
  match a, b with
  | Top, Top | Right, Right | Bottom, Bottom | Left, Left => true
  | _, _ => false
  end.

(** [Record<RegionName, number>] *)
Record Counts : Type := mkCounts {
  count_top : Z;
  count_right : Z;
  count_bottom : Z;
  count_left : Z
}.

Definition get_count (c : Counts) (k : RegionName) : Z :=
  match k with
  | Top => count_top c
  | Right => count_right c
  | Bottom => count_bottom c
  | Left => count_left c
  end.

Definition set_count (c : Counts) (k : RegionName) (v : Z) : Counts :=
  match k with
  | Top => mkCounts v (count_right c) (count_bottom c) (count_left c)
  | Right => mkCounts (count_top c) v (count_bottom c) (count_left c)
  | Bottom => mkCounts (count_top c) (count_right c) v (count_left c)
  | Left => mkCounts (count_top c) (count_right c) (count_bottom c) v
  end.

(** [Object.values(out).reduce((sum, v) => sum + v, 0)] *)
Definition sum_counts (c : Counts) : Z :=
  0 + count_top c + count_right c + count_bottom c + count_left c.

(** ** [distribute] *)

Definition distribute (total parts : Q) : list Z :=
  let safeParts := Z.max 1 (js_floor parts) in
  let safeTotal := Z.max 0 (js_floor total) in
  let base := safeTotal / safeParts in
  let rem := safeTotal - base * safeParts in
  array_from safeParts (fun i => base + (if i <? rem then 1 else 0)).

(** ** [computeRegions]

    [size] is an integer: the only caller passes
    [Math.max(64, Math.floor(options.size))].  [%] is the truncated
    remainder, [Z.rem].  The bounds [0.05] and [0.95] are the doubles
    nearest to these decimals, and the product [size * safeRatio] is
    rounded to a double before [Math.round] sees it. *)

Definition computeRegions (size : Z) (mainRatio : Q) : Rect * list Region :=
  let safeRatio := clamp mainRatio (fl (5 # 100)) (fl (95 # 100)) in
  let mainSize := js_round (fl (inject_Z size * safeRatio)) in
  let mainSize := clampZ mainSize 1 size in
  let mainSize :=
    if negb (Z.rem (size - mainSize) 2 =? 0) then
      let down := mainSize - 1 in
      let up := mainSize + 1 in
      if (1 <=? down) && (Z.rem (size - down) 2 =? 0) then down
      else if (up <=? size) && (Z.rem (size - up) 2 =? 0) then up
      else mainSize
    else mainSize in
  let ringT := Qmax 0 (inject_Z (size - mainSize) / 2) in
  let mainRect := mkRect ringT ringT (inject_Z mainSize) (inject_Z mainSize) in
  let top := mkRect 0 0 (inject_Z size) ringT in
  let bottom := mkRect 0 (ringT + inject_Z mainSize) (inject_Z size) ringT in
  let left := mkRect 0 ringT ringT (inject_Z mainSize) in
  let right := mkRect (ringT + inject_Z mainSize) ringT ringT (inject_Z mainSize) in
  let regions :=
    [ mkRegion Top top (rect_width top * rect_height top);
      mkRegion Right right (rect_width right * rect_height right);
      mkRegion Bottom bottom (rect_width bottom * rect_height bottom);
      mkRegion Left left (rect_width left * rect_height left) ] in
  (mainRect, regions).

(** ** [allocateCounts] *)

Record RawShare : Type := mkRaw {
  raw_name : RegionName;
  raw_exact : Q;
  raw_base : Z;
  raw_frac : Q
}.

(** [raw.sort((a, b) => b.frac - a.frac)]: a stable sort by descending
    fractional part.  [insert_by_frac a l] puts [a] in front of the first
    entry whose [frac] is not larger, so that entries with equal [frac] keep
    their input order. *)
Fixpoint insert_by_frac (a : RawShare) (l : list RawShare) : list RawShare :=
  match l with
  | [] => [a]
  | b :: l' =>
      if Qle_bool (raw_frac b) (raw_frac a) then a :: b :: l'
      else b :: insert_by_frac a l'
  end.

Definition sort_by_frac (l : list RawShare) : list RawShare :=
  fold_right insert_by_frac [] l.

(** [raw[i].base += 1] *)
Fixpoint bump_base (l : list RawShare) (i : nat) : list RawShare :=
  match l, i with
  | [], _ => []
  | r :: l', O =>
      mkRaw (raw_name r) (raw_exact r) (raw_base r + 1) (raw_frac r) :: l'
  | r :: l', S i' => r :: bump_base l' i'
  end.

(** [for (let i = 0; i < remaining; i++) raw[i % raw.length].base += 1],
    [k] iterations starting at index [i].  The loop is only reached with a
    non-empty [raw]: an empty region list has ring area 0 and returns
    before. *)
Fixpoint award (k : nat) (i : Z) (raw : list RawShare) : list RawShare :=
  match k with
  | O => raw
  | S k' => award k' (i + 1) (bump_base raw (Z.to_nat (Z.rem i (len raw))))
  end.

Definition zero_counts : Counts := mkCounts 0 0 0 0.

Definition allocateCounts (total : Q) (regions : list Region) : Counts :=
  let safeTotal := Z.max 0 (js_floor total) in
  let ringArea := fold_left (fun sum r => (sum + region_area r)%Q) regions 0%Q in
  if (safeTotal =? 0) || Qle_bool ringArea 0 then zero_counts
  else
    let raw :=
      map (fun r =>
             let exact := (region_area r / ringArea * inject_Z safeTotal)%Q in
             mkRaw (region_name r) exact (js_floor exact)
                   (exact - inject_Z (js_floor exact))%Q)
          regions in
    let used := fold_left (fun sum r => sum + raw_base r) raw 0 in
    let remaining := safeTotal - used in
    let raw := sort_by_frac raw in
    let raw := award (Z.to_nat remaining) 0 raw in
    let out :=
      fold_left (fun out r => set_count out (raw_name r) (raw_base r))
                raw zero_counts in
    let used := sum_counts out in
    if negb (used =? safeTotal) then
      let diff := safeTotal - used in
      set_count out Top (count_top out + diff)
    else out.

Section Layout.

(** [Math.log] *)
Variable ln : Q -> Q.

(** ** [computeBestRowsNoWaste] *)

(** [bestScore] starts at [Number.POSITIVE_INFINITY]: [None]. *)
Definition score_lt (score : Q) (bestScore : option Q) : bool :=
  match bestScore with
  | None => true
  | Some b => Qltb score b
  end.

(** The inner loop [for (let r = 0; r < rows; r++)], [k] iterations from
    row [r] on; [None] is [ok = false].  The quotients, the product and the
    sum of the score are doubles: each is rounded. *)
Fixpoint scoreRows (k : nat) (r : Z) (base extra width gap : Z)
    (rowHeight : Q) (score : Q) : option Q :=
  match k with
  | O => Some score
  | S k' =>
      let rowCount := base + (if r <? extra then 1 else 0) in
      let availableWidth := width - gap * (rowCount - 1) in
      if availableWidth <? rowCount then None
      else
        let cellW := fl (inject_Z availableWidth / inject_Z rowCount) in
        let aspect :=
          if Qeq_bool rowHeight 0 then 999%Q else fl (cellW / rowHeight) in
        scoreRows k' (r + 1) base extra width gap rowHeight
                  (fl (score + fl (Qabs (ln aspect) * inject_Z rowCount)))
  end.

(** The outer loop [for (let rows = 1; rows <= maxRows; rows++)], [k]
    iterations from [rows] on. *)
Fixpoint searchRows (k : nat) (rows : Z) (n width height gap : Z)
    (bestRows : option Z) (bestScore : option Q) : option Z :=
  match k with
  | O => bestRows
  | S k' =>
      let availableHeight := height - gap * (rows - 1) in
      if availableHeight <? rows then bestRows
      else
        let base := n / rows in
        if base <=? 0 then bestRows
        else
          let extra := n - base * rows in
          let rowHeight := fl (inject_Z availableHeight / inject_Z rows) in
          match scoreRows (Z.to_nat rows) 0 base extra width gap rowHeight 0%Q with
          | None => searchRows k' (rows + 1) n width height gap bestRows bestScore
          | Some score =>
              if score_lt score bestScore
              then searchRows k' (rows + 1) n width height gap
                              (Some rows) (Some score)
              else searchRows k' (rows + 1) n width height gap
                              bestRows bestScore
          end
  end.

(** [null] is [None]. *)
Definition computeBestRowsNoWaste (count width height gap : Q) : option Z :=
  let n := Z.max 0 (js_floor count) in
  let width := Z.max 0 (js_floor width) in
  let height := Z.max 0 (js_floor height) in
  let gap := Z.max 0 (js_floor gap) in
  if (n =? 0) || (width =? 0) || (height =? 0) then Some 0
  else
    let maxRows := Z.min n height in
    searchRows (Z.to_nat maxRows) 1 n width height gap None None.

(** ** [tryBuildCellsFilled] *)

(** The column loop [for (let c = 0; c < rowCount; c++)], [k] iterations
    from column [c] on; it returns the cells and stops once there are [n].
    [colWidths] has [rowCount] entries, so [colWidths[c]] is in range. *)
Fixpoint pushRow (k : nat) (c : nat) (colWidths : list Z) (x y h gap n : Z)
    (cells : list Rect) : list Rect :=
  match k with
  | O => cells
  | S k' =>
      let cells := cells ++ [rectZ x y (nth c colWidths 0) h] in
      let x := x + nth c colWidths 0 + gap in
      if len cells =? n then cells
      else pushRow k' (S c) colWidths x y h gap n cells
  end.

(** The row loop [for (let r = 0; r < rows; r++)], [k] iterations from row
    [r] on; [None] is [return null] from inside the loop. *)
Fixpoint pushRows (k : nat) (r : nat) (rowCounts rowHeights : list Z)
    (x0 y width gap n : Z) (cells : list Rect) : option (list Rect) :=
  match k with
  | O => Some cells
  | S k' =>
      let rowCount := nth r rowCounts 0 in
      let availableWidth := width - gap * (rowCount - 1) in
      if availableWidth <? rowCount then None
      else
        let colWidths :=
          distribute (inject_Z availableWidth) (inject_Z rowCount) in
        let cells :=
          pushRow (Z.to_nat rowCount) 0 colWidths x0 y (nth r rowHeights 0)
                  gap n cells in
        let y := y + nth r rowHeights 0 + gap in
        if len cells =? n then Some cells
        else pushRows k' (S r) rowCounts rowHeights x0 y width gap n cells
  end.

Definition tryBuildCellsFilled (rect : Rect) (count gap : Q)
    : option (list Rect) :=
  let n := Z.max 0 (js_floor count) in
  if n =? 0 then Some []
  else
    let gap := Z.max 0 (js_floor gap) in
    let x0 := js_round (rect_x rect) in
    let y0 := js_round (rect_y rect) in
    let width := js_round (rect_width rect) in
    let height := js_round (rect_height rect) in
    if (width <=? 0) || (height <=? 0) then None
    else
      match computeBestRowsNoWaste (inject_Z n) (inject_Z width)
                                   (inject_Z height) (inject_Z gap) with
      | None => None
      | Some rows =>
          if rows <=? 0 then None
          else
            let base := n / rows in
            let extra := n - base * rows in
            if base <=? 0 then None
            else
              let rowCounts :=
                array_from rows (fun r => base + (if r <? extra then 1 else 0)) in
              let availableHeight := height - gap * (rows - 1) in
              if availableHeight <? rows then None
              else
                let rowHeights :=
                  distribute (inject_Z availableHeight) (inject_Z rows) in
                match pushRows (Z.to_nat rows) 0 rowCounts rowHeights
                               x0 y0 width gap n [] with
                | None => None
                | Some cells => if len cells =? n then Some cells else None
                end
      end.

(** ** [buildCellsFilled] *)

(** [for (let attempt = 0; attempt < 4; attempt++)], [k] attempts left;
    [None]: every attempt returned [null]. *)
Fixpoint attempts (k : nat) (rect : Rect) (n g : Z) : option (list Rect) :=
  match k with
  | O => None
  | S k' =>
      match tryBuildCellsFilled rect (inject_Z n) (inject_Z g) with
      | Some cells => Some cells
      | None => attempts k' rect n (js_floor (inject_Z g / 2))
      end
  end.

Definition buildCellsFilled (rect : Rect) (count gap : Q) : list Rect :=
  let n := Z.max 0 (js_floor count) in
  if n =? 0 then []
  else
    let g := Z.max 0 (js_floor gap) in
    match attempts 4 rect n g with
    | Some cells => cells
    | None =>
        match tryBuildCellsFilled rect (inject_Z n) 0 with
        | Some cells => cells
        | None => []
        end
    end.

(** ** [computeCollageLayout] *)

Definition computeCollageLayout (options : CollageLayoutOptions)
    : CollageLayout :=
  let size := Z.max 64 (js_floor (opt_size options)) in
  let gap := clamp (opt_gap options) 0 (inject_Z (js_floor (inject_Z size / 8))) in
  let othersCount := Z.max 0 (js_floor (opt_othersCount options)) in
  let '(mainRect, regions) := computeRegions size (opt_mainRatio options) in
  let counts := allocateCounts (inject_Z othersCount) regions in
  let ringCells :=
    fold_left
      (fun ringCells region =>
         ringCells ++
         buildCellsFilled (region_rect region)
                          (inject_Z (get_count counts (region_name region)))
                          gap)
      regions [] in
  mkLayout size gap mainRect ringCells.

End Layout.

(** A rational stand-in for [Math.log], used to run the model:
    [2 (q - 1) / (q + 1)], the first term of the series of the logarithm. *)
Definition ln_approx (q : Q) : Q := (2 * (q - 1) / (q + 1))%Q.

(** [Math.log] at the doubles [0.6666666666666666] and [1.5], where it
    returns the logarithm rounded to the nearest double,
    [-0.40546510810816444] and [0.4054651081081644]; the stand-in
    elsewhere. *)
Definition ln_table (q : Q) : Q :=
  if Qeq_bool q (fl (2 # 3))
  then - (7304210039150669 # 18014398509481984)
  else if Qeq_bool q (3 # 2)
  then 1826052509787667 # 4503599627370496
  else ln_approx q.

(** ** The render pipeline: [renderCollageToCanvas]

    The pipeline is modelled by the events it causes, in order, and the
    error it ends with, if any.  The platform is a parameter: the outcome
    of decoding a file, whether the canvas has a 2D context, the state of
    the abort signal each time it is read, and the values of
    [Math.random()].  The progress callback is taken as present; its
    messages are kept by kind, without their text.  The pipeline comes
    twice: first for a callback and a canvas that return normally, then
    with their failures as two more parameters. *)

Inductive CollageProgressPhase : Type :=
  PhaseLayout | PhaseDecode | PhaseRender | PhaseExport.

Inductive ProgressMessage : Type :=
| MsgLayout
| MsgDecode (index total : Z)
| MsgDraw (index total : Z)
| MsgDecodeMain
| MsgDrawMain
| MsgDone.

Record CollageProgress : Type := mkProgress {
  phase : CollageProgressPhase;
  done : Z;
  total : Z;
  message : ProgressMessage
}.

Record RenderCollageOptions : Type := mkRenderOptions {
  ro_size : Q;
  ro_mainRatio : Q;
  ro_gap : Q;
  ro_background : string;
  ro_shuffleOthers : bool;
  ro_useMain : bool
}.

(** The errors thrown by the pipeline. *)
Inductive RenderError : Type :=
| NoImages            (* "No images provided." *)
| NoContext           (* "Canvas 2D context is not available." *)
| NotEnoughCells      (* "Layout did not allocate enough cells for images." *)
| NotEnoughRingCells  (* "Layout did not allocate enough cells for ring images." *)
| Aborted             (* DOMException "AbortError" *)
| DecodeFailure.      (* [decodeImage] rejects *)

(** How a run can end when the callback and the canvas can fail as
    well. *)
Inductive RunError : Type :=
| Thrown (e : RenderError)  (* one of the errors above *)
| CallbackError             (* [onProgress] throws *)
| DrawError.                (* [ctx.drawImage] throws *)

(** [arr[i] = v] within the array. *)
Fixpoint update {A : Type} (l : list A) (i : nat) (v : A) : list A :=
  match l, i with
  | [], _ => []
  | _ :: l', O => v :: l'
  | a :: l', S i' => a :: update l' i' v
  end.

(** [[arr[i], arr[j]] = [arr[j], arr[i]]], for indices within the array. *)
Definition swap {A : Type} (l : list A) (i j : nat) : list A :=
  match nth_error l i, nth_error l j with
  | Some a, Some b => update (update l i b) j a
  | _, _ => l
  end.

Section Render.

(** [Math.log] *)
Variable ln : Q -> Q.

(** [File], and what can be drawn: [CanvasImageSource]. *)
Variables File Source : Type.

Record CollageImageItem : Type := mkItem { item_id : string; item_file : File }.

Record DecodedImage : Type := mkDecoded {
  dec_source : Source;
  dec_width : Q;
  dec_height : Q;
  dec_close : bool  (* whether [close] is there *)
}.

(** What [decodeImage] resolves to for a file; [None] when it rejects. *)
Variable decodeImage : File -> option DecodedImage.

(** Whether [canvas.getContext("2d")] gives a context. *)
Variable hasContext : bool.

(** [signal?.aborted], the [k]-th time it is read. *)
Variable aborted : nat -> bool.

(** [Math.random()], the [k]-th time it is called: a number of [[0, 1)]. *)
Variable random : nat -> Q.

Inductive Event : Type :=
| EvResize (size : Z)
| EvProgress (p : CollageProgress)
| EvFill (background : string) (size : Z)
| EvDecode (file : File)
| EvDrawImage (source : Source) (sx sy sWidth sHeight : Q) (dest : Rect)
| EvClose (source : Source)
| EvNextFrame.

(** [drawImageCover]: the call of [ctx.drawImage], if any.  The
    quotients and differences are doubles: each is rounded. *)
Definition drawImageCover (source : Source) (sourceW sourceH : Q)
    (dest : Rect) : list Event :=
  if Qle_bool (rect_width dest) 0 || Qle_bool (rect_height dest) 0
     || Qle_bool sourceW 0 || Qle_bool sourceH 0
  then []
  else
    let scale :=
      Qmax (fl (rect_width dest / sourceW)) (fl (rect_height dest / sourceH)) in
    let sWidth := fl (rect_width dest / scale) in
    let sHeight := fl (rect_height dest / scale) in
    let sx := fl (fl (sourceW - sWidth) / 2) in
    let sy := fl (fl (sourceH - sHeight) / 2) in
    [EvDrawImage source (Qmax 0 sx) (Qmax 0 sy) (Qmax 1 sWidth)
                 (Qmax 1 sHeight) dest].

(** [shuffleInPlace]: the loop [for (let i = arr.length - 1; i > 0; i--)],
    at [i], with [call] values of [Math.random()] used so far. *)
Fixpoint shuffleLoop {A : Type} (i : nat) (call : nat) (arr : list A)
    : list A :=
  match i with
  | O => arr
  | S i' =>
      let j := Z.to_nat (js_floor (random call * inject_Z (Z.of_nat i + 1))) in
      shuffleLoop i' (S call) (swap arr i j)
  end.

Definition shuffleInPlace {A : Type} (arr : list A) : list A :=
  shuffleLoop (length arr - 1) 0 arr.

(** [decoded.close?.()] *)
Definition closeDecoded (decoded : DecodedImage) : list Event :=
  if dec_close decoded then [EvClose (dec_source decoded)] else [].

(** One image: progress, decode, progress, draw, close, for a callback and
    a canvas that return normally: the [try] block then runs to its end and
    the [finally] closes the image after it.  [drawItemWith] below is the
    same code for a callback and a canvas that can throw.  [Some] is the
    failure of the decoder. *)
Definition drawItem (file : File) (dest : Rect) (drawn totalToDraw : Z)
    (decodeMsg drawMsg : ProgressMessage) : list Event * option RenderError :=
  let before :=
    [EvProgress (mkProgress PhaseDecode drawn totalToDraw decodeMsg);
     EvDecode file] in
  match decodeImage file with
  | None => (before, Some DecodeFailure)
  | Some decoded =>
      (before
       ++ [EvProgress (mkProgress PhaseRender drawn totalToDraw drawMsg)]
       ++ drawImageCover (dec_source decoded) (dec_width decoded)
                         (dec_height decoded) dest
       ++ closeDecoded decoded,
       None)
  end.

(** The loop over the images, [for (let idx = 0; idx < items.length; idx++)],
    from [idx] on, the signal read [polls] times so far.  [ring] tells the
    loop of the ring images, which checks that its cell is there, from the
    loop of the flat mode, where the cells were counted before.  It returns
    the events, and the error or the number of images drawn and of reads of
    the signal. *)
Fixpoint drawLoop (ring : bool) (items : list CollageImageItem) (idx : nat)
    (cells : list Rect) (polls : nat) (drawn totalToDraw : Z)
    : list Event * (RenderError + (Z * nat)) :=
  match items with
  | [] => ([], inr (drawn, polls))
  | item :: rest =>
      if aborted polls then ([], inl Aborted)
      else
        match nth_error cells idx with
        | None => ([], inl (if ring then NotEnoughRingCells else NotEnoughCells))
        | Some dest =>
            match drawItem (item_file item) dest drawn totalToDraw
                           (MsgDecode (drawn + 1) totalToDraw)
                           (MsgDraw (drawn + 1) totalToDraw) with
            | (events, Some e) => (events, inl e)
            | (events, None) =>
                let frame :=
                  if (idx mod 4 =? 0)%nat then [EvNextFrame] else [] in
                let '(later, result) :=
                  drawLoop ring rest (S idx) cells (S polls) (drawn + 1)
                           totalToDraw in
                (events ++ frame ++ later, result)
            end
        end
  end.

(** [images.find((i) => i.id === mainId) ?? images[0]], for a list that is
    not empty. *)
Definition selectMain (first : CollageImageItem)
    (images : list CollageImageItem) (mainId : string) : CollageImageItem :=
  match find (fun i => String.eqb (item_id i) mainId) images with
  | Some found => found
  | None => first
  end.

(** [images.filter((i) => i.id !== main.id)] *)
Definition selectOthers (images : list CollageImageItem)
    (main : CollageImageItem) : list CollageImageItem :=
  filter (fun i => negb (String.eqb (item_id i) (item_id main))) images.

Definition renderCollageToCanvas (images : list CollageImageItem)
    (mainId : string) (options : RenderCollageOptions)
    : list Event * option RenderError :=
  match images with
  | [] => ([], Some NoImages)
  | first :: _ =>
      let size := Z.max 64 (js_floor (ro_size options)) in
      if negb hasContext then ([], Some NoContext)
      else
        let start :=
          [EvResize size;
           EvProgress (mkProgress PhaseLayout 0 1 MsgLayout);
           EvFill (ro_background options) size] in
        if negb (ro_useMain options) then
          let ordered :=
            if ro_shuffleOthers options then shuffleInPlace images
            else images in
          let cells :=
            buildCellsFilled ln (rectZ 0 0 size size) (inject_Z (len ordered))
                             (ro_gap options) in
          if negb (len cells =? len ordered) then (start, Some NotEnoughCells)
          else
            let totalToDraw := len ordered in
            match drawLoop false ordered 0 cells 0 0 totalToDraw with
            | (events, inl e) => (start ++ events, Some e)
            | (events, inr (drawn, _)) =>
                (start ++ events
                 ++ [EvProgress (mkProgress PhaseRender drawn totalToDraw
                                            MsgDone)],
                 None)
            end
        else
          let main := selectMain first images mainId in
          let others := selectOthers images main in
          let othersOrdered :=
            if ro_shuffleOthers options then shuffleInPlace others
            else others in
          let layout :=
            computeCollageLayout ln
              (mkOptions (inject_Z size) (ro_mainRatio options)
                         (ro_gap options) (inject_Z (len othersOrdered))) in
          let totalToDraw := len othersOrdered + 1 in
          match drawLoop true othersOrdered 0 (ringCells layout) 0 0
                         totalToDraw with
          | (events, inl e) => (start ++ events, Some e)
          | (events, inr (drawn, polls)) =>
              if aborted polls then (start ++ events, Some Aborted)
              else
                match drawItem (item_file main) (mainRect layout) drawn
                               totalToDraw MsgDecodeMain MsgDrawMain with
                | (mainEvents, Some e) =>
                    (start ++ events ++ mainEvents, Some e)
                | (mainEvents, None) =>
                    (start ++ events ++ mainEvents
                     ++ [EvProgress (mkProgress PhaseRender (drawn + 1)
                                                totalToDraw MsgDone)],
                     None)
                end
          end
  end.

(** *** With a callback and a canvas that can fail

    [onProgress] is code of the caller and [ctx.drawImage] code of the
    platform: either can throw.  The pipeline above is the one of a
    callback and a canvas that return normally; here they are parameters.
    Between the decoding of an image and its [close] the code calls both,
    inside [try { ... } finally { decoded.close?.() }]. *)

(** Whether [onProgress] throws when it is given a report. *)
Variable reportThrows : CollageProgress -> bool.

(** Whether [ctx.drawImage] throws when it is given a source. *)
Variable drawThrows : Source -> bool.

(** [try { onProgress?.(p); drawImageCover(...) }]: the events of the
    block, and what it throws. *)
Definition tryDraw (p : CollageProgress) (decoded : DecodedImage)
    (dest : Rect) : list Event * option RunError :=
  if reportThrows p then ([EvProgress p], Some CallbackError)
  else
    let draw :=
      drawImageCover (dec_source decoded) (dec_width decoded)
                     (dec_height decoded) dest in
    match draw with
    | [] => ([EvProgress p], None)
    | _ :: _ =>
        (EvProgress p :: draw,
         if drawThrows (dec_source decoded) then Some DrawError else None)
    end.

(** One image: progress, decode, and the [try] block with its [finally],
    which closes the image however the block ends. *)
Definition drawItemWith (file : File) (dest : Rect) (drawn totalToDraw : Z)
    (decodeMsg drawMsg : ProgressMessage) : list Event * option RunError :=
  let decodeReport := mkProgress PhaseDecode drawn totalToDraw decodeMsg in
  if reportThrows decodeReport
  then ([EvProgress decodeReport], Some CallbackError)
  else
    match decodeImage file with
    | None =>
        ([EvProgress decodeReport; EvDecode file], Some (Thrown DecodeFailure))
    | Some decoded =>
        let '(block, thrown) :=
          tryDraw (mkProgress PhaseRender drawn totalToDraw drawMsg)
                  decoded dest in
        ([EvProgress decodeReport; EvDecode file] ++ block
         ++ closeDecoded decoded,
         thrown)
    end.

Fixpoint drawLoopWith (ring : bool) (items : list CollageImageItem)
    (idx : nat) (cells : list Rect) (polls : nat) (drawn totalToDraw : Z)
    : list Event * (RunError + (Z * nat)) :=
  match items with
  | [] => ([], inr (drawn, polls))
  | item :: rest =>
      if aborted polls then ([], inl (Thrown Aborted))
      else
        match nth_error cells idx with
        | None =>
            ([], inl (Thrown (if ring then NotEnoughRingCells
                              else NotEnoughCells)))
        | Some dest =>
            match drawItemWith (item_file item) dest drawn totalToDraw
                               (MsgDecode (drawn + 1) totalToDraw)
                               (MsgDraw (drawn + 1) totalToDraw) with
            | (events, Some e) => (events, inl e)
            | (events, None) =>
                let frame :=
                  if (idx mod 4 =? 0)%nat then [EvNextFrame] else [] in
                let '(later, result) :=
                  drawLoopWith ring rest (S idx) cells (S polls) (drawn + 1)
                               totalToDraw in
                (events ++ frame ++ later, result)
            end
        end
  end.

(** The last report, [done = total]. *)
Definition reportDone (events : list Event) (drawn totalToDraw : Z)
    : list Event * option RunError :=
  let p := mkProgress PhaseRender drawn totalToDraw MsgDone in
  (events ++ [EvProgress p],
   if reportThrows p then Some CallbackError else None).

Definition renderCollageToCanvasWith (images : list CollageImageItem)
    (mainId : string) (options : RenderCollageOptions)
    : list Event * option RunError :=
  match images with
  | [] => ([], Some (Thrown NoImages))
  | first :: _ =>
      let size := Z.max 64 (js_floor (ro_size options)) in
      if negb hasContext then ([], Some (Thrown NoContext))
      else
        let layoutReport := mkProgress PhaseLayout 0 1 MsgLayout in
        if reportThrows layoutReport
        then ([EvResize size; EvProgress layoutReport], Some CallbackError)
        else
        let start :=
          [EvResize size;
           EvProgress layoutReport;
           EvFill (ro_background options) size] in
        if negb (ro_useMain options) then
          let ordered :=
            if ro_shuffleOthers options then shuffleInPlace images
            else images in
          let cells :=
            buildCellsFilled ln (rectZ 0 0 size size) (inject_Z (len ordered))
                             (ro_gap options) in
          if negb (len cells =? len ordered)
          then (start, Some (Thrown NotEnoughCells))
          else
            let totalToDraw := len ordered in
            match drawLoopWith false ordered 0 cells 0 0 totalToDraw with
            | (events, inl e) => (start ++ events, Some e)
            | (events, inr (drawn, _)) =>
                reportDone (start ++ events) drawn totalToDraw
            end
        else
          let main := selectMain first images mainId in
          let others := selectOthers images main in
          let othersOrdered :=
            if ro_shuffleOthers options then shuffleInPlace others
            else others in
          let layout :=
            computeCollageLayout ln
              (mkOptions (inject_Z size) (ro_mainRatio options)
                         (ro_gap options) (inject_Z (len othersOrdered))) in
          let totalToDraw := len othersOrdered + 1 in
          match drawLoopWith true othersOrdered 0 (ringCells layout) 0 0
                             totalToDraw with
          | (events, inl e) => (start ++ events, Some e)
          | (events, inr (drawn, polls)) =>
              if aborted polls then (start ++ events, Some (Thrown Aborted))
              else
                match drawItemWith (item_file main) (mainRect layout) drawn
                                   totalToDraw MsgDecodeMain MsgDrawMain with
                | (mainEvents, Some e) =>
                    (start ++ events ++ mainEvents, Some e)
                | (mainEvents, None) =>
                    reportDone (start ++ events ++ mainEvents) (drawn + 1)
                               totalToDraw
                end
          end
  end.

End Render.

Arguments mkItem {File} item_id item_file.
Arguments item_id {File} c.
Arguments item_file {File} c.
Arguments mkDecoded {Source} dec_source dec_width dec_height dec_close.
Arguments dec_source {Source} d.
Arguments dec_width {Source} d.
Arguments dec_height {Source} d.
Arguments dec_close {Source} d.
Arguments EvResize {File Source} size.
Arguments EvProgress {File Source} p.
Arguments EvFill {File Source} background size.
Arguments EvDecode {File Source} file.
Arguments EvDrawImage {File Source} source sx sy sWidth sHeight dest.
Arguments EvClose {File Source} source.
Arguments EvNextFrame {File Source}.
Arguments drawImageCover {File Source} source sourceW sourceH dest.
Arguments closeDecoded {File Source} decoded.
Arguments drawItem {File Source} decodeImage file dest drawn totalToDraw
  decodeMsg drawMsg.
Arguments drawLoop {File Source} decodeImage aborted ring items idx cells
  polls drawn totalToDraw.
Arguments selectMain {File} first images mainId.
Arguments selectOthers {File} images main.
Arguments renderCollageToCanvas ln {File Source} decodeImage hasContext
  aborted random images mainId options.
Arguments tryDraw {File Source} reportThrows drawThrows p decoded dest.
Arguments drawItemWith {File Source} decodeImage reportThrows drawThrows file
  dest drawn totalToDraw decodeMsg drawMsg.
Arguments drawLoopWith {File Source} decodeImage aborted reportThrows
  drawThrows ring items idx cells polls drawn totalToDraw.
Arguments reportDone {File Source} reportThrows events drawn totalToDraw.
Arguments renderCollageToCanvasWith ln {File Source} decodeImage hasContext
  aborted random reportThrows drawThrows images mainId options.

(** ** The page: helpers of [src/app/page.tsx]

    A string is the list of its UTF-16 code units, which is what the
    regular expressions of the page (without the [u] flag) and [slice]
    work on. *)

Definition CodeUnit : Type := Z.

(** The code unit of an ASCII character. *)
Definition code (c : ascii) : CodeUnit := Z.of_N (N_of_ascii c).

(** The code units of an ASCII string. *)
Fixpoint units (s : string) : list CodeUnit :=
  match s with
  | EmptyString => []
  | String c rest => code c :: units rest
  end.

Definition between (lo hi : ascii) (c : CodeUnit) : bool :=
  (code lo <=? c) && (c <=? code hi).

(** The class [[a-zA-Z0-9._-]]. *)
Definition safe_unit (c : CodeUnit) : bool :=
  between "a"%char "z"%char c || between "A"%char "Z"%char c || between "0"%char "9"%char c
  || (c =? code "."%char) || (c =? code "_"%char) || (c =? code "-"%char).

(** The class [[^a-zA-Z0-9._-]]. *)
Definition unsafe_unit (c : CodeUnit) : bool := negb (safe_unit c).

(** The class of [-]. *)
Definition dash_unit (c : CodeUnit) : bool := c =? code "-"%char.

(** [input.replaceAll(/[class]+/g, "-")]: every maximal run of units of the
    class becomes one [-].  [inRun] tells that the unit before belongs to
    the match being replaced. *)
Fixpoint replaceRuns (class : CodeUnit -> bool) (inRun : bool)
    (input : list CodeUnit) : list CodeUnit :=
  match input with
  | [] => []
  | c :: rest =>
      if class c then
        if inRun then replaceRuns class true rest
        else code "-"%char :: replaceRuns class true rest
      else c :: replaceRuns class false rest
  end.

Definition replaceAll (class : CodeUnit -> bool) (input : list CodeUnit)
    : list CodeUnit :=
  replaceRuns class false input.

(** [s.slice(0, n)] *)
Definition slice0 {A : Type} (n : nat) (s : list A) : list A := firstn n s.

Definition safeFilenamePart (input : list CodeUnit) : list CodeUnit :=
  slice0 80 (replaceAll dash_unit (replaceAll unsafe_unit input)).

(** [scaledGap], a closure of the component over its state [gapPxAtExport]
    and [exportSize]. *)
Definition scaledGap (gapPxAtExport exportSize : Q) (size : Q) : Z :=
  Z.max 0 (js_round (gapPxAtExport * (size / exportSize))).

(** [progressPercent], from the state [progress] of the component. *)
Definition progressPercent (progress : option CollageProgress) : Z :=
  match progress with
  | Some p =>
      js_round (inject_Z (done p) / inject_Z (Z.max 1 (total p)) * 100)
  | None => 0
  end.

(** ** The previous revision of the layout

    The revision of [src/lib/collage.ts] that the page was written
    against: cells of fractional size on a grid with a short last row,
    inset by half the gap.  [clamp] and [allocateCounts] are the same in
    both revisions.  The sizes and positions of the cells are doubles that
    are not integers: every quotient, product, sum and difference that
    makes them is rounded with [fl]. *)

Module Previous.

(** [Math.ceil] *)
Definition js_ceil (q : Q) : Z := Qceiling q.

Definition insetRect (rect : Rect) (inset : Q) : Rect :=
  let insetClamped := Qmax 0 inset in
  mkRect (fl (rect_x rect + insetClamped)) (fl (rect_y rect + insetClamped))
         (Qmax 0 (fl (rect_width rect - fl (insetClamped * 2))))
         (Qmax 0 (fl (rect_height rect - fl (insetClamped * 2)))).

Definition computeRegions (size : Z) (mainRatio : Q) : Rect * list Region :=
  let safeRatio := clamp mainRatio (fl (5 # 100)) (fl (95 # 100)) in
  let mainSize := js_round (fl (inject_Z size * safeRatio)) in
  let ringThickness := (inject_Z (size - mainSize) / 2)%Q in
  let ringT := Qmax 0 ringThickness in
  let mainRect := mkRect ringT ringT (inject_Z mainSize) (inject_Z mainSize) in
  let top := mkRect 0 0 (inject_Z size) ringT in
  let bottom := mkRect 0 (ringT + inject_Z mainSize) (inject_Z size) ringT in
  let left := mkRect 0 ringT ringT (inject_Z mainSize) in
  let right := mkRect (ringT + inject_Z mainSize) ringT ringT (inject_Z mainSize) in
  let regions :=
    [ mkRegion Top top (rect_width top * rect_height top);
      mkRegion Right right (rect_width right * rect_height right);
      mkRegion Bottom bottom (rect_width bottom * rect_height bottom);
      mkRegion Left left (rect_width left * rect_height left) ] in
  (mainRect, regions).

Record Grid : Type := mkGrid { rows : Z; cols : Z }.

Section Grids.

(** [Math.log] *)
Variable ln : Q -> Q.

(** The loop [for (let rows = 1; rows <= n; rows++)] of [computeGrid], [k]
    iterations from [rows] on; [best] is the grid and its score, [None] for
    [Number.POSITIVE_INFINITY]. *)
Fixpoint searchGrid (k : nat) (rows : Z) (n : Z) (width height : Q)
    (best : Grid * option Q) : Grid * option Q :=
  match k with
  | O => best
  | S k' =>
      let cols := js_ceil (inject_Z n / inject_Z rows) in
      let cellW := fl (width / inject_Z cols) in
      let cellH := fl (height / inject_Z rows) in
      let aspect := if Qeq_bool cellH 0 then 999%Q else fl (cellW / cellH) in
      let squareness := Qabs (ln aspect) in
      let waste := rows * cols - n in
      let score :=
        fl (fl (squareness * 2)
            + fl (inject_Z waste / inject_Z (Z.max 1 n))) in
      let best :=
        if score_lt score (snd best) then (mkGrid rows cols, Some score)
        else best in
      searchGrid k' (rows + 1) n width height best
  end.

Definition computeGrid (count width height : Q) : Grid :=
  let n := Z.max 0 (js_floor count) in
  if n =? 0 then mkGrid 0 0
  else if Qle_bool width 0 || Qle_bool height 0 then mkGrid 1 n
  else fst (searchGrid (Z.to_nat n) 1 n width height (mkGrid 1 n, None)).

(** The cell of index [i] in [buildCells]. *)
Definition cellAt (rect : Rect) (n cols : Z) (cellW cellH : Q) (i : Z)
    : Rect :=
  let row := js_floor (inject_Z i / inject_Z cols) in
  let col := Z.rem i cols in
  let remaining := n - row * cols in
  let itemsInThisRow := Z.min cols remaining in
  let rowXOffset :=
    if itemsInThisRow =? cols then 0%Q
    else fl (fl (rect_width rect - fl (inject_Z itemsInThisRow * cellW))
             / 2) in
  mkRect (fl (fl (rect_x rect + rowXOffset) + fl (inject_Z col * cellW)))
         (fl (rect_y rect + fl (inject_Z row * cellH)))
         cellW cellH.

(** The loop [for (let i = 0; i < n; i++)] of [buildCells], [k] iterations
    from [i] on. *)
Fixpoint pushCells (k : nat) (i : Z) (rect : Rect) (n cols : Z)
    (cellW cellH : Q) (cells : list Rect) : list Rect :=
  match k with
  | O => cells
  | S k' =>
      pushCells k' (i + 1) rect n cols cellW cellH
                (cells ++ [cellAt rect n cols cellW cellH i])
  end.

Definition buildCells (rect : Rect) (count : Q) : list Rect :=
  let n := Z.max 0 (js_floor count) in
  if (n =? 0) || Qle_bool (rect_width rect) 0 || Qle_bool (rect_height rect) 0
  then []
  else
    let grid := computeGrid (inject_Z n) (rect_width rect) (rect_height rect) in
    if (rows grid =? 0) || (cols grid =? 0) then []
    else
      let cellW := fl (rect_width rect / inject_Z (cols grid)) in
      let cellH := fl (rect_height rect / inject_Z (rows grid)) in
      pushCells (Z.to_nat n) 0 rect n (cols grid) cellW cellH [].

Definition computeCollageLayout (options : CollageLayoutOptions)
    : CollageLayout :=
  let size := Z.max 64 (js_floor (opt_size options)) in
  let gap :=
    clamp (opt_gap options) 0 (inject_Z (js_floor (inject_Z size / 10))) in
  let othersCount := Z.max 0 (js_floor (opt_othersCount options)) in
  let '(mainRect, regions) := computeRegions size (opt_mainRatio options) in
  let counts := allocateCounts (inject_Z othersCount) regions in
  let gapInset := fl (gap / 2) in
  let ringCells :=
    fold_left
      (fun ringCells region =>
         ringCells ++
         map (fun r => insetRect r gapInset)
             (buildCells (region_rect region)
                         (inject_Z (get_count counts (region_name region)))))
      regions [] in
  mkLayout size gap (insetRect mainRect gapInset) ringCells.

End Grids.

End Previous.

(** ** Notions used to state the properties *)

(** Sum of a list of integers. *)
Definition sumZ (l : list Z) : Z := fold_right Z.add 0 l.

(** Two rectangles with the same four numbers. *)
Definition rect_eq (a b : Rect) : Prop :=
  (rect_x a == rect_x b)%Q /\ (rect_y a == rect_y b)%Q /\
  (rect_width a == rect_width b)%Q /\ (rect_height a == rect_height b)%Q.

(** A number that is a non-negative integer. *)
Definition is_nonneg_int (q : Q) : Prop :=
  exists z : Z, 0 <= z /\ (q == inject_Z z)%Q.

(** All four coordinates of a rectangle are non-negative integers. *)
Definition integer_rect (r : Rect) : Prop :=
  is_nonneg_int (rect_x r) /\ is_nonneg_int (rect_y r) /\
  is_nonneg_int (rect_width r) /\ is_nonneg_int (rect_height r).

(** The four region rectangles of a canvas of side [size] around a centred
    main square of side [mainSize], with ring thickness [ringT]. *)
Definition ring_rects (size mainSize ringT : Z) : list Rect :=
  [ rectZ 0 0 size ringT;
    rectZ (ringT + mainSize) ringT ringT mainSize;
    rectZ 0 (ringT + mainSize) size ringT;
    rectZ 0 ringT ringT mainSize ].

(** The combined area of a list of regions, summed as the code does. *)
Definition total_area (regions : list Region) : Q :=
  fold_left (fun sum r => (sum + region_area r)%Q) regions 0%Q.

(** The four allocated counts, added up. *)
Definition counts_total (c : Counts) : Z :=
  count_top c + count_right c + count_bottom c + count_left c.

(** *** The grid packer *)

(** Items in row [r] of a grid of [rows] rows holding [n] items:
    [floor(n / rows)], and one more in the first [n - base * rows] rows. *)
Definition rowCount (n rows r : Z) : Z :=
  n / rows + (if r <? n - n / rows * rows then 1 else 0).

(** A candidate row count is feasible when every row is at least one pixel
    high after the gaps, and every cell of every row at least one pixel
    wide. *)
Definition feasible (n width height gap rows : Z) : Prop :=
  1 <= rows <= Z.min n height /\
  rows <= height - gap * (rows - 1) /\
  forall r, 0 <= r < rows ->
    rowCount n rows r <= width - gap * (rowCount n rows r - 1).

Section Score.

Variable ln : Q -> Q.

(** The squareness penalty of row [r]: [|log(cellWidth / cellHeight)|]
    weighted by the number of cells of the row. *)
Definition rowPenalty (n width height gap rows r : Z) : Q :=
  let count := rowCount n rows r in
  let cellWidth := (inject_Z (width - gap * (count - 1)) / inject_Z count)%Q in
  let cellHeight := (inject_Z (height - gap * (rows - 1)) / inject_Z rows)%Q in
  (Qabs (ln (cellWidth / cellHeight)) * inject_Z count)%Q.

(** The score of a candidate: the penalties of its rows, added up from the
    first row on. *)
Definition squareness (n width height gap rows : Z) : Q :=
  fold_left
    (fun score r => (score + rowPenalty n width height gap rows (Z.of_nat r))%Q)
    (seq 0 (Z.to_nat rows)) 0%Q.

(** The penalty of row [r] and the score of a candidate as the code
    computes them, in doubles: each quotient, product and sum rounded. *)
Definition computedPenalty (n width height gap rows r : Z) : Q :=
  let count := rowCount n rows r in
  let cellWidth := fl (inject_Z (width - gap * (count - 1)) / inject_Z count) in
  let cellHeight := fl (inject_Z (height - gap * (rows - 1)) / inject_Z rows) in
  fl (Qabs (ln (fl (cellWidth / cellHeight))) * inject_Z count).

Definition computedScore (n width height gap rows : Z) : Q :=
  fold_left
    (fun score r => fl (score + computedPenalty n width height gap rows
                                                (Z.of_nat r)))
    (seq 0 (Z.to_nat rows)) 0%Q.

End Score.

(** What the search knows after it has looked at the candidates below
    [lim]: the best of them, with its computed score, or that none was
    feasible. *)
Definition best_below (ln : Q -> Q) (n width height gap : Z) (lim : Z)
    (bestRows : option Z) (bestScore : option Q) : Prop :=
  match bestRows, bestScore with
  | None, None => forall c, c < lim -> ~ feasible n width height gap c
  | Some b, Some s =>
      s = computedScore ln n width height gap b /\
      feasible n width height gap b /\ b < lim /\
      forall c, feasible n width height gap c -> c < lim ->
        (s <= computedScore ln n width height gap c)%Q /\
        (c < b -> (s < computedScore ln n width height gap c)%Q)
  | _, _ => False
  end.

(** The verdict of a finished search. *)
Definition best_of_all (ln : Q -> Q) (n width height gap : Z)
    (bestRows : option Z) : Prop :=
  match bestRows with
  | None => forall c, ~ feasible n width height gap c
  | Some b =>
      feasible n width height gap b /\
      forall c, feasible n width height gap c ->
        (computedScore ln n width height gap b
           <= computedScore ln n width height gap c)%Q /\
        (c < b ->
         (computedScore ln n width height gap b
            < computedScore ln n width height gap c)%Q)
  end.

(** Cells of one row, left to right: each cell starts [cellWidth + gap]
    after the one before. *)
Fixpoint row_cells (x y h gap : Z) (widths : list Z) : list Rect :=
  match widths with
  | [] => []
  | w :: ws => rectZ x y w h :: row_cells (x + w + gap) y h gap ws
  end.

(** Rows top to bottom, each given by its height and its cell widths: each
    row starts [rowHeight + gap] below the one before. *)
Fixpoint grid_cells (x0 y gap : Z) (rows : list (Z * list Z)) : list Rect :=
  match rows with
  | [] => []
  | (h, ws) :: rest =>
      row_cells x0 y h gap ws ++ grid_cells x0 (y + h + gap) gap rest
  end.

(** The widths of the cells of a row of [rc] cells. *)
Definition row_widths (width gap rc : Z) : list Z :=
  distribute (inject_Z (width - gap * (rc - 1))) (inject_Z rc).

(** The row heights and cell widths of the grid of [rows] rows that holds
    [n] items in a [width] by [height] rectangle with the given gap. *)
Definition grid_rows (n width height gap rows : Z) : list (Z * list Z) :=
  combine
    (distribute (inject_Z (height - gap * (rows - 1))) (inject_Z rows))
    (map (row_widths width gap) (array_from rows (rowCount n rows))).

(** *** Geometry *)

(** Two rectangles are separated when one lies entirely to the left of,
    to the right of, above or below the other. *)
Definition separated (a b : Rect) : Prop :=
  (rect_x a + rect_width a <= rect_x b)%Q \/
  (rect_x b + rect_width b <= rect_x a)%Q \/
  (rect_y a + rect_height a <= rect_y b)%Q \/
  (rect_y b + rect_height b <= rect_y a)%Q.

(** The area two rectangles have in common. *)
Definition intersection_area (a b : Rect) : Q :=
  (Qmax 0 (Qmin (rect_x a + rect_width a) (rect_x b + rect_width b)
           - Qmax (rect_x a) (rect_x b)) *
   Qmax 0 (Qmin (rect_y a + rect_height a) (rect_y b + rect_height b)
           - Qmax (rect_y a) (rect_y b)))%Q.

(** [r] lies inside [R]. *)
Definition inside (r R : Rect) : Prop :=
  (rect_x R <= rect_x r)%Q /\
  (rect_x r + rect_width r <= rect_x R + rect_width R)%Q /\
  (rect_y R <= rect_y r)%Q /\
  (rect_y r + rect_height r <= rect_y R + rect_height R)%Q.

(** The same two notions up to a tolerance [t], for rectangles whose
    coordinates are rounded doubles. *)
Definition inside_within (t : Q) (r R : Rect) : Prop :=
  (rect_x R - t <= rect_x r)%Q /\
  (rect_x r + rect_width r <= rect_x R + rect_width R + t)%Q /\
  (rect_y R - t <= rect_y r)%Q /\
  (rect_y r + rect_height r <= rect_y R + rect_height R + t)%Q.

Definition separated_within (t : Q) (a b : Rect) : Prop :=
  (rect_x a + rect_width a <= rect_x b + t)%Q \/
  (rect_x b + rect_width b <= rect_x a + t)%Q \/
  (rect_y a + rect_height a <= rect_y b + t)%Q \/
  (rect_y b + rect_height b <= rect_y a + t)%Q.

(** The rounding allowed to the cells of a rectangle: [2^-49] of the
    coordinates of its far corner. *)
Definition rounding_tolerance (rect : Rect) : Q :=
  (pow2 (-49)
   * (rect_x rect + rect_width rect + rect_y rect + rect_height rect))%Q.

(** [r] lies within the canvas [[0, size) x [0, size)]. *)
Definition within_canvas (size : Z) (r : Rect) : Prop :=
  inside r (rectZ 0 0 size size).

(** The whole pixels of a rectangle, as the packer rounds it. *)
Definition capacity (r : Rect) : Z :=
  Z.max 0 (js_round (rect_width r)) * Z.max 0 (js_round (rect_height r)).

(** *** The layout *)

(** The side of the canvas of a layout. *)
Definition layout_canvas (options : CollageLayoutOptions) : Z :=
  Z.max 64 (js_floor (opt_size options)).

(** The four ring regions of a layout. *)
Definition layout_regions (options : CollageLayoutOptions) : list Region :=
  snd (computeRegions (layout_canvas options) (opt_mainRatio options)).

(** The counts allocated to the regions of a layout. *)
Definition layout_counts (options : CollageLayoutOptions) : Counts :=
  allocateCounts (inject_Z (Z.max 0 (js_floor (opt_othersCount options))))
                 (layout_regions options).

(** What a region contributes to the ring: its count if that fits its
    capacity, and nothing otherwise. *)
Definition region_cells_count (counts : Counts) (region : Region) : Z :=
  let c := get_count counts (region_name region) in
  if c <=? capacity (region_rect region) then c else 0.

(** The gaps that [buildCellsFilled] tries in turn, from the floored
    request [g0] down to no gap. *)
Definition gap_chain (g0 : Z) : list Z :=
  [g0; g0 / 2; g0 / 2 / 2; g0 / 2 / 2 / 2; 0].

(** Some row count is feasible with the gap [g]. *)
Definition gap_fits (n width height g : Z) : Prop :=
  exists rows, feasible n width height g rows.

(** [g] is the first gap of the chain of [g0] that fits. *)
Definition first_gap (n width height g0 g : Z) : Prop :=
  exists before after,
    gap_chain g0 = before ++ g :: after /\
    gap_fits n width height g /\
    Forall (fun g' => ~ gap_fits n width height g') before.

(** [cells] is the row-major grid of [n] cells in the rounded rectangle
    [rect], for a feasible row count and one of the gaps of the chain. *)
Definition row_major_grid (rect : Rect) (n g0 : Z) (cells : list Rect) : Prop :=
  exists g rows,
    In g (gap_chain g0) /\ 0 <= g /\
    feasible n (js_round (rect_width rect)) (js_round (rect_height rect)) g rows /\
    cells =
      grid_cells (js_round (rect_x rect)) (js_round (rect_y rect)) g
        (grid_rows n (js_round (rect_width rect))
                   (js_round (rect_height rect)) g rows).

(** The rows of a grid fit a width [W]: heights and widths are not
    negative, and no row is wider than [W] with its gaps. *)
Definition rows_fit (gap W : Z) (rows : list (Z * list Z)) : Prop :=
  Forall (fun row =>
            0 <= fst row /\ Forall (fun v => 0 <= v) (snd row) /\
            sumZ (snd row) + gap * (len (snd row) - 1) <= W)
         rows.

(** *** The render pipeline *)

Section RenderNotions.

Variables File Source : Type.
Variable decodeImage : File -> option (DecodedImage Source).

(** The events of a loop over the images that meets no error: the image at
    index [idx] is decoded and drawn into [cells[idx]], and a frame is
    awaited after every fourth image. *)
Fixpoint loop_events (items : list (CollageImageItem File)) (idx : nat)
    (cells : list Rect) (drawn totalToDraw : Z) : list (Event File Source) :=
  match items with
  | [] => []
  | item :: rest =>
      match nth_error cells idx with
      | None => []
      | Some dest =>
          fst (drawItem decodeImage (item_file item) dest drawn totalToDraw
                        (MsgDecode (drawn + 1) totalToDraw)
                        (MsgDraw (drawn + 1) totalToDraw))
          ++ (if (idx mod 4 =? 0)%nat then [EvNextFrame] else [])
          ++ loop_events rest (S idx) cells (drawn + 1) totalToDraw
      end
  end.

(** The events every run starts with, once the canvas has a context. *)
Definition start_events (options : RenderCollageOptions)
    : list (Event File Source) :=
  let size := Z.max 64 (js_floor (ro_size options)) in
  [EvResize size;
   EvProgress (mkProgress PhaseLayout 0 1 MsgLayout);
   EvFill (ro_background options) size].

(** The layout of a run with a main image and the given ring images. *)
Definition render_layout (ln : Q -> Q) (options : RenderCollageOptions)
    (others : list (CollageImageItem File)) : CollageLayout :=
  computeCollageLayout ln
    (mkOptions (inject_Z (Z.max 64 (js_floor (ro_size options))))
               (ro_mainRatio options) (ro_gap options)
               (inject_Z (len others))).

(** The files decoded by a run, in order. *)
Fixpoint decoded_files (events : list (Event File Source)) : list File :=
  match events with
  | [] => []
  | EvDecode file :: rest => file :: decoded_files rest
  | _ :: rest => decoded_files rest
  end.

End RenderNotions.

Arguments loop_events {File Source} decodeImage items idx cells drawn
  totalToDraw.
Arguments start_events {File Source} options.
Arguments render_layout {File} ln options others.
Arguments decoded_files {File Source} events.

(** *** Shares *)

(** The exact share of a region in [total] items, as [allocateCounts]
    computes it. *)
Definition exact_share (total : Q) (regions : list Region) (r : Region) : Q :=
  (region_area r / total_area regions
   * inject_Z (Z.max 0 (js_floor total)))%Q.

(** One unit more for the [k] entries from index [i] on. *)
Fixpoint bump_range (l : list RawShare) (i k : nat) : list RawShare :=
  match l with
  | [] => []
  | r :: l' =>
      match i, k with
      | S i', _ => r :: bump_range l' i' k
      | O, O => r :: l'
      | O, S k' =>
          mkRaw (raw_name r) (raw_exact r) (raw_base r + 1) (raw_frac r)
          :: bump_range l' 0 k'
      end
  end.

(** The entry that [allocateCounts] makes for a region. *)
Definition raw_share (total : Q) (regions : list Region) (r : Region)
    : RawShare :=
  mkRaw (region_name r) (exact_share total regions r)
        (js_floor (exact_share total regions r))
        (exact_share total regions r
         - inject_Z (js_floor (exact_share total regions r)))%Q.

(** The fractional part of the share of a region. *)
Definition share_frac (total : Q) (regions : list Region) (r : Region) : Q :=
  raw_frac (raw_share total regions r).

(** *** Cells *)

(** The area of a rectangle, and of a list of rectangles. *)
Definition cell_area (c : Rect) : Q := (rect_width c * rect_height c)%Q.

Definition total_cell_area (cells : list Rect) : Q :=
  fold_right (fun c s => (cell_area c + s)%Q) 0%Q cells.

(** A cell of whole pixels, at least one pixel wide and high. *)
Definition pixel_cell (c : Rect) : Prop :=
  exists x y w h : Z, c = rectZ x y w h /\ 1 <= w /\ 1 <= h.

Section RenderTrace.

Variables File Source : Type.
Variable decodeImage : File -> option (DecodedImage Source).

(** The sources closed by a run, in order. *)
Fixpoint closed_sources (events : list (Event File Source)) : list Source :=
  match events with
  | [] => []
  | EvClose source :: rest => source :: closed_sources rest
  | _ :: rest => closed_sources rest
  end.

(** The sources that have to be closed after decoding the given files:
    those of the files that decode to an image with a [close]. *)
Definition sources_to_close (files : list File) : list Source :=
  flat_map (fun file =>
              match decodeImage file with
              | Some decoded =>
                  if dec_close decoded then [dec_source decoded] else []
              | None => []
              end)
           files.

(** The destinations of the [drawImage] calls of a run, in order. *)
Fixpoint draw_destinations (events : list (Event File Source)) : list Rect :=
  match events with
  | [] => []
  | EvDrawImage _ _ _ _ _ dest :: rest => dest :: draw_destinations rest
  | _ :: rest => draw_destinations rest
  end.

End RenderTrace.

Arguments closed_sources {File Source} events.
Arguments sources_to_close {File Source} decodeImage files.
Arguments draw_destinations {File Source} events.

(** *** Progress and destinations *)

(** [sub] holds some of the elements of [l], in the order of [l]. *)
Inductive subsequence {A : Type} : list A -> list A -> Prop :=
| subsequence_nil : subsequence [] []
| subsequence_skip x sub l : subsequence sub l -> subsequence sub (x :: l)
| subsequence_take x sub l : subsequence sub l -> subsequence (x :: sub) (x :: l).

Section Reports.

Variables File Source : Type.

(** What the progress callback is given during a run, in order. *)
Fixpoint progress_reports (events : list (Event File Source))
    : list CollageProgress :=
  match events with
  | [] => []
  | EvProgress p :: rest => p :: progress_reports rest
  | _ :: rest => progress_reports rest
  end.

(** The number of images a run sets out to draw. *)
Definition images_to_draw (first : CollageImageItem File)
    (rest : list (CollageImageItem File)) (mainId : string)
    (options : RenderCollageOptions) : Z :=
  if ro_useMain options
  then len (selectOthers (first :: rest)
                         (selectMain first (first :: rest) mainId)) + 1
  else len (first :: rest).

(** The cells a run draws into, in the order it fills them. *)
Definition run_cells (ln : Q -> Q) (first : CollageImageItem File)
    (rest : list (CollageImageItem File)) (mainId : string)
    (options : RenderCollageOptions) : list Rect :=
  let images := first :: rest in
  let size := Z.max 64 (js_floor (ro_size options)) in
  if ro_useMain options then
    let layout :=
      render_layout ln options
                    (selectOthers images (selectMain first images mainId)) in
    ringCells layout ++ [mainRect layout]
  else
    buildCellsFilled ln (rectZ 0 0 size size) (inject_Z (len images))
                     (ro_gap options).

End Reports.

Arguments progress_reports {File Source} events.
Arguments images_to_draw {File} first rest mainId options.
Arguments run_cells {File} ln first rest mainId options.

(** A name without two dashes in a row. *)
Fixpoint single_dashes (s : list CodeUnit) : Prop :=
  match s with
  | a :: (b :: _) as rest =>
      ~ (dash_unit a = true /\ dash_unit b = true) /\ single_dashes rest
  | _ => True
  end.

(** ** Doubles *)

Lemma pow2_pos (e : Z) : (0 < pow2 e)%Q.
Proof. apply Qpower_0_lt. reflexivity. Qed.

Lemma pow2_plus (a b : Z) : (pow2 (a + b) == pow2 a * pow2 b)%Q.
Proof. apply Qpower_plus. discriminate. Qed.

Lemma pow2_inject (a : Z) : 0 <= a -> (inject_Z (2 ^ a) == pow2 a)%Q.
Proof. intros H. unfold pow2. now rewrite Zpower_Qpower. Qed.

Lemma pow2_succ (a : Z) : (pow2 (a + 1) == 2 * pow2 a)%Q.
Proof. rewrite pow2_plus. change (pow2 1) with 2%Q. ring. Qed.

Lemma Qabs_frac (q : Q) :
  (Qabs q == inject_Z (Z.abs (Qnum q)) / inject_Z (Zpos (Qden q)))%Q.
Proof.
  destruct q as [n d]. unfold Qabs. cbn [Qnum Qden].
  unfold Qeq, Qdiv, Qmult, Qinv, inject_Z. cbn. lia.
Qed.

(** The exponent puts the significand between [2^52] and [2^53]. *)
Lemma ulp_exponent_spec (q : Q) :
  ~ (q == 0)%Q ->
  (pow2 (ulp_exponent q + 52) <= Qabs q < pow2 (ulp_exponent q + 53))%Q.
Proof.
  intros Hq.
  set (N := Z.abs (Qnum q)). set (D := Zpos (Qden q)).
  assert (HN : 0 < N).
  { unfold N. destruct q as [n d]. unfold Qeq in Hq. cbn in *. lia. }
  assert (HD : 0 < D) by (unfold D; lia).
  pose proof (Z.log2_spec N HN) as [Ha1 Ha2].
  pose proof (Z.log2_spec D HD) as [Hb1 Hb2].
  pose proof (Z.log2_nonneg N) as Ha0. pose proof (Z.log2_nonneg D) as Hb0.
  unfold ulp_exponent. fold N D.
  set (a := Z.log2 N) in *. set (b := Z.log2 D) in *.
  rewrite <- Z.add_1_r in Ha2, Hb2.
  rewrite Zle_Qle in Ha1, Hb1. rewrite Zlt_Qlt in Ha2, Hb2.
  rewrite !pow2_inject in Ha1, Ha2, Hb1, Hb2 by lia.
  assert (HDq : (0 < inject_Z D)%Q).
  { change 0%Q with (inject_Z 0). now rewrite <- Zlt_Qlt. }
  assert (Habs : (Qabs q == inject_Z N / inject_Z D)%Q) by apply Qabs_frac.
  pose proof (pow2_pos a) as Pa. pose proof (pow2_pos b) as Pb.
  pose proof (pow2_pos (a - b)) as Pc.
  assert (Ec : (pow2 a == pow2 (a - b) * pow2 b)%Q).
  { rewrite <- pow2_plus. now replace (a - b + b) with a by lia. }
  assert (Hup : (Qabs q < pow2 (a - b + 1))%Q).
  { rewrite Habs, pow2_succ. apply Qlt_shift_div_r; [exact HDq|].
    rewrite pow2_succ in Ha2.
    eapply Qlt_le_trans; [exact Ha2|]. rewrite Ec.
    rewrite <- !Qmult_assoc. apply Qmult_le_l; [reflexivity|].
    apply Qmult_le_l; [exact Pc | exact Hb1]. }
  assert (Hlo : (pow2 (a - b - 1) < Qabs q)%Q).
  { rewrite Habs. apply Qlt_shift_div_l; [exact HDq|].
    eapply Qlt_le_trans; [|exact Ha1]. rewrite Ec.
    assert (E1 : (pow2 (a - b) == 2 * pow2 (a - b - 1))%Q).
    { rewrite <- pow2_succ. now replace (a - b - 1 + 1) with (a - b) by lia. }
    rewrite E1. rewrite pow2_succ in Hb2.
    rewrite <- Qmult_assoc, (Qmult_comm 2), <- Qmult_assoc.
    apply Qmult_lt_l; [apply pow2_pos|].
    rewrite Qmult_comm. exact Hb2. }
  destruct (Qle_bool (pow2 (a - b)) (Qabs q)) eqn:E.
  - apply Qle_bool_iff in E.
    replace (a - b - 52 + 52) with (a - b) by lia.
    replace (a - b - 52 + 53) with (a - b + 1) by lia. split; assumption.
  - assert (Hlt : (Qabs q < pow2 (a - b))%Q).
    { apply Qnot_le_lt. intros H. apply Qle_bool_iff in H. congruence. }
    replace (a - b - 53 + 52) with (a - b - 1) by lia.
    replace (a - b - 53 + 53) with (a - b) by lia.
    split; [apply Qlt_le_weak|]; assumption.
Qed.

Lemma round_even_error (q : Q) :
  (Qabs (inject_Z (round_even q) - q) <= 1 # 2)%Q.
Proof.
  unfold round_even. pose proof (Qfloor_le q) as Hlo.
  pose proof (Qlt_floor q) as Hhi. set (f := Qfloor q) in *.
  rewrite inject_Z_plus in Hhi. change (inject_Z 1) with 1%Q in Hhi.
  apply Qabs_Qle_condition.
  destruct (q - inject_Z f ?= 1 # 2)%Q eqn:E.
  - apply Qeq_alt in E. destruct (Z.even f).
    + split; lra.
    + rewrite inject_Z_plus. change (inject_Z 1) with 1%Q. split; lra.
  - apply Qlt_alt in E. split; lra.
  - apply Qgt_alt in E. rewrite inject_Z_plus.
    change (inject_Z 1) with 1%Q. split; lra.
Qed.

(** Rounding moves a number by at most half a unit in its last place. *)
Lemma fl_error (q : Q) : (Qabs (fl q - q) <= Qabs q * eps)%Q.
Proof.
  unfold fl. destruct (Qeq_bool q 0) eqn:E0.
  - apply Qeq_bool_iff in E0. rewrite E0. cbn. discriminate.
  - assert (Hq : ~ (q == 0)%Q).
    { intros H. apply Qeq_bool_iff in H. congruence. }
    destruct (ulp_exponent_spec q Hq) as [Hlo _].
    set (e := ulp_exponent q) in *.
    pose proof (pow2_pos e) as Pe.
    pose proof (round_even_error (q / pow2 e)) as Hr.
    set (r := inject_Z (round_even (q / pow2 e))) in *.
    assert (E : (r * pow2 e - q == (r - q / pow2 e) * pow2 e)%Q)
      by (field; lra).
    rewrite E, Qabs_Qmult, (Qabs_pos (pow2 e)) by lra.
    assert (H52 : (pow2 (e + 52) * eps == pow2 e * (1 # 2))%Q).
    { unfold eps. rewrite <- pow2_plus.
      replace (e + 52 + -53) with (e + -1) by lia.
      rewrite pow2_plus. reflexivity. }
    apply Qle_trans with ((1 # 2) * pow2 e)%Q.
    + apply Qmult_le_compat_r; [exact Hr | lra].
    + rewrite Qmult_comm, <- H52.
      apply Qmult_le_compat_r; [exact Hlo | discriminate].
Qed.

Lemma fl_bounds (q : Q) :
  (0 <= q)%Q -> (q * (1 - eps) <= fl q <= q * (1 + eps))%Q.
Proof.
  intros Hq. pose proof (fl_error q) as H.
  rewrite (Qabs_pos q) in H by exact Hq.
  apply Qabs_Qle_condition in H. split; lra.
Qed.

Lemma fl_pos (q : Q) : (0 < q)%Q -> (0 < fl q)%Q.
Proof.
  intros Hq. destruct (fl_bounds q ltac:(lra)) as [H _].
  eapply Qlt_le_trans; [|exact H].
  apply Qmult_lt_0_compat; [exact Hq | reflexivity].
Qed.

Lemma Qle_bool_pos (x : Q) : (0 < x)%Q -> Qle_bool x 0 = false.
Proof.
  intros Hx. destruct (Qle_bool x 0) eqn:E; [|reflexivity].
  apply Qle_bool_iff in E. lra.
Qed.

(** * Properties *)

(** ** The numeric primitives *)

Lemma Qfloor_unique (q : Q) (z : Z) :
  (inject_Z z <= q)%Q -> (q < inject_Z (z + 1))%Q -> Qfloor q = z.
Proof.
  intros Hlo Hhi.
  pose proof (Qfloor_le q) as Hfl.
  pose proof (Qlt_floor q) as Hfu.
  assert (H1 : (inject_Z z < inject_Z (Qfloor q + 1))%Q)
    by (eapply Qle_lt_trans; eauto).
  assert (H2 : (inject_Z (Qfloor q) < inject_Z (z + 1))%Q)
    by (eapply Qle_lt_trans; eauto).
  rewrite <- Zlt_Qlt in H1, H2. lia.
Qed.

Lemma js_floor_inject (z : Z) : js_floor (inject_Z z) = z.
Proof. apply Qfloor_Z. Qed.

Lemma js_round_inject (z : Z) : js_round (inject_Z z) = z.
Proof.
  unfold js_round. apply Qfloor_unique.
  - lra.
  - rewrite inject_Z_plus. change (inject_Z 1) with 1%Q. lra.
Qed.

Lemma js_round_int (q : Q) (z : Z) : (q == inject_Z z)%Q -> js_round q = z.
Proof.
  intros H. unfold js_round. rewrite H. apply js_round_inject.
Qed.

Lemma inject_Z_pos (p : Z) : 0 < p -> (0 < inject_Z p)%Q.
Proof. intros H. change 0%Q with (inject_Z 0). now rewrite <- Zlt_Qlt. Qed.

Lemma Qfloor_div_int (q : Q) (p : Z) :
  1 <= p -> Qfloor (q / inject_Z p) = Qfloor q / p.
Proof.
  intros Hp.
  assert (Hp0 : (0 < inject_Z p)%Q) by (apply inject_Z_pos; lia).
  pose proof (Qfloor_le q) as Hfl.
  pose proof (Qlt_floor q) as Hfu.
  set (f := Qfloor q) in *.
  pose proof (Z.mul_div_le f p ltac:(lia)) as Hd1.
  pose proof (Z.mul_succ_div_gt f p ltac:(lia)) as Hd2.
  set (d := f / p) in *.
  apply Qfloor_unique.
  - apply Qle_shift_div_l; [exact Hp0|].
    rewrite <- inject_Z_mult. eapply Qle_trans; [|exact Hfl].
    rewrite <- Zle_Qle. lia.
  - apply Qlt_shift_div_r; [exact Hp0|].
    rewrite <- inject_Z_mult. eapply Qlt_le_trans; [exact Hfu|].
    rewrite <- Zle_Qle. lia.
Qed.

Lemma js_floor_half (g : Z) : js_floor (inject_Z g / 2) = g / 2.
Proof.
  unfold js_floor. change 2%Q with (inject_Z 2).
  rewrite Qfloor_div_int by lia. now rewrite Qfloor_Z.
Qed.

Lemma Qfloor_nonneg (q : Q) : (0 <= q)%Q -> 0 <= Qfloor q.
Proof.
  intros H. apply Qfloor_resp_le in H.
  change 0%Q with (inject_Z 0) in H. now rewrite Qfloor_Z in H.
Qed.

(** ** Lists built by [Array.from] *)

Lemma array_from_length {A} (n : Z) (f : Z -> A) :
  length (array_from n f) = Z.to_nat n.
Proof. unfold array_from. now rewrite length_map, length_seq. Qed.

Lemma array_from_nth {A} (n : Z) (f : Z -> A) (i : nat) (d : A) :
  (i < Z.to_nat n)%nat -> nth i (array_from n f) d = f (Z.of_nat i).
Proof.
  intros Hi. unfold array_from.
  rewrite nth_indep with (d' := f (Z.of_nat 0))
    by (now rewrite length_map, length_seq).
  rewrite (map_nth (fun i => f (Z.of_nat i))), seq_nth by exact Hi.
  reflexivity.
Qed.

Lemma map_seq_const {A} (g : nat -> A) (v : A) (s n : nat) :
  (forall i, (s <= i < s + n)%nat -> g i = v) -> map g (seq s n) = repeat v n.
Proof.
  revert s. induction n as [|n IH]; intros s Hg; simpl; [reflexivity|].
  rewrite Hg by lia. f_equal. apply IH. intros i Hi. apply Hg. lia.
Qed.

(** With a remainder [r] between 0 and [p], the staircase of [distribute]
    is [r] copies of [b + 1] followed by [p - r] copies of [b]. *)
Lemma array_from_staircase (p b r : Z) :
  0 <= r <= p ->
  array_from p (fun i => b + (if i <? r then 1 else 0)) =
  repeat (b + 1) (Z.to_nat r) ++ repeat b (Z.to_nat (p - r)).
Proof.
  intros Hr. unfold array_from.
  replace (Z.to_nat p) with (Z.to_nat r + Z.to_nat (p - r))%nat by lia.
  rewrite seq_app, map_app. f_equal.
  - apply map_seq_const. intros i Hi.
    destruct (Z.ltb_spec (Z.of_nat i) r); lia.
  - apply map_seq_const. intros i Hi.
    destruct (Z.ltb_spec (Z.of_nat i) r); lia.
Qed.

Lemma sumZ_app (l1 l2 : list Z) : sumZ (l1 ++ l2) = sumZ l1 + sumZ l2.
Proof. induction l1 as [|a l1 IH]; simpl; [reflexivity|]. rewrite IH. lia. Qed.

Lemma sumZ_repeat (v : Z) (n : nat) : sumZ (repeat v n) = Z.of_nat n * v.
Proof.
  induction n as [|n IH]; [reflexivity|].
  change (sumZ (repeat v (S n))) with (v + sumZ (repeat v n)). lia.
Qed.

(** ** [distribute] *)

(** [distribute] at integer arguments, in closed form. *)
Lemma distribute_int (t p : Z) :
  0 <= t -> 1 <= p ->
  distribute (inject_Z t) (inject_Z p) =
  repeat (t / p + 1) (Z.to_nat (t mod p)) ++
  repeat (t / p) (Z.to_nat (p - t mod p)).
Proof.
  intros Ht Hp. unfold distribute. rewrite !js_floor_inject.
  rewrite (Z.max_r 1 p), (Z.max_r 0 t) by lia.
  pose proof (Z.mod_pos_bound t p ltac:(lia)) as Hm.
  pose proof (Z.div_mod t p ltac:(lia)) as Hdm.
  replace (t - t / p * p) with (t mod p) by lia.
  apply array_from_staircase. lia.
Qed.

Lemma distribute_int_length (t p : Z) :
  0 <= t -> 1 <= p -> len (distribute (inject_Z t) (inject_Z p)) = p.
Proof.
  intros Ht Hp. unfold len, distribute. rewrite array_from_length.
  rewrite !js_floor_inject. lia.
Qed.

Lemma distribute_int_sum (t p : Z) :
  0 <= t -> 1 <= p -> sumZ (distribute (inject_Z t) (inject_Z p)) = t.
Proof.
  intros Ht Hp. rewrite distribute_int by assumption.
  rewrite sumZ_app, !sumZ_repeat.
  pose proof (Z.mod_pos_bound t p ltac:(lia)) as Hm.
  pose proof (Z.div_mod t p ltac:(lia)) as Hdm.
  rewrite !Z2Nat.id by lia. nia.
Qed.

(** Every share is at least [t / p]. *)
Lemma distribute_int_lower (t p : Z) :
  0 <= t -> 1 <= p ->
  Forall (fun v => t / p <= v) (distribute (inject_Z t) (inject_Z p)).
Proof.
  intros Ht Hp. rewrite distribute_int by assumption.
  apply Forall_app. split; apply Forall_forall; intros v Hv;
    apply repeat_spec in Hv; lia.
Qed.

(** The total is floored before it is shared out. *)
Lemma distribute_floor_total (total : Q) (p : Z) :
  distribute total (inject_Z p) =
  distribute (inject_Z (js_floor total)) (inject_Z p).
Proof. unfold distribute. now rewrite !js_floor_inject. Qed.

(** C6. For every [total >= 0] and integer [parts >= 1],
    [distribute(total, parts)] has exactly [parts] entries, all of them
    non-negative, which sum to [floor(total)]; each entry is
    [floor(total / parts)] or that plus one, and the larger entries come
    first. *)
Theorem distribute_spec (total : Q) (parts : Z) :
  (0 <= total)%Q -> 1 <= parts ->
  let q := js_floor (total / inject_Z parts) in
  let l := distribute total (inject_Z parts) in
  len l = parts /\
  Forall (fun v => 0 <= v) l /\
  sumZ l = js_floor total /\
  Forall (fun v => v = q \/ v = q + 1) l /\
  exists k, 0 <= k < parts /\
    l = repeat (q + 1) (Z.to_nat k) ++ repeat q (Z.to_nat (parts - k)).
Proof.
  intros Htot Hp q l. subst q l.
  assert (Ht : 0 <= js_floor total) by (apply Qfloor_nonneg; exact Htot).
  replace (js_floor (total / inject_Z parts)) with (js_floor total / parts)
    by (unfold js_floor; now rewrite Qfloor_div_int).
  set (t := js_floor total) in *.
  rewrite distribute_floor_total. fold t.
  pose proof (Z.mod_pos_bound t parts ltac:(lia)) as Hm.
  pose proof (Z.div_pos t parts Ht ltac:(lia)) as Hq.
  split; [now apply distribute_int_length|].
  split.
  { eapply Forall_impl; [|apply distribute_int_lower; assumption].
    simpl. intros v Hv. lia. }
  split; [now apply distribute_int_sum|].
  rewrite distribute_int by assumption.
  split.
  - apply Forall_app. split; apply Forall_forall; intros v Hv;
      apply repeat_spec in Hv; lia.
  - exists (t mod parts). split; [lia | reflexivity].
Qed.

Lemma distribute_spec_witness :
  len (distribute (21 # 2) (inject_Z 4)) = 4 /\
  sumZ (distribute (21 # 2) (inject_Z 4)) = 10 /\
  distribute (21 # 2) (inject_Z 4) = [3; 3; 2; 2].
Proof.
  assert (Htot : (0 <= 21 # 2)%Q) by (unfold Qle; simpl; lia).
  assert (Hp : 1 <= 4) by lia.
  destruct (distribute_spec (21 # 2) 4 Htot Hp) as (Hlen & _ & Hsum & _ & _).
  split; [exact Hlen|]. split; [exact Hsum|]. reflexivity.
Defined.

(** ** [computeRegions] *)

Lemma clamp_bounds (v lo hi : Q) :
  (lo <= hi)%Q -> (lo <= clamp v lo hi <= hi)%Q.
Proof.
  intros H. unfold clamp. split.
  - apply Q.min_glb; [exact H | apply Q.le_max_l].
  - apply Q.le_min_l.
Qed.

(** The doubles of the bounds of the main ratio. *)
Lemma ratio_bounds :
  (499 # 10000 <= fl (5 # 100))%Q /\ (fl (95 # 100) <= 9501 # 10000)%Q /\
  (fl (5 # 100) <= fl (95 # 100))%Q.
Proof. repeat split; vm_compute; discriminate. Qed.

(** The rounded main size of a canvas of at least 64 pixels leaves at least
    three pixels of ring and is at least three pixels itself. *)
Lemma round_main_bounds (size : Z) (s : Q) :
  64 <= size -> (fl (5 # 100) <= s <= fl (95 # 100))%Q ->
  3 <= js_round (fl (inject_Z size * s)) <= size - 3.
Proof.
  intros Hsize [Hlo Hhi]. unfold js_round.
  destruct ratio_bounds as (Blo & Bhi & _).
  assert (Hs : (64 <= inject_Z size)%Q).
  { change 64%Q with (inject_Z 64). now rewrite <- Zle_Qle. }
  assert (H1 : (inject_Z size * (499 # 10000) <= inject_Z size * s)%Q).
  { apply Qmult_le_l; lra. }
  assert (H2 : (inject_Z size * s <= inject_Z size * (9501 # 10000))%Q).
  { apply Qmult_le_l; lra. }
  set (x := (inject_Z size * s)%Q) in *.
  assert (Hx : (0 <= x)%Q) by lra.
  destruct (fl_bounds x Hx) as [Fl Fu].
  assert (Heps : (eps <= 1 # 10000)%Q) by (vm_compute; discriminate).
  assert (Heps0 : (0 <= eps)%Q) by (vm_compute; discriminate).
  assert (Fl' : (x * (9999 # 10000) <= fl x)%Q).
  { eapply Qle_trans; [|exact Fl]. rewrite !(Qmult_comm x).
    apply Qmult_le_compat_r; lra. }
  assert (Fu' : (fl x <= x * (10001 # 10000))%Q).
  { eapply Qle_trans; [exact Fu|]. rewrite !(Qmult_comm x).
    apply Qmult_le_compat_r; lra. }
  set (q := (fl x + (1 # 2))%Q).
  pose proof (Qfloor_le q) as Hfl. pose proof (Qlt_floor q) as Hfu.
  set (m := Qfloor q) in *.
  rewrite inject_Z_plus in Hfu. change (inject_Z 1) with 1%Q in Hfu.
  assert (Ha : (inject_Z 3 < inject_Z (m + 1))%Q).
  { rewrite inject_Z_plus. change (inject_Z 3) with 3%Q.
    change (inject_Z 1) with 1%Q. subst q. lra. }
  assert (Hb : (inject_Z (m + 2) < inject_Z size)%Q).
  { rewrite inject_Z_plus. change (inject_Z 2) with 2%Q. subst q. lra. }
  rewrite <- Zlt_Qlt in Ha, Hb. lia.
Qed.

(** What [computeRegions] returns on a canvas of at least 64 pixels: an
    integer main size and ring thickness with [size = mainSize + 2 ringT],
    and the five rectangles cut out of the canvas accordingly. *)
Lemma computeRegions_shape (size : Z) (mainRatio : Q) :
  64 <= size ->
  exists mainSize ringT : Z,
    2 <= mainSize /\ 2 <= ringT /\ size = mainSize + 2 * ringT /\
    rect_eq (fst (computeRegions size mainRatio))
            (rectZ ringT ringT mainSize mainSize) /\
    map region_name (snd (computeRegions size mainRatio)) =
      [Top; Right; Bottom; Left] /\
    Forall2 rect_eq (map region_rect (snd (computeRegions size mainRatio)))
            (ring_rects size mainSize ringT) /\
    Forall2 (fun r a => (region_area r == inject_Z a)%Q)
            (snd (computeRegions size mainRatio))
            [size * ringT; ringT * mainSize; size * ringT; ringT * mainSize].
Proof.
  intros Hsize. unfold computeRegions.
  pose proof (clamp_bounds mainRatio (fl (5 # 100)) (fl (95 # 100))
                ltac:(apply ratio_bounds)) as Hc.
  pose proof (round_main_bounds size _ Hsize Hc) as Hm.
  set (m0 := js_round (fl (inject_Z size
                           * clamp mainRatio (fl (5 # 100)) (fl (95 # 100)))))
    in *.
  assert (Hcl : clampZ m0 1 size = m0) by (unfold clampZ; lia).
  rewrite Hcl.
  set (m := if negb (Z.rem (size - m0) 2 =? 0) then _ else m0).
  assert (Hmm : (m = m0 \/ m = m0 - 1) /\ exists t, size - m = 2 * t).
  { subst m.
    assert (Hrem : forall a, 0 <= a -> Z.rem a 2 = a mod 2)
      by (intros a Ha; apply Z.rem_mod_nonneg; lia).
    rewrite !Hrem by lia.
    destruct (Z.eqb_spec ((size - m0) mod 2) 0) as [E|E]; cbn [negb andb].
    - split; [now left|]. exists ((size - m0) / 2).
      pose proof (Z.div_mod (size - m0) 2 ltac:(lia)). lia.
    - assert (E1 : (size - (m0 - 1)) mod 2 = 0).
      { pose proof (Z.mod_pos_bound (size - m0) 2 ltac:(lia)).
        replace (size - (m0 - 1)) with ((size - m0) + 1) by lia.
        rewrite Z.add_mod by lia.
        replace ((size - m0) mod 2) with 1 by lia. reflexivity. }
      rewrite E1.
      destruct (Z.leb_spec 1 (m0 - 1)); [|lia]. cbn [negb andb Z.eqb].
      split; [now right|]. exists ((size - (m0 - 1)) / 2).
      pose proof (Z.div_mod (size - (m0 - 1)) 2 ltac:(lia)). lia. }
  destruct Hmm as [Hm' [t Ht]].
  exists m, t.
  assert (HT : (Qmax 0 (inject_Z (size - m) / 2) == inject_Z t)%Q).
  { rewrite Ht. rewrite inject_Z_mult. change (inject_Z 2) with 2%Q.
    rewrite Q.max_r.
    - field.
    - assert (0 <= inject_Z t)%Q
        by (change 0%Q with (inject_Z 0); rewrite <- Zle_Qle; lia).
      apply Qle_shift_div_l; lra. }
  split; [lia|]. split; [lia|]. split; [lia|].
  set (T := Qmax 0 (inject_Z (size - m) / 2)) in *.
  cbn [fst snd map region_name region_rect region_area
       rect_x rect_y rect_width rect_height].
  split; [repeat split; (exact HT || reflexivity)|].
  split; [reflexivity|].
  split.
  - unfold ring_rects.
    repeat (apply Forall2_cons || apply Forall2_nil);
      unfold rect_eq, rectZ; cbn [rect_x rect_y rect_width rect_height];
      rewrite ?inject_Z_plus, ?HT; repeat split; reflexivity.
  - repeat (apply Forall2_cons || apply Forall2_nil);
      cbn [region_area rect_width rect_height];
      rewrite ?inject_Z_mult, ?HT; reflexivity.
Qed.

Lemma rect_eq_integer (r : Rect) (x y w h : Z) :
  0 <= x -> 0 <= y -> 0 <= w -> 0 <= h ->
  rect_eq r (rectZ x y w h) -> integer_rect r.
Proof.
  intros Hx Hy Hw Hh (Ex & Ey & Ew & Eh). unfold integer_rect, is_nonneg_int.
  repeat split; eauto.
Qed.

Lemma Forall2_Forall_l {A B} (R : A -> B -> Prop) (P : A -> Prop)
    (Q : B -> Prop) (l : list A) (l' : list B) :
  (forall a b, R a b -> Q b -> P a) ->
  Forall2 R l l' -> Forall Q l' -> Forall P l.
Proof.
  intros HR H2. induction H2 as [|a b l l' Hab _ IH]; intros HQ.
  - constructor.
  - inversion HQ; subst. constructor; eauto.
Qed.

(** C9. On a canvas of integer side [size >= 64], whatever the main ratio,
    [size - mainSize] is even, the ring thickness is the integer
    [(size - mainSize) / 2], and every coordinate of the main rectangle and
    of the four region rectangles is a non-negative integer. *)
Theorem computeRegions_integer (size : Z) (mainRatio : Q) :
  64 <= size ->
  exists mainSize ringT : Z,
    (rect_width (fst (computeRegions size mainRatio)) == inject_Z mainSize)%Q /\
    (rect_x (fst (computeRegions size mainRatio)) == inject_Z ringT)%Q /\
    Z.rem (size - mainSize) 2 = 0 /\
    ringT = (size - mainSize) / 2 /\
    integer_rect (fst (computeRegions size mainRatio)) /\
    Forall (fun r => integer_rect (region_rect r))
           (snd (computeRegions size mainRatio)).
Proof.
  intros Hsize.
  destruct (computeRegions_shape size mainRatio Hsize)
    as (m & t & Hm & Ht & Hsz & Hmain & _ & Hrects & _).
  exists m, t.
  split; [apply Hmain|]. split; [apply Hmain|].
  replace (size - m) with (t * 2) by lia.
  split; [apply Z.rem_mul; lia|].
  split; [now rewrite Z.div_mul by lia|].
  split; [eapply rect_eq_integer; [..|exact Hmain]; lia|].
  rewrite <- Forall_map with (f := region_rect) (P := integer_rect).
  eapply Forall2_Forall_l with
    (Q := fun b => exists x y w h, 0 <= x /\ 0 <= y /\ 0 <= w /\ 0 <= h /\
                                   b = rectZ x y w h);
    [|exact Hrects|].
  - intros a b Hab (x & y & w & h & Hx & Hy & Hw & Hh & ->).
    eapply rect_eq_integer; [..|exact Hab]; assumption.
  - unfold ring_rects.
    repeat (apply Forall_cons;
            [do 4 eexists; repeat split; lia|]).
    apply Forall_nil.
Qed.

Lemma computeRegions_integer_witness :
  exists mainSize ringT : Z,
    (rect_width (fst (computeRegions 64 (95 # 100))) == inject_Z mainSize)%Q /\
    (rect_x (fst (computeRegions 64 (95 # 100))) == inject_Z ringT)%Q /\
    Z.rem (64 - mainSize) 2 = 0 /\
    ringT = (64 - mainSize) / 2 /\
    integer_rect (fst (computeRegions 64 (95 # 100))) /\
    Forall (fun r => integer_rect (region_rect r))
           (snd (computeRegions 64 (95 # 100))).
Proof. apply (computeRegions_integer 64 (95 # 100)). lia. Defined.

(** ** [allocateCounts] *)

Lemma sum_counts_total (c : Counts) : sum_counts c = counts_total c.
Proof. unfold sum_counts, counts_total. lia. Qed.

Lemma counts_total_set_top (c : Counts) (v : Z) :
  counts_total (set_count c Top v) = counts_total c - count_top c + v.
Proof. unfold counts_total. simpl. lia. Qed.

(** The degenerate case: nothing to place, or no ring to place it in. *)
Lemma allocateCounts_degenerate (total : Q) (regions : list Region) :
  Z.max 0 (js_floor total) = 0 \/ (total_area regions <= 0)%Q ->
  allocateCounts total regions = zero_counts.
Proof.
  intros H. unfold allocateCounts. fold (total_area regions).
  destruct H as [H|H].
  - rewrite H. reflexivity.
  - apply Qle_bool_iff in H. rewrite H. now rewrite orb_true_r.
Qed.

(** The closing correction on [out.top] makes the counts add up to the
    floored total whatever the shares were. *)
Lemma allocateCounts_total (total : Q) (regions : list Region) :
  (0 < total_area regions)%Q ->
  counts_total (allocateCounts total regions) = Z.max 0 (js_floor total).
Proof.
  intros Harea. unfold allocateCounts. fold (total_area regions).
  set (safeTotal := Z.max 0 (js_floor total)).
  destruct (Z.eqb_spec safeTotal 0) as [E|E]; [rewrite E; reflexivity|].
  assert (Hb : Qle_bool (total_area regions) 0 = false).
  { destruct (Qle_bool (total_area regions) 0) eqn:Eb; [|reflexivity].
    apply Qle_bool_iff in Eb. lra. }
  rewrite Hb. cbn [orb]. cbv zeta.
  match goal with
  | |- context [sum_counts ?o] => set (out := o)
  end.
  destruct (Z.eqb_spec (sum_counts out) safeTotal) as [Eu|Eu]; cbn [negb].
  - rewrite <- Eu. symmetry. apply sum_counts_total.
  - rewrite counts_total_set_top. pose proof (sum_counts_total out). lia.
Qed.

(** C2. For every non-negative integer [total] and every list of regions
    with positive combined area, the four counts of [allocateCounts] add up
    to exactly [total]; when [total] is 0 or the combined area is not
    positive, every region gets 0. *)
Theorem allocateCounts_spec (total : Z) (regions : list Region) :
  0 <= total ->
  ((0 < total_area regions)%Q ->
   counts_total (allocateCounts (inject_Z total) regions) = total) /\
  (total = 0 \/ (total_area regions <= 0)%Q ->
   forall k, get_count (allocateCounts (inject_Z total) regions) k = 0).
Proof.
  intros Htotal. split.
  - intros Harea. rewrite allocateCounts_total by exact Harea.
    rewrite js_floor_inject. lia.
  - intros Hdeg k. rewrite allocateCounts_degenerate.
    + now destruct k.
    + rewrite js_floor_inject. destruct Hdeg as [->|H]; [now left|now right].
Qed.

Lemma allocateCounts_spec_witness :
  counts_total
    (allocateCounts (inject_Z 12) (snd (computeRegions 100 (1 # 2)))) = 12.
Proof.
  destruct (allocateCounts_spec 12 (snd (computeRegions 100 (1 # 2))))
    as [H _]; [lia|].
  apply H. vm_compute. reflexivity.
Defined.

(** *** The counts are never negative *)

Lemma insert_by_frac_perm (a : RawShare) (l : list RawShare) :
  Permutation (insert_by_frac a l) (a :: l).
Proof.
  induction l as [|b l IH]; simpl; [reflexivity|].
  destruct (Qle_bool (raw_frac b) (raw_frac a)); [reflexivity|].
  rewrite IH. apply perm_swap.
Qed.

Lemma sort_by_frac_perm (l : list RawShare) : Permutation (sort_by_frac l) l.
Proof.
  induction l as [|a l IH]; simpl; [reflexivity|].
  rewrite insert_by_frac_perm. now constructor.
Qed.

Lemma sumZ_perm (l l' : list Z) : Permutation l l' -> sumZ l = sumZ l'.
Proof.
  induction 1; cbn [sumZ fold_right] in *; try fold (sumZ l) in *;
    try fold (sumZ l') in *; lia.
Qed.

Lemma fold_left_bases (l : list RawShare) (a : Z) :
  fold_left (fun sum r => sum + raw_base r) l a = a + sumZ (map raw_base l).
Proof.
  revert a. induction l as [|r l IH]; intros a; simpl; [lia|].
  rewrite IH. unfold sumZ. lia.
Qed.

Lemma bump_base_sum (l : list RawShare) (i : nat) :
  (i < length l)%nat ->
  sumZ (map raw_base (bump_base l i)) = sumZ (map raw_base l) + 1.
Proof.
  revert i. induction l as [|r l IH]; intros i Hi; [simpl in Hi; lia|].
  destruct i as [|i]; cbn [bump_base map sumZ fold_right raw_base].
  - unfold sumZ. lia.
  - fold (sumZ (map raw_base (bump_base l i))). fold (sumZ (map raw_base l)).
    rewrite IH by (simpl in Hi; lia). lia.
Qed.

Lemma bump_base_length (l : list RawShare) (i : nat) :
  length (bump_base l i) = length l.
Proof.
  revert i. induction l as [|r l IH]; intros [|i]; simpl; auto.
Qed.

Lemma bump_base_nonneg (l : list RawShare) (i : nat) :
  Forall (fun r => 0 <= raw_base r) l ->
  Forall (fun r => 0 <= raw_base r) (bump_base l i).
Proof.
  intros H. revert i. induction H as [|r l Hr Hl IH]; intros [|i]; simpl;
    constructor; auto; simpl; lia.
Qed.

(** Each of the [k] rounds of [award] hands out one unit. *)
Lemma award_sum (k : nat) (i : Z) (raw : list RawShare) :
  0 <= i -> raw <> [] ->
  sumZ (map raw_base (award k i raw)) = sumZ (map raw_base raw) + Z.of_nat k.
Proof.
  revert i raw. induction k as [|k IH]; intros i raw Hi Hraw;
    [simpl; lia|].
  cbn [award].
  assert (Hlen : 0 < len raw).
  { unfold len. destruct raw; [contradiction|simpl; lia]. }
  pose proof (Z.rem_bound_pos i (len raw) Hi Hlen) as Hrem.
  rewrite IH.
  - rewrite bump_base_sum; [lia|]. unfold len in *. lia.
  - lia.
  - intros E. apply (f_equal (@length _)) in E.
    rewrite bump_base_length in E. unfold len in Hlen. simpl in E. lia.
Qed.

Lemma award_nonneg (k : nat) (i : Z) (raw : list RawShare) :
  Forall (fun r => 0 <= raw_base r) raw ->
  Forall (fun r => 0 <= raw_base r) (award k i raw).
Proof.
  revert i raw. induction k as [|k IH]; intros i raw H; [exact H|].
  cbn [award]. apply IH. now apply bump_base_nonneg.
Qed.

Lemma get_set_count (c : Counts) (k k' : RegionName) (v : Z) :
  get_count (set_count c k v) k' = if RegionName_eqb k k' then v else get_count c k'.
Proof. destruct k, k'; reflexivity. Qed.

Lemma fold_counts_nonneg (l : list RawShare) (out : Counts) :
  Forall (fun r => 0 <= raw_base r) l ->
  (forall k, 0 <= get_count out k) ->
  forall k, 0 <= get_count
                   (fold_left (fun out r => set_count out (raw_name r) (raw_base r))
                              l out) k.
Proof.
  intros H. revert out. induction H as [|r l Hr _ IH]; intros out Hout k;
    [apply Hout|].
  cbn [fold_left]. apply IH. intros k'. rewrite get_set_count.
  destruct (RegionName_eqb _ _); [exact Hr | apply Hout].
Qed.

Lemma counts_total_get (c : Counts) :
  counts_total c =
  get_count c Top + get_count c Right + get_count c Bottom + get_count c Left.
Proof. reflexivity. Qed.

(** Writing the shares into the record cannot create units. *)
Lemma fold_counts_total_le (l : list RawShare) (out : Counts) :
  Forall (fun r => 0 <= raw_base r) l ->
  (forall k, 0 <= get_count out k) ->
  counts_total
    (fold_left (fun out r => set_count out (raw_name r) (raw_base r)) l out)
  <= counts_total out + sumZ (map raw_base l).
Proof.
  intros H. revert out. induction H as [|r l Hr _ IH]; intros out Hout;
    [simpl; lia|].
  cbn [fold_left map sumZ fold_right]. fold (sumZ (map raw_base l)).
  etransitivity; [apply IH|].
  - intros k'. rewrite get_set_count.
    destruct (RegionName_eqb _ _); [exact Hr | apply Hout].
  - pose proof (Hout Top). pose proof (Hout Right).
    pose proof (Hout Bottom). pose proof (Hout Left).
    rewrite !counts_total_get, !get_set_count.
    destruct (raw_name r); cbn [RegionName_eqb get_count] in *; lia.
Qed.

Lemma share_nonneg (a A : Q) (T : Z) :
  (0 <= a)%Q -> (0 < A)%Q -> 0 <= T -> (0 <= a / A * inject_Z T)%Q.
Proof.
  intros Ha HA HT. apply Qmult_le_0_compat.
  - apply Qle_shift_div_l; [exact HA | lra].
  - change 0%Q with (inject_Z 0). now rewrite <- Zle_Qle.
Qed.

(** The floored shares of the regions met so far do not exceed their part
    of the total. *)
Lemma floor_shares_le (A : Q) (T : Z) (l : list Region) (acc : Q) :
  (0 < A)%Q -> 0 <= T ->
  (inject_Z (sumZ (map (fun r => js_floor (region_area r / A * inject_Z T)) l))
     * A
   <= (fold_left (fun sum r => sum + region_area r) l acc - acc)
      * inject_Z T)%Q.
Proof.
  intros HA HT. revert acc. induction l as [|r l IH]; intros acc.
  - cbn [map sumZ fold_right fold_left]. change (inject_Z 0) with 0%Q.
    apply Qle_lteq. right. ring.
  - cbn [map sumZ fold_right fold_left].
    fold (sumZ (map (fun r => js_floor (region_area r / A * inject_Z T)) l)).
    specialize (IH (acc + region_area r)%Q).
    set (e := (region_area r / A * inject_Z T)%Q).
    pose proof (Qfloor_le e) as Hfl. fold (js_floor e) in Hfl.
    assert (He : (e * A == region_area r * inject_Z T)%Q)
      by (unfold e; field; lra).
    assert (Hfl' : (inject_Z (js_floor e) * A <= e * A)%Q)
      by (apply Qmult_le_compat_r; lra).
    rewrite inject_Z_plus.
    set (F := fold_left _ l _) in *. set (S := inject_Z (sumZ _)) in *.
    lra.
Qed.

Lemma total_area_nonempty (regions : list Region) :
  (0 < total_area regions)%Q -> regions <> [].
Proof. intros H ->. unfold total_area in H. simpl in H. lra. Qed.

(** With regions of non-negative area, every count that [allocateCounts]
    returns is non-negative. *)
Lemma allocateCounts_nonneg (total : Q) (regions : list Region) :
  Forall (fun r => (0 <= region_area r)%Q) regions ->
  (0 < total_area regions)%Q ->
  forall k, 0 <= get_count (allocateCounts total regions) k.
Proof.
  intros Hareas HA. unfold allocateCounts. fold (total_area regions).
  set (T := Z.max 0 (js_floor total)).
  destruct (Z.eqb_spec T 0) as [E|E]; [intros k; now destruct k|].
  assert (HT : 1 <= T) by (unfold T in *; lia).
  destruct (Qle_bool (total_area regions) 0) eqn:Eb;
    [intros k; now destruct k|].
  cbn [orb]. cbv zeta.
  set (raw0 := map _ regions).
  assert (Hbases : map raw_base raw0 =
                   map (fun r => js_floor (region_area r / total_area regions
                                           * inject_Z T)) regions).
  { unfold raw0. rewrite map_map. reflexivity. }
  assert (Hnn0 : Forall (fun r => 0 <= raw_base r) raw0).
  { unfold raw0. apply Forall_map. eapply Forall_impl; [|exact Hareas].
    intros r Hr. cbn [raw_base]. apply Qfloor_nonneg.
    apply share_nonneg; [exact Hr | exact HA | lia]. }
  assert (Hused : sumZ (map raw_base raw0) <= T).
  { pose proof (floor_shares_le (total_area regions) T regions 0 HA
                  ltac:(lia)) as Hle.
    fold (total_area regions) in Hle. rewrite <- Hbases in Hle.
    rewrite Zle_Qle. apply (Qmult_le_r _ _ (total_area regions) HA).
    eapply Qle_trans; [exact Hle|]. apply Qle_lteq. right. ring. }
  rewrite fold_left_bases, Z.add_0_l.
  set (raw1 := award _ 0 (sort_by_frac raw0)).
  assert (Hnn1 : Forall (fun r => 0 <= raw_base r) raw1).
  { apply award_nonneg.
    eapply Permutation_Forall; [|exact Hnn0].
    symmetry. apply sort_by_frac_perm. }
  assert (Hsum1 : sumZ (map raw_base raw1) = T).
  { unfold raw1. rewrite award_sum.
    - rewrite (sumZ_perm _ (map raw_base raw0))
        by (apply Permutation_map, sort_by_frac_perm).
      lia.
    - lia.
    - intros Es. pose proof (sort_by_frac_perm raw0) as Hp.
      rewrite Es in Hp. apply Permutation_nil in Hp.
      unfold raw0 in Hp. apply map_eq_nil in Hp.
      now apply total_area_nonempty in HA. }
  set (out := fold_left _ raw1 zero_counts).
  assert (Hout : forall k, 0 <= get_count out k).
  { apply fold_counts_nonneg; [exact Hnn1|]. intros k. now destruct k. }
  assert (Hle : counts_total out <= T).
  { pose proof (fold_counts_total_le raw1 zero_counts Hnn1
                  ltac:(intros k; now destruct k)) as H.
    fold out in H. rewrite Hsum1 in H. exact H. }
  pose proof (sum_counts_total out) as Hsc.
  destruct (Z.eqb_spec (sum_counts out) T) as [Eu|Eu]; cbn [negb];
    [exact Hout|].
  intros k. rewrite get_set_count.
  destruct k; cbn [RegionName_eqb]; try apply Hout.
  pose proof (Hout Top) as H0. cbn [get_count] in H0. lia.
Qed.

(** ** [computeBestRowsNoWaste] *)

Lemma Qltb_lt (a b : Q) : Qltb a b = true <-> (a < b)%Q.
Proof.
  unfold Qltb. rewrite negb_true_iff. split.
  - intros H. apply Qnot_le_lt. intros Hle.
    apply Qle_bool_iff in Hle. congruence.
  - intros H. destruct (Qle_bool b a) eqn:E; [|reflexivity].
    apply Qle_bool_iff in E. lra.
Qed.

Lemma Qltb_ge (a b : Q) : Qltb a b = false <-> (b <= a)%Q.
Proof.
  unfold Qltb. rewrite negb_false_iff. apply Qle_bool_iff.
Qed.

Lemma rowCount_bounds (n rows r : Z) :
  1 <= rows <= n -> 1 <= rowCount n rows r <= n / rows + 1.
Proof.
  intros H. unfold rowCount.
  assert (1 <= n / rows) by (apply Z.div_le_lower_bound; lia).
  destruct (r <? n - n / rows * rows); lia.
Qed.

Section Rows.

Variable ln : Q -> Q.
Variables n width height gap : Z.
Hypothesis Hgap : 0 <= gap.

Local Abbreviation feasible := (feasible n width height gap).
Local Abbreviation computedScore := (computedScore ln n width height gap).
Local Abbreviation best_below := (best_below ln n width height gap).
Local Abbreviation best_of_all := (best_of_all ln n width height gap).

(** The inner loop adds up the penalties of the rows, and gives up at the
    first row whose cells would be narrower than a pixel. *)
Lemma scoreRows_fits (rows : Z) (k r0 : nat) (rowHeight acc s : Q) :
  scoreRows ln k (Z.of_nat r0) (n / rows) (n - n / rows * rows) width gap
            rowHeight acc
    = Some s ->
  forall i, (r0 <= i < r0 + k)%nat ->
    rowCount n rows (Z.of_nat i)
      <= width - gap * (rowCount n rows (Z.of_nat i) - 1).
Proof.
  revert r0 acc. induction k as [|k IH]; intros r0 acc Hs i Hi; [lia|].
  cbn [scoreRows] in Hs. fold (rowCount n rows (Z.of_nat r0)) in Hs.
  destruct (Z.ltb_spec (width - gap * (rowCount n rows (Z.of_nat r0) - 1))
                       (rowCount n rows (Z.of_nat r0))) as [Hlt|Hge];
    [discriminate|].
  destruct (Nat.eq_dec i r0) as [->|Hne]; [exact Hge|].
  replace (Z.of_nat r0 + 1) with (Z.of_nat (S r0)) in Hs by lia.
  eapply IH; [exact Hs | lia].
Qed.

Lemma scoreRows_sum (rows : Z) (k r0 : nat) (acc : Q) :
  ~ (fl (inject_Z (height - gap * (rows - 1)) / inject_Z rows) == 0)%Q ->
  (forall i, (r0 <= i < r0 + k)%nat ->
     rowCount n rows (Z.of_nat i)
       <= width - gap * (rowCount n rows (Z.of_nat i) - 1)) ->
  scoreRows ln k (Z.of_nat r0) (n / rows) (n - n / rows * rows) width gap
            (fl (inject_Z (height - gap * (rows - 1)) / inject_Z rows)) acc
    = Some (fold_left
              (fun score r =>
                 fl (score + computedPenalty ln n width height gap rows
                                             (Z.of_nat r)))
              (seq r0 k) acc).
Proof.
  intros Hh. revert r0 acc. induction k as [|k IH]; intros r0 acc Hfit;
    [reflexivity|].
  cbn [scoreRows seq fold_left]. fold (rowCount n rows (Z.of_nat r0)).
  pose proof (Hfit r0 ltac:(lia)) as Hr0.
  destruct (Z.ltb_spec (width - gap * (rowCount n rows (Z.of_nat r0) - 1))
                       (rowCount n rows (Z.of_nat r0))) as [Hlt|Hge]; [lia|].
  destruct (Qeq_bool _ 0) eqn:E.
  { apply Qeq_bool_iff in E. contradiction. }
  replace (Z.of_nat r0 + 1) with (Z.of_nat (S r0)) by lia.
  rewrite IH by (intros i Hi; apply Hfit; lia).
  reflexivity.
Qed.

(** A row at least one pixel high. *)
Lemma rowHeight_nonzero (rows : Z) :
  1 <= rows -> rows <= height - gap * (rows - 1) ->
  ~ (fl (inject_Z (height - gap * (rows - 1)) / inject_Z rows) == 0)%Q.
Proof.
  intros Hrows Hh Hz.
  assert (H1 : (0 < inject_Z rows)%Q) by (apply inject_Z_pos; lia).
  assert (H2 : (0 < inject_Z (height - gap * (rows - 1)))%Q)
    by (apply inject_Z_pos; lia).
  assert (H3 : (0 < inject_Z (height - gap * (rows - 1)) / inject_Z rows)%Q).
  { apply Qlt_shift_div_l; [exact H1|]. lra. }
  apply fl_pos in H3. lra.
Qed.

Lemma best_below_all (bestRows : option Z) (bestScore : option Q) (lim : Z) :
  (forall c, lim <= c -> ~ feasible c) ->
  best_below lim bestRows bestScore -> best_of_all bestRows.
Proof.
  intros Hrest. unfold best_below, best_of_all.
  destruct bestRows as [b|], bestScore as [s|]; try contradiction.
  - intros (-> & Hb & _ & Hmin). split; [exact Hb|].
    intros c Hc. apply Hmin; [exact Hc|].
    destruct (Z.lt_ge_cases c lim) as [H|H]; [exact H|].
    exfalso. exact (Hrest c H Hc).
  - intros Hnone c Hc.
    destruct (Z.lt_ge_cases c lim) as [H|H];
      [exact (Hnone c H Hc) | exact (Hrest c H Hc)].
Qed.

(** Once a candidate leaves rows lower than a pixel, so does every larger
    one: the [break] of the search skips nothing feasible. *)
Lemma too_low_onwards (rows c : Z) :
  1 <= rows -> height - gap * (rows - 1) < rows -> rows <= c -> ~ feasible c.
Proof.
  intros Hrows Hlow Hc (_ & Hh & _). nia.
Qed.

Lemma searchRows_best (k : nat) (rows : Z) (bestRows : option Z)
    (bestScore : option Q) :
  1 <= rows -> rows + Z.of_nat k = Z.min n height + 1 ->
  best_below rows bestRows bestScore ->
  best_of_all (searchRows ln k rows n width height gap bestRows bestScore).
Proof.
  revert rows bestRows bestScore.
  induction k as [|k IH]; intros rows bestRows bestScore Hrows Hk Hinv.
  - cbn [searchRows]. eapply best_below_all; [|exact Hinv].
    intros c Hc (Hrange & _). lia.
  - cbn [searchRows].
    destruct (Z.ltb_spec (height - gap * (rows - 1)) rows) as [Hlow|Hhigh].
    { eapply best_below_all; [|exact Hinv].
      intros c Hc. now apply too_low_onwards with rows. }
    destruct (Z.leb_spec (n / rows) 0) as [Hbase|Hbase].
    { exfalso.
      assert (1 <= n / rows) by (apply Z.div_le_lower_bound; lia). lia. }
    destruct (scoreRows _ _ _ _ _ _ _ _ _) as [score|] eqn:Escore.
    + (* the candidate is feasible *)
      pose proof (scoreRows_fits rows (Z.to_nat rows) 0 _ 0%Q score Escore)
        as Hfit.
      assert (Hfeas : feasible rows).
      { split; [lia|]. split; [lia|]. intros r Hr.
        specialize (Hfit (Z.to_nat r) ltac:(lia)).
        now rewrite Z2Nat.id in Hfit by lia. }
      assert (Hscore : score = computedScore rows).
      { change (Z.of_nat 0) with 0 in *.
        pose proof (scoreRows_sum rows (Z.to_nat rows) 0 0%Q
                      (rowHeight_nonzero rows Hrows Hhigh) Hfit) as Hsum.
        change (Z.of_nat 0) with 0 in Hsum.
        rewrite Escore in Hsum. now injection Hsum. }
      destruct (score_lt score bestScore) eqn:Elt.
      * apply IH; [lia | lia |].
        cbn [best_below]. split; [exact Hscore|]. split; [exact Hfeas|].
        split; [lia|]. intros c Hc Hlim.
        destruct (Z.eq_dec c rows) as [->|Hne].
        { rewrite Hscore. split; [apply Qle_refl | lia]. }
        unfold best_below in Hinv.
        destruct bestRows as [b|], bestScore as [s|]; try contradiction.
        -- destruct Hinv as (_ & _ & _ & Hmin).
           destruct (Hmin c Hc ltac:(lia)) as [Hle _].
           cbn [score_lt] in Elt. apply Qltb_lt in Elt.
           split; [|intros _]; lra.
        -- exfalso. apply (Hinv c); [lia | exact Hc].
      * apply IH; [lia | lia |].
        unfold best_below in *.
        destruct bestRows as [b|], bestScore as [s|]; try contradiction;
          cbn [score_lt] in Elt; [|discriminate].
        apply Qltb_ge in Elt.
        destruct Hinv as (Hs & Hb & Hlim & Hmin).
        split; [exact Hs|]. split; [exact Hb|]. split; [lia|].
        intros c Hc Hc'.
        destruct (Z.eq_dec c rows) as [->|Hne].
        { rewrite <- Hscore. split; [exact Elt | lia]. }
        apply Hmin; [exact Hc | lia].
    + (* some row of the candidate is too narrow *)
      apply IH; [lia | lia |].
      assert (Hnot : ~ feasible rows).
      { intros (_ & _ & Hw).
        pose proof (scoreRows_sum rows (Z.to_nat rows) 0 0%Q
                      (rowHeight_nonzero rows Hrows Hhigh)) as Hsum.
        change (Z.of_nat 0) with 0 in Hsum.
        rewrite Hsum in Escore; [discriminate|].
        intros i Hi. apply Hw. lia. }
      unfold best_below in *.
      destruct bestRows as [b|], bestScore as [s|]; try contradiction.
      * destruct Hinv as (Hs & Hb & Hlim & Hmin).
        split; [exact Hs|]. split; [exact Hb|]. split; [lia|].
        intros c Hc Hc'.
        destruct (Z.eq_dec c rows) as [->|Hne]; [contradiction|].
        apply Hmin; [exact Hc | lia].
      * intros c Hc Hf.
        destruct (Z.eq_dec c rows) as [->|Hne]; [contradiction|].
        apply (Hinv c); [lia | exact Hf].
Qed.

End Rows.

(** The search started by [computeBestRowsNoWaste] at integer arguments. *)
Lemma computeBestRowsNoWaste_best (ln : Q -> Q) (n width height gap : Z) :
  1 <= n -> 1 <= width -> 1 <= height -> 0 <= gap ->
  best_of_all ln n width height gap
    (computeBestRowsNoWaste ln (inject_Z n) (inject_Z width)
                            (inject_Z height) (inject_Z gap)).
Proof.
  intros Hn Hw Hh Hg. unfold computeBestRowsNoWaste.
  rewrite !js_floor_inject.
  rewrite (Z.max_r 0 n), (Z.max_r 0 width), (Z.max_r 0 height),
    (Z.max_r 0 gap) by lia.
  destruct (Z.eqb_spec n 0); [lia|].
  destruct (Z.eqb_spec width 0); [lia|].
  destruct (Z.eqb_spec height 0); [lia|].
  cbn [orb].
  apply (searchRows_best ln n width height gap Hg); [lia | lia |].
  intros c Hc (Hrange & _). lia.
Qed.

(** C5, as the code has it.  For a count [n >= 1], integer
    [width, height >= 1] and [gap >= 0], the row count that
    [computeBestRowsNoWaste] returns is a candidate of [1..min(n, height)]
    that passes the feasibility checks; its score as the code computes it
    in doubles is the least among the feasible candidates, and every
    smaller feasible candidate has a strictly larger computed score (among
    equal computed scores the smallest row count wins); it returns [null]
    only if no candidate is feasible. *)
Theorem computeBestRowsNoWaste_spec (ln : Q -> Q) (n width height gap : Z) :
  1 <= n -> 1 <= width -> 1 <= height -> 0 <= gap ->
  match computeBestRowsNoWaste ln (inject_Z n) (inject_Z width)
                               (inject_Z height) (inject_Z gap) with
  | Some rows =>
      feasible n width height gap rows /\
      forall c, feasible n width height gap c ->
        (computedScore ln n width height gap rows
           <= computedScore ln n width height gap c)%Q /\
        (c < rows ->
         (computedScore ln n width height gap rows
            < computedScore ln n width height gap c)%Q)
  | None => forall c, ~ feasible n width height gap c
  end.
Proof.
  intros Hn Hw Hh Hg.
  exact (computeBestRowsNoWaste_best ln n width height gap Hn Hw Hh Hg).
Qed.

Lemma computeBestRowsNoWaste_spec_witness :
  computeBestRowsNoWaste ln_table (inject_Z 6) (inject_Z 64)
                         (inject_Z 64) (inject_Z 0) = Some 3 /\
  (computedScore ln_table 6 64 64 0 3 < computedScore ln_table 6 64 64 0 2)%Q.
Proof.
  pose proof (computeBestRowsNoWaste_spec ln_table 6 64 64 0
                ltac:(lia) ltac:(lia) ltac:(lia) ltac:(lia)) as H.
  assert (E : computeBestRowsNoWaste ln_table (inject_Z 6) (inject_Z 64)
                (inject_Z 64) (inject_Z 0) = Some 3)
    by (vm_compute; reflexivity).
  rewrite E in H. split; [exact E|].
  apply H; [|lia].
  split; [lia|]. split; [lia|]. intros r Hr. unfold rowCount.
  destruct (r <? 6 - 6 / 2 * 2); cbn; lia.
Defined.

(** C5, as stated, fails.  Six cells in 64 by 64 pixels without a gap: two
    rows of three cells and three rows of two have the aspects [2/3] and
    [3/2], so that their scores, [6 |log(2/3)|] and [6 |log(3/2)|], are
    equal, and the claim chooses two rows.  The code computes
    [2.4327906486489868] for two rows and [2.4327906486489863] for three,
    and returns three. *)
Lemma computeBestRowsNoWaste_counterexample :
  computeBestRowsNoWaste ln_table 6 64 64 0 = Some 3 /\
  feasible 6 64 64 0 2 /\
  (computedScore ln_table 6 64 64 0 2
   == 2739078764681501 # 1125899906842624)%Q /\
  (computedScore ln_table 6 64 64 0 3
   == 5478157529363001 # 2251799813685248)%Q /\
  forall L : Q -> Q,
    (forall a b, (a == b)%Q -> (L a == L b)%Q) ->
    (Qabs (L (2 # 3)) == Qabs (L (3 # 2)))%Q ->
    (squareness L 6 64 64 0 2 == squareness L 6 64 64 0 3)%Q.
Proof.
  split; [vm_compute; reflexivity|]. split.
  { split; [lia|]. split; [lia|]. intros r Hr. unfold rowCount.
    destruct (r <? 6 - 6 / 2 * 2); cbn; lia. }
  split; [vm_compute; reflexivity|]. split; [vm_compute; reflexivity|].
  intros L Hcomp HL.
  assert (E2 : forall r, (0 <= r < 2)%Z ->
            (rowPenalty L 6 64 64 0 2 r == Qabs (L (2 # 3)) * 3)%Q).
  { intros r Hr. unfold rowPenalty, rowCount.
    assert (r = 0 \/ r = 1) as [-> | ->] by lia; cbn [Z.ltb Z.compare];
      (apply Qmult_comp; [|reflexivity]);
      apply Qabs_wd, Hcomp; reflexivity. }
  assert (E3 : forall r, (0 <= r < 3)%Z ->
            (rowPenalty L 6 64 64 0 3 r == Qabs (L (3 # 2)) * 2)%Q).
  { intros r Hr. unfold rowPenalty, rowCount.
    assert (r = 0 \/ r = 1 \/ r = 2) as [-> | [-> | ->]] by lia;
      cbn [Z.ltb Z.compare];
      (apply Qmult_comp; [|reflexivity]);
      apply Qabs_wd, Hcomp; reflexivity. }
  unfold squareness.
  change (seq 0 (Z.to_nat 2)) with [0; 1]%nat.
  change (seq 0 (Z.to_nat 3)) with [0; 1; 2]%nat.
  cbn [fold_left].
  change (Z.of_nat 0) with 0. change (Z.of_nat 1) with 1.
  change (Z.of_nat 2) with 2.
  rewrite !E2, !E3 by lia. rewrite HL. ring.
Qed.

(** ** [tryBuildCellsFilled] *)

Lemma len_app {A} (l1 l2 : list A) : len (l1 ++ l2) = len l1 + len l2.
Proof. unfold len. rewrite length_app. lia. Qed.

Lemma row_cells_length (x y h gap : Z) (ws : list Z) :
  length (row_cells x y h gap ws) = length ws.
Proof.
  revert x. induction ws as [|w ws IH]; intros x; simpl; [reflexivity|].
  now rewrite IH.
Qed.

(** The column loop writes one row of the grid, from where [x] stands. *)
Lemma pushRow_row (y h gap n : Z) (ws pre : list Z) (x : Z) (cells : list Rect) :
  len cells + len ws <= n ->
  pushRow (length ws) (length pre) (pre ++ ws) x y h gap n cells =
  cells ++ row_cells x y h gap ws.
Proof.
  revert pre x cells.
  induction ws as [|w ws IH]; intros pre x cells Hn.
  - simpl. now rewrite app_nil_r.
  - cbn [length pushRow row_cells].
    rewrite nth_middle.
    destruct (Z.eqb_spec (len (cells ++ [rectZ x y w h])) n) as [E|E].
    + rewrite len_app in E. unfold len in *. cbn [length] in *.
      destruct ws; [|cbn [length] in Hn; lia]. reflexivity.
    + replace (pre ++ w :: ws) with ((pre ++ [w]) ++ ws)
        by (now rewrite <- app_assoc).
      replace (S (length pre)) with (length (pre ++ [w]))
        by (rewrite length_app; simpl; lia).
      rewrite IH.
      * now rewrite <- app_assoc.
      * rewrite len_app. unfold len in *. cbn [length] in *. lia.
Qed.

Lemma grid_cells_length (x0 y gap : Z) (rows : list (Z * list Z)) :
  len (grid_cells x0 y gap rows) = sumZ (map (fun r => len (snd r)) rows).
Proof.
  revert y. induction rows as [|[h ws] rows IH]; intros y; [reflexivity|].
  cbn [grid_cells map sumZ fold_right snd]. rewrite len_app, IH.
  unfold len at 1. now rewrite row_cells_length.
Qed.

(** The row loop writes the rows of the grid, from where [y] stands. *)
Lemma pushRows_grid (x0 width gap n : Z) (rcs rhs prc prh : list Z) (y : Z)
    (cells : list Rect) :
  length rhs = length rcs -> length prh = length prc ->
  Forall (fun rc => 1 <= rc <= width - gap * (rc - 1)) rcs ->
  len cells + sumZ rcs <= n ->
  pushRows (length rcs) (length prc) (prc ++ rcs) (prh ++ rhs)
           x0 y width gap n cells =
  Some (cells ++
        grid_cells x0 y gap
          (combine rhs (map (row_widths width gap) rcs))).
Proof.
  revert rhs prc prh y cells.
  induction rcs as [|rc rcs IH]; intros rhs prc prh y cells Hlen Hpre Hfit Hn.
  - destruct rhs; [|discriminate]. simpl. now rewrite app_nil_r.
  - destruct rhs as [|rh rhs]; [discriminate|].
    inversion Hfit as [|? ? [Hrc1 Hrc2] Hfit']; subst.
    cbn [length pushRows].
    assert (Hnh : nth (length prc) (prh ++ rh :: rhs) 0 = rh)
      by (rewrite <- Hpre; apply nth_middle).
    rewrite !Hnh, !nth_middle. clear Hnh.
    destruct (Z.ltb_spec (width - gap * (rc - 1)) rc) as [Hlt|_]; [lia|].
    fold (row_widths width gap rc).
    assert (Hwl : len (row_widths width gap rc) = rc)
      by (apply distribute_int_length; lia).
    cbn [sumZ fold_right] in Hn. fold (sumZ rcs) in Hn.
    assert (Hsum : 0 <= sumZ rcs).
    { clear -Hfit'. induction Hfit' as [|a l Ha _ IHl]; [simpl; lia|].
      cbn [sumZ fold_right]. fold (sumZ l). lia. }
    replace (Z.to_nat rc) with (length (row_widths width gap rc))
      by (unfold len in Hwl; lia).
    pose proof (pushRow_row y rh gap n (row_widths width gap rc) [] x0 cells)
      as Hpush.
    cbn [app length] in Hpush. rewrite !Hpush by lia. clear Hpush.
    cbn [map combine grid_cells].
    set (row := row_cells x0 y rh gap (row_widths width gap rc)).
    assert (Hrow : len row = rc).
    { unfold len, row. rewrite row_cells_length. exact Hwl. }
    destruct (Z.eqb_spec (len (cells ++ row)) n) as [E|E].
    + rewrite len_app in E.
      destruct rcs as [|rc' rcs].
      * destruct rhs; [|discriminate].
        cbn [map combine grid_cells]. now rewrite (app_nil_r row).
      * exfalso. pose proof (Forall_inv Hfit') as [H1 _].
        pose proof (Forall_inv_tail Hfit') as Hf.
        assert (0 <= sumZ rcs).
        { clear -Hf. induction Hf as [|a l Ha _ IHl]; [simpl; lia|].
          cbn [sumZ fold_right]. fold (sumZ l). lia. }
        cbn [sumZ fold_right] in Hn. fold (sumZ rcs) in Hn. lia.
    + replace (prc ++ rc :: rcs) with ((prc ++ [rc]) ++ rcs)
        by (now rewrite <- app_assoc).
      replace (prh ++ rh :: rhs) with ((prh ++ [rh]) ++ rhs)
        by (now rewrite <- app_assoc).
      replace (S (length prc)) with (length (prc ++ [rc]))
        by (rewrite length_app; simpl; lia).
      rewrite IH.
      * now rewrite <- app_assoc.
      * simpl in Hlen. lia.
      * rewrite !length_app. simpl. lia.
      * exact Hfit'.
      * rewrite len_app. lia.
Qed.

(** The row counts are the shares of [n] among the rows. *)
Lemma rowCounts_distribute (n rows : Z) :
  0 <= n -> 1 <= rows ->
  array_from rows (rowCount n rows) = distribute (inject_Z n) (inject_Z rows).
Proof.
  intros Hn Hrows. unfold distribute, rowCount.
  rewrite !js_floor_inject, (Z.max_r 1 rows), (Z.max_r 0 n) by lia.
  reflexivity.
Qed.

Lemma rowCounts_nth (n rows r : Z) :
  0 <= r < rows ->
  nth (Z.to_nat r) (array_from rows (rowCount n rows)) 0 = rowCount n rows r.
Proof.
  intros Hr. rewrite array_from_nth by lia. now rewrite Z2Nat.id by lia.
Qed.

Lemma rowCounts_fit (n width height gap rows : Z) :
  feasible n width height gap rows ->
  Forall (fun rc => 1 <= rc <= width - gap * (rc - 1))
         (array_from rows (rowCount n rows)).
Proof.
  intros (Hrange & _ & Hw). apply Forall_forall. intros rc Hin.
  apply (In_nth _ _ 0) in Hin. destruct Hin as (i & Hi & <-).
  rewrite array_from_length in Hi.
  rewrite array_from_nth by exact Hi.
  split.
  - apply rowCount_bounds. lia.
  - apply Hw. lia.
Qed.

Lemma map_snd_combine {A B} (l1 : list A) (l2 : list B) :
  length l1 = length l2 -> map snd (combine l1 l2) = l2.
Proof.
  revert l2. induction l1 as [|a l1 IH]; intros [|b l2] H;
    try discriminate; [reflexivity|].
  simpl. f_equal. apply IH. simpl in H. lia.
Qed.

Lemma sumZ_row_widths (width gap : Z) (rcs : list Z) :
  Forall (fun rc => 1 <= rc <= width - gap * (rc - 1)) rcs ->
  sumZ (map (fun ws => len ws) (map (row_widths width gap) rcs)) = sumZ rcs.
Proof.
  induction 1 as [|rc rcs [H1 H2] _ IH]; [reflexivity|].
  cbn [map sumZ fold_right]. fold (sumZ rcs).
  fold (sumZ (map (fun ws => len ws) (map (row_widths width gap) rcs))).
  rewrite IH. unfold row_widths. rewrite distribute_int_length by lia.
  reflexivity.
Qed.

(** A grid for a feasible row count has exactly [n] cells. *)
Lemma grid_rows_count (n width height gap rows x0 y0 : Z) :
  0 <= gap -> feasible n width height gap rows ->
  len (grid_cells x0 y0 gap (grid_rows n width height gap rows)) = n.
Proof.
  intros Hg Hf. pose proof (rowCounts_fit _ _ _ _ _ Hf) as Hfit.
  destruct Hf as (Hrange & Hh & _).
  rewrite grid_cells_length. unfold grid_rows.
  rewrite <- (map_map snd (fun ws => len ws)).
  rewrite map_snd_combine.
  - rewrite sumZ_row_widths by exact Hfit.
    rewrite rowCounts_distribute by lia.
    apply distribute_int_sum; lia.
  - rewrite length_map, array_from_length.
    pose proof (distribute_int_length (height - gap * (rows - 1)) rows
                  ltac:(lia) ltac:(lia)) as Hl.
    unfold len in Hl. lia.
Qed.

Section TryBuild.

Variable ln : Q -> Q.

(** With a rectangle of at least one pixel each way, the packer lays out
    the grid of the best row count, and fails only if no row count is
    feasible. *)
Lemma tryBuildCellsFilled_grid (rect : Rect) (n g : Z) :
  1 <= n -> 0 <= g ->
  1 <= js_round (rect_width rect) -> 1 <= js_round (rect_height rect) ->
  tryBuildCellsFilled ln rect (inject_Z n) (inject_Z g) =
  match computeBestRowsNoWaste ln (inject_Z n)
          (inject_Z (js_round (rect_width rect)))
          (inject_Z (js_round (rect_height rect))) (inject_Z g) with
  | Some rows =>
      Some (grid_cells (js_round (rect_x rect)) (js_round (rect_y rect)) g
              (grid_rows n (js_round (rect_width rect))
                         (js_round (rect_height rect)) g rows))
  | None => None
  end.
Proof.
  intros Hn Hg HW HH. unfold tryBuildCellsFilled.
  rewrite !js_floor_inject, (Z.max_r 0 n), (Z.max_r 0 g) by lia.
  set (W := js_round (rect_width rect)) in *.
  set (H := js_round (rect_height rect)) in *.
  destruct (Z.eqb_spec n 0); [lia|].
  destruct (Z.leb_spec W 0); [lia|]. destruct (Z.leb_spec H 0); [lia|].
  cbn [orb].
  pose proof (computeBestRowsNoWaste_best ln n W H g Hn HW HH Hg) as Hbest.
  destruct (computeBestRowsNoWaste ln _ _ _ _) as [rows|]; [|reflexivity].
  destruct Hbest as [Hf _].
  pose proof (rowCounts_fit _ _ _ _ _ Hf) as Hfit.
  pose proof (grid_rows_count n W H g rows (js_round (rect_x rect))
                (js_round (rect_y rect)) Hg Hf) as Hcount.
  destruct Hf as (Hrange & Hh & Hw).
  destruct (Z.leb_spec rows 0); [lia|].
  destruct (Z.leb_spec (n / rows) 0) as [Hb|_].
  { assert (1 <= n / rows) by (apply Z.div_le_lower_bound; lia). lia. }
  destruct (Z.ltb_spec (H - g * (rows - 1)) rows); [lia|].
  fold (rowCount n rows). change (fun r => rowCount n rows r) with (rowCount n rows).
  set (rcs := array_from rows (rowCount n rows)) in *.
  set (rhs := distribute (inject_Z (H - g * (rows - 1))) (inject_Z rows)).
  assert (Hlen : length rhs = length rcs).
  { unfold rcs. rewrite array_from_length.
    pose proof (distribute_int_length (H - g * (rows - 1)) rows
                  ltac:(lia) ltac:(lia)) as Hl.
    unfold len in Hl. fold rhs in Hl. lia. }
  replace (Z.to_nat rows) with (length rcs)
    by (unfold rcs; now rewrite array_from_length).
  rewrite (pushRows_grid _ W g n rcs rhs [] []); try assumption; try reflexivity.
  - cbn [app]. fold (grid_rows n W H g rows) in *.
    unfold grid_rows in Hcount |- *. fold rcs rhs in Hcount |- *.
    rewrite Hcount, Z.eqb_refl. reflexivity.
  - unfold rcs. rewrite rowCounts_distribute by lia.
    rewrite distribute_int_sum by lia. unfold len. simpl. lia.
Qed.

End TryBuild.

(** ** Which counts fit a rectangle *)

(** Without a gap, a count that does not exceed the number of pixels is
    feasible at [min(n, height)] rows. *)
Lemma feasible_without_gap (n width height : Z) :
  1 <= n -> 1 <= width -> 1 <= height -> n <= width * height ->
  feasible n width height 0 (Z.min n height).
Proof.
  intros Hn Hw Hh Hcap. set (rows := Z.min n height).
  assert (Hrows : 1 <= rows <= n) by (unfold rows; lia).
  split; [fold rows; lia|]. split; [fold rows; lia|].
  intros r Hr. fold rows. rewrite Z.mul_0_l, Z.sub_0_r.
  unfold rowCount.
  pose proof (Z.div_mod n rows ltac:(lia)) as Hdm.
  pose proof (Z.mod_pos_bound n rows ltac:(lia)) as Hm.
  set (b := n / rows) in *.
  assert (Hrh : rows <= height) by (unfold rows; lia).
  destruct (Z.ltb_spec r (n - b * rows)); nia.
Qed.

(** A count above the number of pixels is feasible at no row count,
    whatever the gap. *)
Lemma infeasible_over_capacity (n width height gap rows : Z) :
  0 <= gap -> 0 <= width -> width * height < n ->
  ~ feasible n width height gap rows.
Proof.
  intros Hg Hw Hcap (Hrange & _ & Hfit).
  assert (Hrows : 1 <= rows <= n) by lia.
  pose proof (Hfit 0 ltac:(lia)) as H0.
  pose proof (rowCount_bounds n rows 0 Hrows) as Hb.
  unfold rowCount in *.
  pose proof (Z.div_mod n rows ltac:(lia)) as Hdm.
  pose proof (Z.mod_pos_bound n rows ltac:(lia)) as Hm.
  set (b := n / rows) in *.
  assert (Hrh : rows <= height) by lia.
  destruct (Z.ltb_spec 0 (n - b * rows)); nia.
Qed.

Section Build.

Variable ln : Q -> Q.

(** Whatever [tryBuildCellsFilled] returns has the requested length. *)
Lemma tryBuildCellsFilled_length (rect : Rect) (count gap : Q)
    (cells : list Rect) :
  tryBuildCellsFilled ln rect count gap = Some cells ->
  len cells = Z.max 0 (js_floor count).
Proof.
  unfold tryBuildCellsFilled.
  destruct (Z.eqb_spec (Z.max 0 (js_floor count)) 0) as [E|E].
  { intros [= <-]. now rewrite E. }
  destruct (_ || _); [discriminate|].
  destruct (computeBestRowsNoWaste _ _ _ _ _) as [rows|]; [|discriminate].
  destruct (rows <=? 0); [discriminate|].
  destruct (_ <=? 0); [discriminate|].
  destruct (_ <? rows); [discriminate|].
  destruct (pushRows _ _ _ _ _ _ _ _ _ _) as [cs|]; [|discriminate].
  destruct (Z.eqb_spec (len cs) (Z.max 0 (js_floor count))) as [El|El];
    [|discriminate].
  now intros [= <-].
Qed.

(** Above the capacity of the rectangle every attempt fails. *)
Lemma tryBuildCellsFilled_over (rect : Rect) (n : Z) (gap : Q) :
  1 <= n -> capacity rect < n ->
  tryBuildCellsFilled ln rect (inject_Z n) gap = None.
Proof.
  intros Hn Hcap.
  set (g := Z.max 0 (js_floor gap)).
  assert (Hgap : tryBuildCellsFilled ln rect (inject_Z n) gap =
                 tryBuildCellsFilled ln rect (inject_Z n) (inject_Z g)).
  { unfold tryBuildCellsFilled. rewrite !js_floor_inject.
    fold g. rewrite (Z.max_r 0 g) by (unfold g; lia). reflexivity. }
  rewrite Hgap. unfold capacity in Hcap.
  destruct (Z.le_gt_cases (js_round (rect_width rect)) 0) as [HW|HW].
  { unfold tryBuildCellsFilled. rewrite js_floor_inject, (Z.max_r 0 n) by lia.
    destruct (Z.eqb_spec n 0); [lia|].
    destruct (Z.leb_spec (js_round (rect_width rect)) 0); [|lia].
    reflexivity. }
  destruct (Z.le_gt_cases (js_round (rect_height rect)) 0) as [HH|HH].
  { unfold tryBuildCellsFilled. rewrite js_floor_inject, (Z.max_r 0 n) by lia.
    destruct (Z.eqb_spec n 0); [lia|].
    destruct (Z.leb_spec (js_round (rect_height rect)) 0); [|lia].
    now rewrite orb_true_r. }
  rewrite tryBuildCellsFilled_grid by (unfold g; lia).
  pose proof (computeBestRowsNoWaste_best ln n (js_round (rect_width rect))
                (js_round (rect_height rect)) g Hn ltac:(lia) ltac:(lia)
                ltac:(unfold g; lia)) as Hbest.
  destruct (computeBestRowsNoWaste ln _ _ _ _) as [rows|]; [|reflexivity].
  exfalso. destruct Hbest as [Hf _]. revert Hf.
  apply infeasible_over_capacity; [unfold g; lia | lia | lia].
Qed.

(** Within the capacity of the rectangle the attempt without gap
    succeeds. *)
Lemma tryBuildCellsFilled_without_gap (rect : Rect) (n : Z) :
  1 <= n -> n <= capacity rect ->
  exists cells, tryBuildCellsFilled ln rect (inject_Z n) 0 = Some cells.
Proof.
  intros Hn Hcap. unfold capacity in Hcap.
  assert (HW : 1 <= js_round (rect_width rect)) by nia.
  assert (HH : 1 <= js_round (rect_height rect)) by nia.
  change 0%Q with (inject_Z 0).
  rewrite tryBuildCellsFilled_grid by lia.
  pose proof (computeBestRowsNoWaste_best ln n (js_round (rect_width rect))
                (js_round (rect_height rect)) 0 Hn HW HH ltac:(lia)) as Hbest.
  destruct (computeBestRowsNoWaste ln _ _ _ _) as [rows|]; [eauto|].
  exfalso. eapply Hbest. apply feasible_without_gap; lia.
Qed.

Lemma attempts_length (k : nat) (rect : Rect) (n g : Z) (cells : list Rect) :
  0 <= n -> attempts ln k rect n g = Some cells -> len cells = n.
Proof.
  intros Hn. revert g. induction k as [|k IH]; intros g; [discriminate|].
  cbn [attempts].
  destruct (tryBuildCellsFilled ln rect (inject_Z n) (inject_Z g)) eqn:E.
  - intros [= <-]. apply tryBuildCellsFilled_length in E.
    rewrite js_floor_inject in E. lia.
  - apply IH.
Qed.

Lemma attempts_over (k : nat) (rect : Rect) (n g : Z) :
  1 <= n -> capacity rect < n -> attempts ln k rect n g = None.
Proof.
  intros Hn Hcap. revert g. induction k as [|k IH]; intros g; [reflexivity|].
  cbn [attempts]. now rewrite tryBuildCellsFilled_over.
Qed.

(** [buildCellsFilled] returns exactly the floored count of cells when it
    does not exceed the capacity of the rectangle, and no cell at all when
    it does. *)
Lemma buildCellsFilled_length (rect : Rect) (count gap : Q) :
  let n := Z.max 0 (js_floor count) in
  (n <= capacity rect -> len (buildCellsFilled ln rect count gap) = n) /\
  (capacity rect < n -> buildCellsFilled ln rect count gap = []).
Proof.
  intros n. unfold buildCellsFilled. fold n.
  destruct (Z.eqb_spec n 0) as [E|E].
  { split; [now rewrite E | reflexivity]. }
  assert (Hn : 1 <= n) by (unfold n in *; lia).
  split; intros Hcap.
  - destruct (attempts ln 4 rect n _) as [cells|] eqn:Ea.
    + eapply attempts_length; [|exact Ea]. lia.
    + destruct (tryBuildCellsFilled_without_gap rect n Hn Hcap) as [cells Ec].
      rewrite Ec. apply tryBuildCellsFilled_length in Ec.
      rewrite js_floor_inject in Ec. lia.
  - rewrite attempts_over by assumption.
    now rewrite tryBuildCellsFilled_over.
Qed.

End Build.

(** ** [buildCellsFilled] *)

Lemma len_nil_iff {A} (l : list A) : len l = 0 <-> l = [].
Proof.
  unfold len. split.
  - destruct l; [reflexivity|simpl; lia].
  - now intros ->.
Qed.

(** C3, as the code has it.  [buildCellsFilled] returns exactly
    [n = max(0, floor(count))] cells when [n] does not exceed the number of
    whole pixels of the rounded rectangle, and the empty list when it does:
    the result is empty only when [n] is 0 or exceeds that capacity. *)
Theorem buildCellsFilled_spec (ln : Q -> Q) (rect : Rect) (count gap : Q) :
  let n := Z.max 0 (js_floor count) in
  (n <= capacity rect -> len (buildCellsFilled ln rect count gap) = n) /\
  (capacity rect < n -> buildCellsFilled ln rect count gap = []) /\
  (buildCellsFilled ln rect count gap = [] <-> n = 0 \/ capacity rect < n).
Proof.
  intros n.
  destruct (buildCellsFilled_length ln rect count gap) as [Hfit Hover].
  fold n in Hfit, Hover.
  split; [exact Hfit|]. split; [exact Hover|].
  split.
  - intros E. destruct (Z.le_gt_cases n (capacity rect)) as [H|H];
      [left|now right].
    rewrite <- (Hfit H), E. reflexivity.
  - intros [E|H]; [|now apply Hover].
    apply len_nil_iff. rewrite Hfit; [exact E|].
    unfold capacity. nia.
Qed.

Lemma buildCellsFilled_spec_witness :
  len (buildCellsFilled ln_approx (rectZ 0 0 2 2) 4 7) = 4.
Proof.
  destruct (buildCellsFilled_spec ln_approx (rectZ 0 0 2 2) 4 7) as [H _].
  apply H. vm_compute. discriminate.
Defined.

(** C3, as stated, fails: five cells are asked of a rectangle of two by two
    pixels, whose area is positive, and none is returned. *)
Lemma buildCellsFilled_counterexample :
  (0 < rect_width (rectZ 0 0 2 2) * rect_height (rectZ 0 0 2 2))%Q /\
  Z.max 0 (js_floor 5) = 5 /\
  buildCellsFilled ln_approx (rectZ 0 0 2 2) 5 0 = [].
Proof. split; [reflexivity|]. split; reflexivity. Qed.

(** ** [computeCollageLayout] *)

Lemma fold_left_push {A B} (f : B -> list A) (l : list B) (acc : list A) :
  fold_left (fun cells b => cells ++ f b) l acc = acc ++ flat_map f l.
Proof.
  revert acc. induction l as [|b l IH]; intros acc; simpl.
  - now rewrite app_nil_r.
  - now rewrite IH, app_assoc.
Qed.

Lemma len_flat_map {A B} (f : B -> list A) (l : list B) :
  len (flat_map f l) = sumZ (map (fun b => len (f b)) l).
Proof.
  induction l as [|b l IH]; [reflexivity|].
  cbn [flat_map map sumZ fold_right]. now rewrite len_app, IH.
Qed.

Section Assemble.

Variable ln : Q -> Q.
Variable options : CollageLayoutOptions.

Local Abbreviation size := (layout_canvas options).
Local Abbreviation gap :=
  (clamp (opt_gap options) 0 (inject_Z (js_floor (inject_Z size / 8)))).
Local Abbreviation othersCount := (Z.max 0 (js_floor (opt_othersCount options))).
Local Abbreviation regions := (layout_regions options).
Local Abbreviation counts := (layout_counts options).

(** The fields of the layout, read off the code. *)
Lemma layout_fields :
  layout_size (computeCollageLayout ln options) = size /\
  layout_gap (computeCollageLayout ln options) = gap /\
  mainRect (computeCollageLayout ln options) =
    fst (computeRegions size (opt_mainRatio options)) /\
  ringCells (computeCollageLayout ln options) =
    flat_map (fun region =>
                buildCellsFilled ln (region_rect region)
                  (inject_Z (get_count counts (region_name region))) gap)
             regions.
Proof.
  unfold computeCollageLayout, layout_counts, layout_regions.
  fold (layout_canvas options).
  destruct (computeRegions size (opt_mainRatio options)) as [m rs].
  cbn [layout_size layout_gap mainRect ringCells fst snd].
  rewrite fold_left_push. auto.
Qed.

Lemma size_ge_64 : 64 <= size.
Proof. unfold layout_canvas. lia. Qed.

Lemma regions_names : map region_name regions = [Top; Right; Bottom; Left].
Proof.
  destruct (computeRegions_shape size (opt_mainRatio options) size_ge_64)
    as (m & t & _ & _ & _ & _ & Hnames & _). exact Hnames.
Qed.

Lemma regions_areas :
  Forall (fun r => (0 <= region_area r)%Q) regions /\
  (0 < total_area regions)%Q.
Proof.
  destruct (computeRegions_shape size (opt_mainRatio options) size_ge_64)
    as (m & t & Hm & Ht & Hsz & _ & _ & _ & Hareas).
  change (snd (computeRegions size (opt_mainRatio options))) with regions
    in Hareas.
  assert (Hpos : Forall (fun r => (1 <= region_area r)%Q) regions).
  { eapply Forall2_Forall_l with (Q := fun a => 1 <= a);
      [|exact Hareas|].
    - intros r a Hra Ha. rewrite Hra. change 1%Q with (inject_Z 1).
      now rewrite <- Zle_Qle.
    - repeat (apply Forall_cons; [nia|]). apply Forall_nil. }
  split.
  - eapply Forall_impl; [|exact Hpos]. intros r Hr. simpl in Hr. lra.
  - pose proof regions_names as Hn.
    destruct regions as [|r1 [|r2 [|r3 [|r4 [|]]]]]; try discriminate.
    unfold total_area. cbn [fold_left].
    repeat match goal with
           | H : Forall _ (_ :: _) |- _ =>
               let H1 := fresh in let H2 := fresh in
               pose proof (Forall_inv H) as H1;
               pose proof (Forall_inv_tail H) as H2; clear H
           end.
    cbv beta in *. lra.
Qed.

Lemma counts_nonneg (k : RegionName) : 0 <= get_count counts k.
Proof.
  destruct regions_areas as [Ha Ht]. now apply allocateCounts_nonneg.
Qed.

Lemma counts_sum : counts_total counts = othersCount.
Proof.
  destruct regions_areas as [_ Ht]. unfold layout_counts.
  rewrite allocateCounts_total by exact Ht.
  rewrite js_floor_inject. lia.
Qed.

Lemma ringCells_length :
  len (ringCells (computeCollageLayout ln options)) =
  sumZ (map (region_cells_count counts) regions).
Proof.
  destruct layout_fields as (_ & _ & _ & ->).
  rewrite len_flat_map. f_equal. apply map_ext. intros r.
  unfold region_cells_count.
  destruct (buildCellsFilled_length ln (region_rect r)
              (inject_Z (get_count counts (region_name r))) gap) as [Hfit Hover].
  rewrite js_floor_inject, Z.max_r in Hfit, Hover by apply counts_nonneg.
  destruct (Z.leb_spec (get_count counts (region_name r))
                       (capacity (region_rect r))) as [H|H].
  - now apply Hfit.
  - now rewrite Hover.
Qed.

End Assemble.

Lemma counts_over_regions (options : CollageLayoutOptions) (f : Z -> RegionName -> Z) :
  sumZ (map (fun r => f (get_count (layout_counts options) (region_name r))
                        (region_name r))
            (layout_regions options)) =
  f (count_top (layout_counts options)) Top
  + f (count_right (layout_counts options)) Right
  + f (count_bottom (layout_counts options)) Bottom
  + f (count_left (layout_counts options)) Left.
Proof.
  rewrite <- (map_map region_name
                (fun k => f (get_count (layout_counts options) k) k)).
  rewrite regions_names. cbn [map sumZ fold_right get_count]. lia.
Qed.




(** ** The order of the cells *)

Section Order.

Variable ln : Q -> Q.

Lemma tryBuildCellsFilled_some_grid (rect : Rect) (n g : Z)
    (cells : list Rect) :
  1 <= n -> 0 <= g ->
  tryBuildCellsFilled ln rect (inject_Z n) (inject_Z g) = Some cells ->
  exists rows,
    feasible n (js_round (rect_width rect)) (js_round (rect_height rect)) g rows /\
    cells =
      grid_cells (js_round (rect_x rect)) (js_round (rect_y rect)) g
        (grid_rows n (js_round (rect_width rect))
                   (js_round (rect_height rect)) g rows).
Proof.
  intros Hn Hg Hsome.
  assert (HWH : 1 <= js_round (rect_width rect) /\
                1 <= js_round (rect_height rect)).
  { revert Hsome. unfold tryBuildCellsFilled.
    rewrite js_floor_inject, (Z.max_r 0 n) by lia.
    destruct (Z.eqb_spec n 0); [lia|].
    destruct (Z.leb_spec (js_round (rect_width rect)) 0);
      [discriminate|].
    destruct (Z.leb_spec (js_round (rect_height rect)) 0);
      [discriminate|].
    intros _. lia. }
  destruct HWH as [HW HH].
  rewrite tryBuildCellsFilled_grid in Hsome by assumption.
  pose proof (computeBestRowsNoWaste_best ln n _ _ g Hn HW HH Hg) as Hbest.
  destruct (computeBestRowsNoWaste ln _ _ _ _) as [rows|]; [|discriminate].
  injection Hsome as <-. exists rows. split; [apply Hbest | reflexivity].
Qed.

Lemma attempts_some (rect : Rect) (n g : Z) (cells : list Rect) :
  attempts ln 4 rect n g = Some cells ->
  exists g', In g' [g; g / 2; g / 2 / 2; g / 2 / 2 / 2] /\
    tryBuildCellsFilled ln rect (inject_Z n) (inject_Z g') = Some cells.
Proof.
  cbn [attempts]. rewrite !js_floor_half.
  repeat match goal with
         | |- context [tryBuildCellsFilled ln rect (inject_Z n) (inject_Z ?a)] =>
             let E := fresh "E" in
             destruct (tryBuildCellsFilled ln rect (inject_Z n) (inject_Z a))
               eqn:E;
             [intros [= <-]; exists a; split; [simpl; tauto | exact E]|]
         end.
  discriminate.
Qed.

(** The cells of a region are none at all, or a row-major grid. *)
Lemma buildCellsFilled_row_major (rect : Rect) (count gap : Q) :
  buildCellsFilled ln rect count gap = [] \/
  row_major_grid rect (Z.max 0 (js_floor count)) (Z.max 0 (js_floor gap))
                 (buildCellsFilled ln rect count gap).
Proof.
  unfold buildCellsFilled.
  set (n := Z.max 0 (js_floor count)). set (g0 := Z.max 0 (js_floor gap)).
  destruct (Z.eqb_spec n 0) as [E|E]; [now left|].
  assert (Hn : 1 <= n) by (unfold n in *; lia).
  assert (Hg0 : 0 <= g0) by (unfold g0; lia).
  destruct (attempts ln 4 rect n g0) as [cells|] eqn:Ea.
  - right. apply attempts_some in Ea. destruct Ea as (g & Hin & Htry).
    assert (Hg : 0 <= g).
    { simpl in Hin.
      pose proof (Z.div_pos g0 2 Hg0 ltac:(lia)).
      pose proof (Z.div_pos (g0 / 2) 2 ltac:(lia) ltac:(lia)).
      pose proof (Z.div_pos (g0 / 2 / 2) 2 ltac:(lia) ltac:(lia)).
      intuition lia. }
    destruct (tryBuildCellsFilled_some_grid rect n g cells Hn Hg Htry)
      as (rows & Hf & Hcells).
    exists g, rows. split; [|auto].
    unfold gap_chain. simpl in Hin |- *. tauto.
  - destruct (tryBuildCellsFilled ln rect (inject_Z n) 0) as [cells|] eqn:Et;
      [right|now left].
    change 0%Q with (inject_Z 0) in Et.
    destruct (tryBuildCellsFilled_some_grid rect n 0 cells Hn ltac:(lia) Et)
      as (rows & Hf & Hcells).
    exists 0, rows. split; [|split; [lia|auto]].
    unfold gap_chain. simpl. tauto.
Qed.

(** An attempt fails exactly when no row count is feasible with its
    gap. *)
Lemma tryBuildCellsFilled_fits (rect : Rect) (n g : Z) :
  1 <= n -> 0 <= g ->
  1 <= js_round (rect_width rect) -> 1 <= js_round (rect_height rect) ->
  match tryBuildCellsFilled ln rect (inject_Z n) (inject_Z g) with
  | Some cells =>
      exists rows,
        feasible n (js_round (rect_width rect))
                 (js_round (rect_height rect)) g rows /\
        cells =
          grid_cells (js_round (rect_x rect)) (js_round (rect_y rect)) g
            (grid_rows n (js_round (rect_width rect))
                       (js_round (rect_height rect)) g rows)
  | None =>
      ~ gap_fits n (js_round (rect_width rect))
                 (js_round (rect_height rect)) g
  end.
Proof.
  intros Hn Hg HW HH.
  rewrite tryBuildCellsFilled_grid by assumption.
  pose proof (computeBestRowsNoWaste_best ln n _ _ g Hn HW HH Hg) as Hbest.
  destruct (computeBestRowsNoWaste ln _ _ _ _) as [rows|].
  - exists rows. split; [apply Hbest | reflexivity].
  - intros [rows Hf]. exact (Hbest rows Hf).
Qed.

(** The cells of a rectangle that has room for them: the grid of the first
    gap of the chain that fits. *)
Lemma buildCellsFilled_first_gap (rect : Rect) (count gap : Q) :
  let n := Z.max 0 (js_floor count) in
  let g0 := Z.max 0 (js_floor gap) in
  let W := js_round (rect_width rect) in
  let H := js_round (rect_height rect) in
  1 <= n <= capacity rect ->
  exists g rows,
    first_gap n W H g0 g /\ 0 <= g /\ feasible n W H g rows /\
    buildCellsFilled ln rect count gap =
      grid_cells (js_round (rect_x rect)) (js_round (rect_y rect)) g
                 (grid_rows n W H g rows).
Proof.
  intros n g0 W H [Hn Hcap].
  assert (HW : 1 <= W) by (unfold capacity in Hcap; fold W H in Hcap; nia).
  assert (HH : 1 <= H) by (unfold capacity in Hcap; fold W H in Hcap; nia).
  assert (Hg0 : 0 <= g0) by (unfold g0; lia).
  pose proof (Z.div_pos g0 2 Hg0 ltac:(lia)) as Hg1.
  pose proof (Z.div_pos (g0 / 2) 2 Hg1 ltac:(lia)) as Hg2.
  pose proof (Z.div_pos (g0 / 2 / 2) 2 Hg2 ltac:(lia)) as Hg3.
  unfold buildCellsFilled. fold n g0.
  destruct (Z.eqb_spec n 0); [lia|].
  cbn [attempts]. rewrite !js_floor_half. change 0%Q with (inject_Z 0).
  pose proof (tryBuildCellsFilled_fits rect n g0 Hn Hg0 HW HH) as T0.
  pose proof (tryBuildCellsFilled_fits rect n (g0 / 2) Hn Hg1 HW HH) as T1.
  pose proof (tryBuildCellsFilled_fits rect n (g0 / 2 / 2) Hn Hg2 HW HH)
    as T2.
  pose proof (tryBuildCellsFilled_fits rect n (g0 / 2 / 2 / 2) Hn Hg3 HW HH)
    as T3.
  pose proof (tryBuildCellsFilled_fits rect n 0 Hn ltac:(lia) HW HH) as T4.
  fold W H in T0, T1, T2, T3, T4.
  destruct (tryBuildCellsFilled ln rect (inject_Z n) (inject_Z g0)).
  { destruct T0 as (rows & Hf & ->). exists g0, rows.
    split; [|auto]. exists [], [g0 / 2; g0 / 2 / 2; g0 / 2 / 2 / 2; 0].
    split; [reflexivity|]. split; [now exists rows | apply Forall_nil]. }
  destruct (tryBuildCellsFilled ln rect (inject_Z n) (inject_Z (g0 / 2))).
  { destruct T1 as (rows & Hf & ->). exists (g0 / 2), rows.
    split; [|auto]. exists [g0], [g0 / 2 / 2; g0 / 2 / 2 / 2; 0].
    split; [reflexivity|]. split; [now exists rows|].
    repeat (apply Forall_cons; [assumption|]). apply Forall_nil. }
  destruct (tryBuildCellsFilled ln rect (inject_Z n)
              (inject_Z (g0 / 2 / 2))).
  { destruct T2 as (rows & Hf & ->). exists (g0 / 2 / 2), rows.
    split; [|auto]. exists [g0; g0 / 2], [g0 / 2 / 2 / 2; 0].
    split; [reflexivity|]. split; [now exists rows|].
    repeat (apply Forall_cons; [assumption|]). apply Forall_nil. }
  destruct (tryBuildCellsFilled ln rect (inject_Z n)
              (inject_Z (g0 / 2 / 2 / 2))).
  { destruct T3 as (rows & Hf & ->). exists (g0 / 2 / 2 / 2), rows.
    split; [|auto]. exists [g0; g0 / 2; g0 / 2 / 2], [0].
    split; [reflexivity|]. split; [now exists rows|].
    repeat (apply Forall_cons; [assumption|]). apply Forall_nil. }
  destruct (tryBuildCellsFilled ln rect (inject_Z n) (inject_Z 0)).
  { destruct T4 as (rows & Hf & ->). exists 0, rows.
    split; [|split; [lia | auto]].
    exists [g0; g0 / 2; g0 / 2 / 2; g0 / 2 / 2 / 2], [].
    split; [reflexivity|]. split; [now exists rows|].
    repeat (apply Forall_cons; [assumption|]). apply Forall_nil. }
  exfalso. apply T4. exists (Z.min n H).
  apply feasible_without_gap; try assumption.
  unfold capacity in Hcap. fold W H in Hcap. lia.
Qed.


End Order.



(** ** Geometry of the cells *)

Lemma separated_sym (a b : Rect) : separated a b -> separated b a.
Proof. unfold separated. tauto. Qed.

Lemma separated_rect_eq (a a' b b' : Rect) :
  rect_eq a a' -> rect_eq b b' -> separated a' b' -> separated a b.
Proof.
  intros (Ax & Ay & Aw & Ah) (Bx & By & Bw & Bh). unfold separated.
  rewrite Ax, Ay, Aw, Ah, Bx, By, Bw, Bh. tauto.
Qed.

Lemma inside_rect_eq_r (r R R' : Rect) :
  rect_eq R R' -> inside r R' -> inside r R.
Proof.
  intros (Ex & Ey & Ew & Eh). unfold inside. rewrite Ex, Ey, Ew, Eh. tauto.
Qed.

Lemma inside_rect_eq_l (r r' R : Rect) :
  rect_eq r r' -> inside r' R -> inside r R.
Proof.
  intros (Ex & Ey & Ew & Eh). unfold inside. rewrite Ex, Ey, Ew, Eh. tauto.
Qed.

Lemma inside_trans (a b c : Rect) : inside a b -> inside b c -> inside a c.
Proof. unfold inside. intros. intuition lra. Qed.

(** Rectangles inside separated rectangles are separated. *)
Lemma inside_separated (a A b B : Rect) :
  inside a A -> inside b B -> separated A B -> separated a b.
Proof. unfold inside, separated. intros. intuition lra. Qed.

(** Separated rectangles have no area in common. *)
Lemma separated_no_area (a b : Rect) :
  separated a b -> (intersection_area a b == 0)%Q.
Proof.
  unfold separated, intersection_area. intros H.
  set (X := (Qmin (rect_x a + rect_width a) (rect_x b + rect_width b)
             - Qmax (rect_x a) (rect_x b))%Q).
  set (Y := (Qmin (rect_y a + rect_height a) (rect_y b + rect_height b)
             - Qmax (rect_y a) (rect_y b))%Q).
  assert (HX : (X <= 0)%Q \/ (Y <= 0)%Q).
  { unfold X, Y.
    pose proof (Q.le_min_l (rect_x a + rect_width a) (rect_x b + rect_width b)).
    pose proof (Q.le_min_r (rect_x a + rect_width a) (rect_x b + rect_width b)).
    pose proof (Q.le_max_l (rect_x a) (rect_x b)).
    pose proof (Q.le_max_r (rect_x a) (rect_x b)).
    pose proof (Q.le_min_l (rect_y a + rect_height a) (rect_y b + rect_height b)).
    pose proof (Q.le_min_r (rect_y a + rect_height a) (rect_y b + rect_height b)).
    pose proof (Q.le_max_l (rect_y a) (rect_y b)).
    pose proof (Q.le_max_r (rect_y a) (rect_y b)).
    destruct H as [H|[H|[H|H]]]; [left|left|right|right]; lra. }
  destruct HX as [HX|HY].
  - rewrite (Q.max_l 0 X) by exact HX. ring.
  - rewrite (Q.max_l 0 Y) by exact HY. ring.
Qed.

Lemma inside_rectZ (x y w h X Y W H : Z) :
  X <= x -> x + w <= X + W -> Y <= y -> y + h <= Y + H ->
  inside (rectZ x y w h) (rectZ X Y W H).
Proof.
  intros H1 H2 H3 H4. unfold inside, rectZ. simpl.
  rewrite <- !inject_Z_plus, <- !Zle_Qle. auto.
Qed.

Lemma separated_rectZ (x y w h x' y' w' h' : Z) :
  x + w <= x' \/ x' + w' <= x \/ y + h <= y' \/ y' + h' <= y ->
  separated (rectZ x y w h) (rectZ x' y' w' h').
Proof.
  intros H. unfold separated, rectZ. simpl.
  rewrite <- !inject_Z_plus, <- !Zle_Qle. exact H.
Qed.

Lemma ForallOrdPairs_app {A} (R : A -> A -> Prop) (l1 l2 : list A) :
  ForallOrdPairs R l1 -> ForallOrdPairs R l2 ->
  (forall a b, In a l1 -> In b l2 -> R a b) ->
  ForallOrdPairs R (l1 ++ l2).
Proof.
  intros H1 H2 H12. induction H1 as [|a l1 Ha H1 IH]; [exact H2|].
  simpl. constructor.
  - apply Forall_app. split; [exact Ha|].
    apply Forall_forall. intros b Hb. apply H12; [now left | exact Hb].
  - apply IH. intros a' b Ha' Hb. apply H12; [now right | exact Hb].
Qed.

(** Lists of rectangles inside separated boxes are separated from each
    other. *)
Lemma boxes_separated (A B : Rect) (l1 l2 : list Rect) :
  separated A B ->
  Forall (fun c => inside c A) l1 -> Forall (fun c => inside c B) l2 ->
  forall a b, In a l1 -> In b l2 -> separated a b.
Proof.
  intros HAB H1 H2 a b Ha Hb.
  rewrite Forall_forall in H1, H2.
  eapply inside_separated; [apply H1, Ha | apply H2, Hb | exact HAB].
Qed.

(** *** One row *)

Lemma sumZ_nonneg (l : list Z) : Forall (fun v => 0 <= v) l -> 0 <= sumZ l.
Proof.
  induction 1 as [|a l Ha _ IH]; [simpl; lia|].
  cbn [sumZ fold_right]. fold (sumZ l). lia.
Qed.

(** The cells of a row lie between [x] and the end of the row. *)
Lemma row_cells_inside (y h gap : Z) (ws : list Z) (x X W : Z) :
  0 <= gap -> Forall (fun v => 0 <= v) ws ->
  X <= x -> x + sumZ ws + gap * (len ws - 1) <= X + W ->
  Forall (fun c => inside c (rectZ X y W h)) (row_cells x y h gap ws).
Proof.
  intros Hgap Hws. revert x. induction Hws as [|w ws Hw Hws IH];
    intros x HX Hend; [constructor|].
  cbn [row_cells]. cbn [sumZ fold_right] in Hend. fold (sumZ ws) in Hend.
  unfold len in *. cbn [length] in Hend.
  pose proof (sumZ_nonneg ws Hws) as Hs.
  constructor.
  - apply inside_rectZ; nia.
  - apply IH; nia.
Qed.

(** The cells of a row are separated from each other. *)
Lemma row_cells_separated (y h gap : Z) (ws : list Z) (x : Z) :
  0 <= gap -> Forall (fun v => 0 <= v) ws ->
  ForallOrdPairs separated (row_cells x y h gap ws).
Proof.
  intros Hgap Hws. revert x. induction Hws as [|w ws Hw Hws IH];
    intros x; [constructor|].
  cbn [row_cells]. constructor; [|apply IH].
  pose proof (row_cells_inside y h gap ws (x + w + gap) (x + w + gap)
                (sumZ ws + gap * (len ws - 1)) Hgap Hws
                ltac:(lia) ltac:(lia)) as Hin.
  eapply Forall_impl; [|exact Hin].
  intros c Hc.
  eapply inside_separated with (A := rectZ x y w h);
    [apply inside_rectZ; lia | exact Hc |].
  apply separated_rectZ. lia.
Qed.

(** *** The grid *)

Lemma rows_fit_heights (gap W : Z) (rows : list (Z * list Z)) :
  rows_fit gap W rows -> 0 <= sumZ (map fst rows).
Proof.
  intros H. apply sumZ_nonneg. apply Forall_map.
  eapply Forall_impl; [|exact H]. intros row Hrow. apply Hrow.
Qed.

(** The cells of a grid lie inside any box that holds its rows. *)
Lemma grid_cells_inside (x0 gap W' : Z) (rows : list (Z * list Z))
    (y X Y W H : Z) :
  0 <= gap -> rows_fit gap W' rows ->
  X <= x0 -> x0 + W' <= X + W -> Y <= y ->
  y + sumZ (map fst rows) + gap * (len rows - 1) <= Y + H ->
  Forall (fun c => inside c (rectZ X Y W H)) (grid_cells x0 y gap rows).
Proof.
  intros Hgap Hrows HX HW. revert y.
  induction Hrows as [|[h ws] rows (Hh & Hws & Hspan) Hrows IH];
    intros y HY Hend; [constructor|].
  cbn [fst snd] in *. cbn [grid_cells].
  cbn [map sumZ fold_right fst] in Hend. fold (sumZ (map fst rows)) in Hend.
  unfold len in Hend. cbn [length] in Hend.
  pose proof (rows_fit_heights gap W' rows Hrows) as Hs.
  apply Forall_app. split.
  - eapply Forall_impl;
      [|apply (row_cells_inside y h gap ws x0 X W Hgap Hws HX); lia].
    intros c Hc. eapply inside_trans; [exact Hc|].
    apply inside_rectZ; nia.
  - apply IH; unfold len; nia.
Qed.

(** The cells of a grid are separated from each other. *)
Lemma grid_cells_separated (x0 gap W' : Z) (rows : list (Z * list Z)) (y : Z) :
  0 <= gap -> rows_fit gap W' rows ->
  ForallOrdPairs separated (grid_cells x0 y gap rows).
Proof.
  intros Hgap Hrows. revert y.
  induction Hrows as [|[h ws] rows (Hh & Hws & Hspan) Hrows IH];
    intros y; [constructor|].
  cbn [fst snd] in *. cbn [grid_cells].
  apply ForallOrdPairs_app.
  - now apply row_cells_separated.
  - apply IH.
  - set (rest := sumZ (map fst rows) + gap * (len rows - 1)).
    apply boxes_separated with
      (A := rectZ x0 y W' h) (B := rectZ x0 (y + h + gap) W' rest).
    + apply separated_rectZ. lia.
    + apply row_cells_inside; try assumption; lia.
    + eapply grid_cells_inside; try eassumption; unfold rest; lia.
Qed.

Lemma Forall_combine {A B} (P : A -> Prop) (Q : B -> Prop)
    (l1 : list A) (l2 : list B) :
  Forall P l1 -> Forall Q l2 ->
  Forall (fun ab => P (fst ab) /\ Q (snd ab)) (combine l1 l2).
Proof.
  intros H1. revert l2. induction H1 as [|a l1 Ha _ IH]; intros l2 H2;
    [constructor|].
  destruct H2 as [|b l2 Hb H2]; [constructor|].
  simpl. constructor; [now split | now apply IH].
Qed.

Lemma map_fst_combine {A B} (l1 : list A) (l2 : list B) :
  length l1 = length l2 -> map fst (combine l1 l2) = l1.
Proof.
  revert l2. induction l1 as [|a l1 IH]; intros [|b l2] H;
    try discriminate; [reflexivity|].
  simpl. f_equal. apply IH. simpl in H. lia.
Qed.

Lemma distribute_int_nonneg (t p : Z) :
  0 <= t -> 1 <= p ->
  Forall (fun v => 0 <= v) (distribute (inject_Z t) (inject_Z p)).
Proof.
  intros Ht Hp. eapply Forall_impl; [|now apply distribute_int_lower].
  intros v Hv. cbv beta in Hv.
  pose proof (Z.div_pos t p Ht ltac:(lia)). lia.
Qed.

(** The grid of a feasible row count fills its rectangle: the rows fit its
    width, and their heights with the gaps add up to its height. *)
Lemma grid_rows_fit (n width height gap rows : Z) :
  0 <= gap -> feasible n width height gap rows ->
  rows_fit gap width (grid_rows n width height gap rows) /\
  sumZ (map fst (grid_rows n width height gap rows))
    + gap * (len (grid_rows n width height gap rows) - 1) = height.
Proof.
  intros Hgap Hf. pose proof (rowCounts_fit _ _ _ _ _ Hf) as Hfit.
  destruct Hf as (Hrange & Hh & _). unfold grid_rows.
  set (rhs := distribute (inject_Z (height - gap * (rows - 1))) (inject_Z rows)).
  set (rcs := array_from rows (rowCount n rows)) in *.
  assert (Hlen : len rhs = rows)
    by (apply distribute_int_length; lia).
  assert (Hlens : length rhs = length (map (row_widths width gap) rcs)).
  { rewrite length_map. unfold rcs. rewrite array_from_length.
    unfold len in Hlen. lia. }
  split.
  - unfold rows_fit.
    eapply Forall_impl;
      [|apply (Forall_combine (fun h => 0 <= h)
                 (fun ws => Forall (fun v => 0 <= v) ws /\
                            sumZ ws + gap * (len ws - 1) <= width))].
    + intros row [H1 [H2 H3]]. auto.
    + apply distribute_int_nonneg; lia.
    + apply Forall_map. eapply Forall_impl; [|exact Hfit].
      intros rc [H1 H2]. unfold row_widths. split.
      * apply distribute_int_nonneg; lia.
      * rewrite distribute_int_sum, distribute_int_length by lia. lia.
  - rewrite map_fst_combine by exact Hlens.
    unfold len. rewrite length_combine, <- Hlens, Nat.min_id.
    fold (len rhs). rewrite Hlen.
    unfold rhs. rewrite distribute_int_sum by lia. lia.
Qed.

(** The cells of a region lie inside its rounded rectangle and are
    separated from each other. *)
Lemma row_major_grid_geometry (rect : Rect) (n g0 : Z) (cells : list Rect) :
  row_major_grid rect n g0 cells ->
  Forall (fun c =>
            inside c (rectZ (js_round (rect_x rect)) (js_round (rect_y rect))
                            (js_round (rect_width rect))
                            (js_round (rect_height rect))))
         cells /\
  ForallOrdPairs separated cells.
Proof.
  intros (g & rows & _ & Hg & Hf & ->).
  destruct (grid_rows_fit n _ _ g rows Hg Hf) as [Hfit Hheight].
  split.
  - eapply grid_cells_inside; try eassumption; lia.
  - eapply grid_cells_separated; eassumption.
Qed.

(** *** The whole layout *)

(** Cell lists that lie in boxes separated from each other, each list
    separated in itself, are separated as a whole. *)
Lemma concat_separated (boxes : list Rect) (cellss : list (list Rect)) :
  ForallOrdPairs separated boxes ->
  Forall2 (fun B cells =>
             Forall (fun c => inside c B) cells /\
             ForallOrdPairs separated cells)
          boxes cellss ->
  ForallOrdPairs separated (concat cellss).
Proof.
  intros Hboxes H2. induction H2 as [|B cells boxes cellss [Hin Hsep] H2 IH];
    [constructor|].
  inversion Hboxes as [|? ? HB Hrest]; subst.
  cbn [concat]. apply ForallOrdPairs_app; [exact Hsep | now apply IH |].
  intros a b Ha Hb. apply in_concat in Hb. destruct Hb as (cells' & Hc' & Hb).
  clear IH Hrest Hsep Hboxes.
  induction H2 as [|B' cs boxes cellss [Hin' _] H2 IH]; [contradiction|].
  inversion HB as [|? ? HBB' HB']; subst.
  destruct Hc' as [<-|Hc'].
  - eapply boxes_separated; eauto.
  - apply IH; assumption.
Qed.

Lemma concat_inside (canvas : Rect) (boxes : list Rect)
    (cellss : list (list Rect)) :
  Forall (fun B => inside B canvas) boxes ->
  Forall2 (fun B cells =>
             Forall (fun c => inside c B) cells /\
             ForallOrdPairs separated cells)
          boxes cellss ->
  Forall (fun c => inside c canvas) (concat cellss).
Proof.
  intros Hboxes H2. induction H2 as [|B cells boxes cellss [Hin _] H2 IH];
    [constructor|].
  inversion Hboxes as [|? ? HB Hrest]; subst.
  cbn [concat]. apply Forall_app. split; [|now apply IH].
  eapply Forall_impl; [|exact Hin].
  intros c Hc. now apply inside_trans with B.
Qed.

Lemma inside_refl (r : Rect) : inside r r.
Proof. unfold inside. repeat split; apply Qle_refl. Qed.

Section LayoutGeometry.

Variable ln : Q -> Q.

(** The cells of a region whose rectangle is the integer box [B] lie
    in [B] and are separated from each other. *)
Lemma region_cells_geometry (rect : Rect) (X Y W H : Z) (count gap : Q) :
  rect_eq rect (rectZ X Y W H) ->
  Forall (fun c => inside c (rectZ X Y W H))
         (buildCellsFilled ln rect count gap) /\
  ForallOrdPairs separated (buildCellsFilled ln rect count gap).
Proof.
  intros (Ex & Ey & Ew & Eh). cbn [rectZ rect_x rect_y rect_width rect_height] in *.
  destruct (buildCellsFilled_row_major ln rect count gap) as [->|Hgrid].
  - split; constructor.
  - apply row_major_grid_geometry in Hgrid.
    now rewrite (js_round_int _ _ Ex), (js_round_int _ _ Ey),
      (js_round_int _ _ Ew), (js_round_int _ _ Eh) in Hgrid.
Qed.

(** The main rectangle and the ring cells are separated from each other
    and lie within the canvas. *)
Lemma layout_geometry (options : CollageLayoutOptions) :
  let layout := computeCollageLayout ln options in
  ForallOrdPairs separated (mainRect layout :: ringCells layout) /\
  Forall (within_canvas (layout_size layout))
         (mainRect layout :: ringCells layout).
Proof.
  intros layout. subst layout.
  destruct (layout_fields ln options) as (Hsize & _ & Hmain & Hcells).
  rewrite Hsize, Hmain, Hcells. clear Hsize Hmain Hcells.
  destruct (computeRegions_shape (layout_canvas options)
              (opt_mainRatio options) (size_ge_64 options))
    as (m & t & Hm & Ht & Hsz & Hmain & _ & Hrects & _).
  fold (layout_regions options) in Hrects.
  set (size := layout_canvas options) in *.
  set (main := fst (computeRegions size (opt_mainRatio options))) in *.
  set (gap := clamp _ _ _).
  set (build := fun region => buildCellsFilled ln (region_rect region) _ gap).
  rewrite flat_map_concat_map.
  change (main :: concat (map build (layout_regions options)))
    with (concat ([main] :: map build (layout_regions options))).
  assert (H2 : Forall2 (fun B cells =>
                          Forall (fun c => inside c B) cells /\
                          ForallOrdPairs separated cells)
                       (rectZ t t m m :: ring_rects size m t)
                       ([main] :: map build (layout_regions options))).
  { constructor.
    - split; [|repeat constructor].
      constructor; [|constructor].
      eapply inside_rect_eq_l; [exact Hmain | apply inside_refl].
    - pose proof (regions_names options) as Hnames.
      destruct (layout_regions options) as [|r1 [|r2 [|r3 [|r4 [|]]]]];
        try discriminate.
      unfold ring_rects in *. cbn [map] in *.
      rewrite !Forall2_cons_iff in Hrects.
      destruct Hrects as (H1 & H2 & H3 & H4 & _).
      repeat (apply Forall2_cons;
              [unfold build; apply region_cells_geometry; assumption|]).
      apply Forall2_nil. }
  split.
  - eapply concat_separated; [|exact H2].
    unfold ring_rects.
    repeat (apply FOP_cons;
            [repeat (apply Forall_cons; [apply separated_rectZ; lia|]);
             apply Forall_nil|]).
    apply FOP_nil.
  - unfold within_canvas. rewrite Hsz.
    eapply concat_inside; [|exact H2].
    unfold ring_rects.
    repeat (apply Forall_cons; [apply inside_rectZ; lia|]).
    apply Forall_nil.
Qed.

End LayoutGeometry.

Lemma ForallOrdPairs_impl {A} (R R' : A -> A -> Prop) (l : list A) :
  (forall a b, R a b -> R' a b) ->
  ForallOrdPairs R l -> ForallOrdPairs R' l.
Proof.
  intros HR. induction 1 as [|a l Ha _ IH]; constructor; [|exact IH].
  eapply Forall_impl; [|exact Ha]. intros b. apply HR.
Qed.

(** C4. In every layout the main rectangle and the ring cells have, two by
    two, no area in common, and each of them lies within the canvas
    [[0, size) x [0, size)]. *)
Theorem layout_non_overlapping (ln : Q -> Q) (options : CollageLayoutOptions) :
  let layout := computeCollageLayout ln options in
  ForallOrdPairs (fun a b => (intersection_area a b == 0)%Q)
                 (mainRect layout :: ringCells layout) /\
  Forall (within_canvas (layout_size layout))
         (mainRect layout :: ringCells layout).
Proof.
  intros layout. destruct (layout_geometry ln options) as [Hsep Hin].
  split; [|exact Hin].
  eapply ForallOrdPairs_impl; [|exact Hsep].
  intros a b. apply separated_no_area.
Qed.

(** ** The render pipeline *)

Section RenderProofs.

Variable ln : Q -> Q.
Variables File Source : Type.
Variable decodeImage : File -> option (DecodedImage Source).
Variable hasContext : bool.
Variable aborted : nat -> bool.
Variable random : nat -> Q.

(** A loop over the images that ends without error has drawn every image
    into the cell of its index. *)
Lemma drawLoop_ok (ring : bool) (items : list (CollageImageItem File))
    (idx : nat) (cells : list Rect) (polls : nat) (drawn totalToDraw : Z)
    (events : list (Event File Source)) (d : Z) (p : nat) :
  drawLoop decodeImage aborted ring items idx cells polls drawn totalToDraw
    = (events, inr (d, p)) ->
  events = loop_events decodeImage items idx cells drawn totalToDraw /\
  d = drawn + len items /\ p = (polls + length items)%nat /\
  (items = [] \/ idx + length items <= length cells)%nat.
Proof.
  revert idx polls drawn events.
  induction items as [|item rest IH]; intros idx polls drawn events Hrun.
  - cbn [drawLoop] in Hrun. injection Hrun as <- <- <-.
    unfold len. cbn [loop_events length].
    split; [reflexivity|]. split; [lia|]. split; [lia|]. now left.
  - cbn [drawLoop] in Hrun. cbn [loop_events].
    destruct (aborted polls); [discriminate|].
    destruct (nth_error cells idx) as [dest|] eqn:Ecell; [|discriminate].
    destruct (drawItem _ _ _ _ _ _ _) as [evs [e|]]; [discriminate|].
    destruct (drawLoop _ _ _ _ _ _ _ _ _) as [later result] eqn:Elater.
    injection Hrun as <- ->.
    destruct (IH _ _ _ _ Elater) as (-> & -> & -> & Hlen).
    unfold len. cbn [fst length].
    assert (idx < length cells)%nat
      by (apply nth_error_Some; congruence).
    split; [reflexivity|]. split; [lia|]. split; [lia|]. right.
    destruct Hlen as [->|Hlen]; cbn [length]; lia.
Qed.

Lemma find_none_selectMain (first : CollageImageItem File)
    (images : list (CollageImageItem File)) (mainId : string) :
  (forall i, In i images -> item_id i <> mainId) ->
  selectMain first images mainId = first.
Proof.
  intros Hno. unfold selectMain.
  destruct (find _ images) as [found|] eqn:Ef; [|reflexivity].
  apply find_some in Ef. destruct Ef as [Hin Heq].
  apply String.eqb_eq in Heq. exfalso. now apply (Hno found).
Qed.

Lemma selectMain_self (first : CollageImageItem File)
    (rest : list (CollageImageItem File)) :
  selectMain first (first :: rest) (item_id first) = first.
Proof. unfold selectMain. cbn [find]. now rewrite String.eqb_refl. Qed.

(** With distinct ids, the others are the images after the first. *)
Lemma selectOthers_first (first : CollageImageItem File)
    (rest : list (CollageImageItem File)) :
  NoDup (map item_id (first :: rest)) ->
  selectOthers (first :: rest) first = rest.
Proof.
  intros Hnd. unfold selectOthers. cbn [filter].
  rewrite String.eqb_refl. cbn [negb].
  inversion Hnd as [|? ? Hnotin _]; subst.
  clear Hnd. induction rest as [|i rest IH]; [reflexivity|].
  cbn [filter].
  destruct (String.eqb_spec (item_id i) (item_id first)) as [E|E].
  - exfalso. apply Hnotin. left. exact E.
  - cbn [negb]. f_equal. apply IH. intros Hin. apply Hnotin. now right.
Qed.


End RenderProofs.


(** * Further properties of the code *)

(** ** [clamp] and [distribute] *)

(** X1. For bounds in order, [clamp] returns a number between them: the
    value itself when it lies between the bounds, the lower bound below
    them and the upper bound above them.  With the bounds out of order it
    returns the upper one. *)
Theorem clamp_spec (value lo hi : Q) :
  ((lo <= hi)%Q ->
   (lo <= clamp value lo hi <= hi)%Q /\
   ((lo <= value <= hi)%Q -> (clamp value lo hi == value)%Q) /\
   ((value <= lo)%Q -> (clamp value lo hi == lo)%Q) /\
   ((hi <= value)%Q -> (clamp value lo hi == hi)%Q)) /\
  ((hi < lo)%Q -> (clamp value lo hi == hi)%Q).
Proof.
  unfold clamp. split.
  - intros Hb. split; [now apply clamp_bounds|].
    split; [|split].
    + intros [H1 H2]. rewrite (Q.max_r lo value) by exact H1.
      now apply Q.min_r.
    + intros H. rewrite (Q.max_l lo value) by exact H. now apply Q.min_r.
    + intros H. apply Q.min_l.
      eapply Qle_trans; [exact H | apply Q.le_max_r].
  - intros H. apply Q.min_l.
    eapply Qle_trans; [apply Qlt_le_weak; exact H | apply Q.le_max_l].
Qed.

Lemma clamp_spec_witness :
  (0 <= clamp (3 # 2) 0 1 <= 1)%Q /\ (clamp (3 # 2) 0 1 == 1)%Q.
Proof.
  destruct (clamp_spec (3 # 2) 0 1) as [H _].
  destruct H as (Hb & _ & _ & Hhi); [unfold Qle; simpl; lia|].
  split; [exact Hb|]. apply Hhi. unfold Qle; simpl; lia.
Defined.

Lemma distribute_safe (total parts : Q) :
  distribute total parts =
  distribute (inject_Z (Z.max 0 (js_floor total)))
             (inject_Z (Z.max 1 (js_floor parts))).
Proof.
  unfold distribute. rewrite !js_floor_inject.
  now rewrite (Z.max_r 0 (Z.max 0 _)), (Z.max_r 1 (Z.max 1 _)) by lia.
Qed.

(** X2. For a total below [2^53] and a part count below [2^32], where
    the doubles of the code are exact and [Array.from] accepts the length,
    [distribute] returns [max(1, floor(parts))] entries, none of them
    negative, which add up to [max(0, floor(total))]; two entries differ
    by at most one, and an entry is never smaller than a later one.  So a
    part count below 1 gives the whole total in one entry, and a negative
    total gives zeros. *)
Theorem distribute_bounded (total parts : Q) :
  (total < inject_Z (2 ^ 53))%Q -> (parts < inject_Z (2 ^ 32))%Q ->
  let l := distribute total parts in
  len l = Z.max 1 (js_floor parts) /\
  Forall (fun v => 0 <= v) l /\
  sumZ l = Z.max 0 (js_floor total) /\
  (forall i j, (i <= j < length l)%nat ->
     nth j l 0 <= nth i l 0 <= nth j l 0 + 1).
Proof.
  intros _ _ l. subst l. rewrite distribute_safe.
  set (t := Z.max 0 (js_floor total)). set (p := Z.max 1 (js_floor parts)).
  assert (Ht : 0 <= t) by (unfold t; lia).
  assert (Hp : 1 <= p) by (unfold p; lia).
  split; [now apply distribute_int_length|].
  split; [now apply distribute_int_nonneg|].
  split; [now apply distribute_int_sum|].
  rewrite distribute_int by assumption.
  pose proof (Z.mod_pos_bound t p ltac:(lia)) as Hm.
  set (k := Z.to_nat (t mod p)). set (k' := Z.to_nat (p - t mod p)).
  assert (Hnth : forall i, (i < k + k')%nat ->
            nth i (repeat (t / p + 1) k ++ repeat (t / p) k') 0 =
            if (i <? k)%nat then t / p + 1 else t / p).
  { intros i Hi. destruct (Nat.ltb_spec i k) as [H|H].
    - rewrite app_nth1 by (now rewrite repeat_length).
      apply nth_repeat_lt. exact H.
    - rewrite app_nth2 by (rewrite repeat_length; lia).
      rewrite repeat_length. apply nth_repeat_lt. lia. }
  intros i j Hij. rewrite length_app, !repeat_length in Hij.
  rewrite !Hnth by lia.
  destruct (Nat.ltb_spec i k), (Nat.ltb_spec j k); lia.
Qed.

Lemma distribute_bounded_witness :
  distribute (-(7 # 2)) (5 # 2) = [0; 0] /\
  sumZ (distribute (37 # 2) (1 # 3)) = 18.
Proof.
  split.
  - vm_compute. reflexivity.
  - destruct (distribute_bounded (37 # 2) (1 # 3)) as (_ & _ & H & _);
      [reflexivity | reflexivity | exact H].
Defined.

(** ** The regions tile the canvas *)

(** The side of the main square is the rounded share of the canvas, or one
    pixel less when that leaves an odd number of pixels to the ring. *)
Lemma computeRegions_mainSize (size : Z) (mainRatio : Q) :
  64 <= size ->
  let r :=
    js_round (fl (inject_Z size
                  * clamp mainRatio (fl (5 # 100)) (fl (95 # 100)))) in
  rect_width (fst (computeRegions size mainRatio))
    = inject_Z (if Z.even (size - r) then r else r - 1).
Proof.
  intros Hsize r. unfold computeRegions. fold r.
  pose proof (clamp_bounds mainRatio (fl (5 # 100)) (fl (95 # 100))
                ltac:(apply ratio_bounds)) as Hc.
  pose proof (round_main_bounds size _ Hsize Hc) as Hm. fold r in Hm.
  assert (Hcl : clampZ r 1 size = r) by (unfold clampZ; lia).
  rewrite Hcl. cbn [fst rect_width]. f_equal.
  assert (Hrem : forall a, 0 <= a -> Z.rem a 2 = a mod 2)
    by (intros a Ha; apply Z.rem_mod_nonneg; lia).
  rewrite !Hrem by lia.
  rewrite (Zeven_mod (size - r)).
  destruct (Z.eqb_spec ((size - r) mod 2) 0) as [E|E]; cbn [negb];
    [reflexivity|].
  assert (E1 : (size - (r - 1)) mod 2 = 0).
  { pose proof (Z.mod_pos_bound (size - r) 2 ltac:(lia)).
    replace (size - (r - 1)) with ((size - r) + 1) by lia.
    rewrite Z.add_mod by lia.
    replace ((size - r) mod 2) with 1 by lia. reflexivity. }
  rewrite E1. destruct (Z.leb_spec 1 (r - 1)); [reflexivity | lia].
Qed.

(** X3. On a canvas of integer side [size] from 64 to [2^26], where the
    areas are whole numbers below [2^53], the main square is centred and
    its side is [round(size * clamp(mainRatio, 0.05, 0.95))], with the
    bounds and the product as the doubles the code computes, or one less
    when that keeps the ring thickness whole; the ring is at least two
    pixels thick; opposite regions have the same area; and the areas of the
    main square and of the four regions add up to the area of the
    canvas. *)
Theorem computeRegions_partition (size : Z) (mainRatio : Q) :
  64 <= size <= 2 ^ 26 ->
  let r :=
    js_round (fl (inject_Z size
                  * clamp mainRatio (fl (5 # 100)) (fl (95 # 100)))) in
  let main := fst (computeRegions size mainRatio) in
  let regions := snd (computeRegions size mainRatio) in
  exists mainSize ringT : Z,
    (mainSize = r \/ mainSize = r - 1) /\ 2 <= mainSize /\ 2 <= ringT /\
    size = ringT + mainSize + ringT /\
    rect_eq main (rectZ ringT ringT mainSize mainSize) /\
    (total_area regions + rect_width main * rect_height main
       == inject_Z (size * size))%Q /\
    match regions with
    | [rTop; rRight; rBottom; rLeft] =>
        (region_area rTop == region_area rBottom)%Q /\
        (region_area rRight == region_area rLeft)%Q
    | _ => False
    end.
Proof.
  intros [Hsize _] r main regions.
  destruct (computeRegions_shape size mainRatio Hsize)
    as (m & t & Hm & Ht & Hsz & Hmain & Hnames & _ & Hareas).
  fold regions in Hnames, Hareas. fold main in Hmain.
  pose proof (computeRegions_mainSize size mainRatio Hsize) as Hw.
  cbv zeta in Hw. fold r main in Hw.
  exists m, t.
  assert (Em : m = if Z.even (size - r) then r else r - 1).
  { destruct Hmain as (_ & _ & Hmw & _). rewrite Hw in Hmw.
    cbn [rectZ rect_width] in Hmw. symmetry.
    apply inject_Z_injective. exact Hmw. }
  split; [destruct (Z.even (size - r)); lia|].
  split; [exact Hm|]. split; [exact Ht|]. split; [lia|].
  split; [exact Hmain|].
  destruct regions as [|r1 [|r2 [|r3 [|r4 [|]]]]]; try discriminate.
  rewrite !Forall2_cons_iff in Hareas.
  destruct Hareas as (H1 & H2 & H3 & H4 & _).
  split.
  - unfold total_area. cbn [fold_left].
    destruct Hmain as (_ & _ & Hmw & Hmh).
    rewrite H1, H2, H3, H4, Hmw, Hmh. cbn [rectZ rect_width rect_height].
    change 0%Q with (inject_Z 0).
    rewrite <- !inject_Z_mult, <- !inject_Z_plus.
    apply inject_Z_injective. nia.
  - split; [now rewrite H1, H3 | now rewrite H2, H4].
Qed.

Lemma computeRegions_partition_witness :
  exists ringT : Z,
    70 = ringT + 60 + ringT /\
    rect_eq (fst (computeRegions 70 (fl (85 # 100)))) (rectZ ringT ringT 60 60).
Proof.
  destruct (computeRegions_partition 70 (fl (85 # 100)) ltac:(lia))
    as (m & t & Hr & _ & _ & Hsz & Hmain & _).
  assert (Er : js_round (fl (inject_Z 70
                             * clamp (fl (85 # 100)) (fl (5 # 100))
                                     (fl (95 # 100)))) = 60)
    by (vm_compute; reflexivity).
  rewrite Er in Hr. assert (m = 60) as -> by lia.
  exists t. split; assumption.
Defined.

(** ** [allocateCounts]: bounds and proportionality *)

(** X4. For regions of non-negative area with a positive combined area,
    no count is negative and no count exceeds the floored total. *)
Theorem allocateCounts_bounds (total : Q) (regions : list Region) :
  Forall (fun r => (0 <= region_area r)%Q) regions ->
  (0 < total_area regions)%Q ->
  forall k,
    0 <= get_count (allocateCounts total regions) k <= Z.max 0 (js_floor total).
Proof.
  intros Hareas HA k.
  pose proof (allocateCounts_nonneg total regions Hareas HA) as Hnn.
  pose proof (allocateCounts_total total regions HA) as Hsum.
  rewrite counts_total_get in Hsum.
  pose proof (Hnn Top). pose proof (Hnn Right).
  pose proof (Hnn Bottom). pose proof (Hnn Left).
  destruct k; lia.
Qed.

Lemma allocateCounts_bounds_witness :
  0 <= get_count (allocateCounts 12 (snd (computeRegions 100 (1 # 2)))) Left
    <= 12.
Proof.
  apply (allocateCounts_bounds 12 (snd (computeRegions 100 (1 # 2)))).
  - cbn [computeRegions snd]. repeat constructor; vm_compute; discriminate.
  - vm_compute. reflexivity.
Defined.

(** *** The units handed out *)

Lemma bump_range_shift (l : list RawShare) (i k : nat) :
  (i < length l)%nat ->
  bump_range (bump_base l i) (S i) k = bump_range l i (S k).
Proof.
  revert i. induction l as [|r l IH]; intros i Hi; [simpl in Hi; lia|].
  destruct i as [|i].
  - reflexivity.
  - cbn [bump_base bump_range]. f_equal. apply IH. simpl in Hi. lia.
Qed.

Lemma bump_range_none (l : list RawShare) (i : nat) : bump_range l i 0 = l.
Proof.
  revert i. induction l as [|r l IH]; intros [|i]; cbn [bump_range];
    try reflexivity.
  now rewrite IH.
Qed.

(** As long as it does not wrap around, [award] hands one unit to each of
    [k] entries in a row. *)
Lemma award_range (k i : nat) (raw : list RawShare) :
  (i + k <= length raw)%nat ->
  award k (Z.of_nat i) raw = bump_range raw i k.
Proof.
  revert i raw. induction k as [|k IH]; intros i raw Hik.
  - cbn [award]. now rewrite bump_range_none.
  - cbn [award].
    assert (Hrem : Z.to_nat (Z.rem (Z.of_nat i) (len raw)) = i).
    { unfold len. rewrite Z.rem_small by lia. lia. }
    rewrite Hrem.
    replace (Z.of_nat i + 1) with (Z.of_nat (S i)) by lia.
    rewrite IH by (rewrite bump_base_length; lia).
    apply bump_range_shift. lia.
Qed.

Lemma bump_range_entries (l : list RawShare) (i k : nat) :
  Forall2 (fun r r' =>
             raw_name r' = raw_name r /\ raw_frac r' = raw_frac r /\
             (raw_base r' = raw_base r \/ raw_base r' = raw_base r + 1))
          l (bump_range l i k).
Proof.
  revert i k. induction l as [|r l IH]; intros i k; [constructor|].
  destruct i as [|i]; [destruct k as [|k]|]; cbn [bump_range].
  - constructor; [auto|]. rewrite <- (bump_range_none l 0) at 2. apply IH.
  - constructor; [cbn; auto | apply IH].
  - constructor; [auto | apply IH].
Qed.

(** *** Writing the shares into the record *)

Lemma fold_counts_other (l : list RawShare) (out : Counts) (k : RegionName) :
  ~ In k (map raw_name l) ->
  get_count (fold_left (fun out r => set_count out (raw_name r) (raw_base r))
                       l out) k
  = get_count out k.
Proof.
  revert out. induction l as [|a l IH]; intros out Hk; [reflexivity|].
  cbn [fold_left]. rewrite IH by (intros H; apply Hk; now right).
  rewrite get_set_count.
  destruct (RegionName_eqb (raw_name a) k) eqn:E; [|reflexivity].
  exfalso. apply Hk. left. destruct (raw_name a), k; simpl in E;
    congruence.
Qed.

(** With distinct names, every entry ends up under its name. *)
Lemma fold_counts_get (l : list RawShare) (out : Counts) (r : RawShare) :
  NoDup (map raw_name l) -> In r l ->
  get_count (fold_left (fun out r => set_count out (raw_name r) (raw_base r))
                       l out) (raw_name r)
  = raw_base r.
Proof.
  revert out. induction l as [|a l IH]; intros out Hnd Hin; [contradiction|].
  inversion Hnd as [|? ? Hnotin Hnd']; subst.
  cbn [fold_left]. destruct Hin as [->|Hin].
  - rewrite fold_counts_other by exact Hnotin.
    rewrite get_set_count. now destruct (raw_name r).
  - now apply IH.
Qed.

Lemma RegionName_eqb_eq (a b : RegionName) :
  RegionName_eqb a b = true <-> a = b.
Proof. destruct a, b; simpl; split; congruence. Qed.

(** With distinct names, the record holds all the units of the entries. *)
Lemma fold_counts_total (l : list RawShare) (out : Counts) :
  NoDup (map raw_name l) ->
  (forall k, In k (map raw_name l) -> get_count out k = 0) ->
  counts_total
    (fold_left (fun out r => set_count out (raw_name r) (raw_base r)) l out)
  = counts_total out + sumZ (map raw_base l).
Proof.
  revert out. induction l as [|a l IH]; intros out Hnd Hzero;
    [simpl; lia|].
  inversion Hnd as [|? ? Hnotin Hnd']; subst.
  cbn [fold_left map sumZ fold_right]. fold (sumZ (map raw_base l)).
  rewrite IH; [|exact Hnd'|].
  - pose proof (Hzero (raw_name a) ltac:(now left)) as H0.
    rewrite !counts_total_get, !get_set_count.
    destruct (raw_name a); cbn [RegionName_eqb get_count] in *; lia.
  - intros k Hk. rewrite get_set_count.
    destruct (RegionName_eqb (raw_name a) k) eqn:E.
    + apply RegionName_eqb_eq in E. subst k. contradiction.
    + apply Hzero. now right.
Qed.

(** The fractional parts of the shares met so far add up to less than
    their number. *)
Lemma frac_shares_le (A : Q) (T : Z) (l : list Region) (acc : Q) :
  (0 < A)%Q ->
  ((fold_left (fun sum r => sum + region_area r) l acc - acc) * inject_Z T
   <= (inject_Z (sumZ (map (fun r => js_floor (region_area r / A * inject_Z T))
                           l))
       + inject_Z (len l)) * A)%Q.
Proof.
  intros HA. revert acc. induction l as [|r l IH]; intros acc.
  - cbn [map sumZ fold_right fold_left]. unfold len. cbn [length].
    change (inject_Z (Z.of_nat 0)) with 0%Q. change (inject_Z 0) with 0%Q.
    apply Qle_lteq. right. ring.
  - cbn [map sumZ fold_right fold_left].
    fold (sumZ (map (fun r => js_floor (region_area r / A * inject_Z T)) l)).
    specialize (IH (acc + region_area r)%Q).
    set (e := (region_area r / A * inject_Z T)%Q).
    pose proof (Qlt_floor e) as Hfu. fold (js_floor e) in Hfu.
    rewrite inject_Z_plus in Hfu. change (inject_Z 1) with 1%Q in Hfu.
    assert (He : (e * A == region_area r * inject_Z T)%Q)
      by (unfold e; field; lra).
    assert (Hfu' : (e * A <= (inject_Z (js_floor e) + 1) * A)%Q)
      by (apply Qmult_le_compat_r; lra).
    assert (Hlen : (inject_Z (len (r :: l)) == inject_Z (len l) + 1)%Q).
    { unfold len. cbn [length]. rewrite Nat2Z.inj_succ. unfold Z.succ.
      rewrite inject_Z_plus. reflexivity. }
    rewrite Hlen, inject_Z_plus.
    set (F := fold_left _ l _) in *. set (S := inject_Z (sumZ _)) in *.
    set (L := inject_Z (len l)) in *.
    lra.
Qed.

Lemma frac_shares_lt (A : Q) (T : Z) (l : list Region) (acc : Q) :
  (0 < A)%Q -> l <> [] ->
  ((fold_left (fun sum r => sum + region_area r) l acc - acc) * inject_Z T
   < (inject_Z (sumZ (map (fun r => js_floor (region_area r / A * inject_Z T))
                          l))
      + inject_Z (len l)) * A)%Q.
Proof.
  intros HA Hl. destruct l as [|r l]; [contradiction|].
  cbn [map sumZ fold_right fold_left].
  fold (sumZ (map (fun r => js_floor (region_area r / A * inject_Z T)) l)).
  pose proof (frac_shares_le A T l (acc + region_area r)%Q HA) as IH.
  set (e := (region_area r / A * inject_Z T)%Q).
  pose proof (Qlt_floor e) as Hfu. fold (js_floor e) in Hfu.
  rewrite inject_Z_plus in Hfu. change (inject_Z 1) with 1%Q in Hfu.
  assert (He : (e * A == region_area r * inject_Z T)%Q)
    by (unfold e; field; lra).
  assert (Hfu' : (e * A < (inject_Z (js_floor e) + 1) * A)%Q)
    by (apply Qmult_lt_compat_r; lra).
  assert (Hlen : (inject_Z (len (r :: l)) == inject_Z (len l) + 1)%Q).
  { unfold len. cbn [length]. rewrite Nat2Z.inj_succ. unfold Z.succ.
    rewrite inject_Z_plus. reflexivity. }
  rewrite Hlen, inject_Z_plus.
  set (F := fold_left _ l _) in *. set (S := inject_Z (sumZ _)) in *.
  set (L := inject_Z (len l)) in *.
  lra.
Qed.

Lemma Permutation_NoDup_map {A B} (f : A -> B) (l l' : list A) :
  Permutation l l' -> NoDup (map f l) -> NoDup (map f l').
Proof.
  intros Hp. apply Permutation_NoDup. now apply Permutation_map.
Qed.

(** What [allocateCounts] returns away from the degenerate case, for
    regions with distinct names and non-negative areas: the floored shares,
    sorted by fractional part, with one unit more for the first
    [remaining] of them, each under its name. *)
Lemma allocateCounts_entries (total : Q) (regions : list Region) :
  Forall (fun r => (0 <= region_area r)%Q) regions ->
  (0 < total_area regions)%Q ->
  NoDup (map region_name regions) ->
  Z.max 0 (js_floor total) <> 0 ->
  exists (sorted : list RawShare) (k : nat),
    Permutation sorted
      (map (fun r => mkRaw (region_name r) (exact_share total regions r)
                           (js_floor (exact_share total regions r))
                           (exact_share total regions r
                            - inject_Z (js_floor (exact_share total regions r))))
           regions) /\
    sorted = sort_by_frac
               (map (fun r => mkRaw (region_name r) (exact_share total regions r)
                           (js_floor (exact_share total regions r))
                           (exact_share total regions r
                            - inject_Z (js_floor (exact_share total regions r))))
                    regions) /\
    (k < length sorted)%nat /\
    forall r', In r' (bump_range sorted 0 k) ->
      get_count (allocateCounts total regions) (raw_name r') = raw_base r'.
Proof.
  intros Hareas HA Hnd HT.
  unfold allocateCounts. fold (total_area regions).
  set (T := Z.max 0 (js_floor total)) in *.
  destruct (Z.eqb_spec T 0) as [E|_]; [contradiction|].
  assert (Hb : Qle_bool (total_area regions) 0 = false).
  { destruct (Qle_bool (total_area regions) 0) eqn:Eb; [|reflexivity].
    apply Qle_bool_iff in Eb. lra. }
  rewrite Hb. cbn [orb]. cbv zeta.
  change (fun r : Region =>
            mkRaw (region_name r)
                  (region_area r / total_area regions * inject_Z T)
                  (js_floor (region_area r / total_area regions * inject_Z T))
                  (region_area r / total_area regions * inject_Z T
                   - inject_Z (js_floor (region_area r / total_area regions
                                         * inject_Z T))))
    with (fun r : Region =>
            mkRaw (region_name r) (exact_share total regions r)
                  (js_floor (exact_share total regions r))
                  (exact_share total regions r
                   - inject_Z (js_floor (exact_share total regions r)))).
  set (raw0 := map _ regions).
  assert (Hne : regions <> []) by now apply total_area_nonempty.
  assert (Hbases : map raw_base raw0 =
                   map (fun r => js_floor (region_area r / total_area regions
                                           * inject_Z T)) regions).
  { unfold raw0. rewrite map_map. reflexivity. }
  assert (Hnn0 : Forall (fun r => 0 <= raw_base r) raw0).
  { unfold raw0. apply Forall_map. eapply Forall_impl; [|exact Hareas].
    intros r Hr. cbn [raw_base]. apply Qfloor_nonneg.
    apply share_nonneg; [exact Hr | exact HA | unfold T; lia]. }
  assert (Hlen0 : length raw0 = length regions)
    by (unfold raw0; now rewrite length_map).
  assert (Hused : 0 <= T - sumZ (map raw_base raw0) < len regions).
  { pose proof (floor_shares_le (total_area regions) T regions 0 HA
                  ltac:(unfold T; lia)) as Hle.
    pose proof (frac_shares_lt (total_area regions) T regions 0 HA Hne)
      as Hlt.
    fold (total_area regions) in Hle, Hlt. rewrite <- Hbases in Hle, Hlt.
    split.
    - assert (sumZ (map raw_base raw0) <= T); [|lia].
      rewrite Zle_Qle. apply (Qmult_le_r _ _ (total_area regions) HA).
      eapply Qle_trans; [exact Hle|]. apply Qle_lteq. right. ring.
    - assert (T < sumZ (map raw_base raw0) + len regions); [|lia].
      rewrite Zlt_Qlt, inject_Z_plus.
      apply (Qmult_lt_r _ _ (total_area regions) HA).
      eapply Qle_lt_trans; [|exact Hlt]. apply Qle_lteq. right. ring. }
  rewrite fold_left_bases, Z.add_0_l.
  set (k := Z.to_nat (T - sumZ (map raw_base raw0))).
  set (sorted := sort_by_frac raw0).
  pose proof (sort_by_frac_perm raw0) as Hperm. fold sorted in Hperm.
  assert (Hlen : length sorted = length regions)
    by (rewrite <- Hlen0; now apply Permutation_length).
  assert (Hk : (k < length sorted)%nat) by (unfold k, len in *; lia).
  pose proof (award_range k 0 sorted ltac:(simpl; lia)) as Haw.
  change (Z.of_nat 0) with 0 in Haw. rewrite Haw.
  set (raw1 := bump_range sorted 0 k) in *.
  pose proof (bump_range_entries sorted 0 k) as Hent. fold raw1 in Hent.
  assert (Hnames : map raw_name raw1 = map raw_name sorted).
  { clear -Hent. induction Hent as [|a b l l' (Hn & _) _ IH];
      [reflexivity|]. cbn [map]. now rewrite Hn, IH. }
  assert (Hnd1 : NoDup (map raw_name raw1)).
  { rewrite Hnames.
    apply (Permutation_NoDup_map raw_name raw0 sorted);
      [now symmetry|].
    unfold raw0. rewrite map_map. exact Hnd. }
  assert (Hsum1 : sumZ (map raw_base raw1) = T).
  { rewrite <- Haw. rewrite award_sum.
    - rewrite (sumZ_perm _ (map raw_base raw0))
        by (apply Permutation_map; exact Hperm).
      unfold k. lia.
    - lia.
    - intros Es. rewrite Es in Hlen. simpl in Hlen.
      destruct regions; [contradiction|discriminate]. }
  set (out := fold_left _ raw1 zero_counts).
  assert (Htot : sum_counts out = T).
  { rewrite sum_counts_total. unfold out.
    rewrite fold_counts_total; [|exact Hnd1|].
    - rewrite Hsum1. reflexivity.
    - intros n _. now destruct n. }
  rewrite Htot, Z.eqb_refl. cbn [negb].
  exists sorted, k. split; [exact Hperm|]. split; [reflexivity|].
  split; [exact Hk|].
  intros r' Hin. unfold out. now apply fold_counts_get.
Qed.

Lemma Forall2_combine_In {A B} (R : A -> B -> Prop) (l : list A)
    (l' : list B) (a : A) (b : B) :
  Forall2 R l l' -> In (a, b) (combine l l') -> R a b.
Proof.
  induction 1 as [|x y l l' Hxy _ IH]; [contradiction|].
  cbn [combine]. intros [[= -> ->]|Hin]; [exact Hxy | now apply IH].
Qed.

Lemma In_combine_exists {A B} (l : list A) (l' : list B) (a : A) :
  length l = length l' -> In a l -> exists b, In (a, b) (combine l l').
Proof.
  revert l'. induction l as [|x l IH]; intros [|y l'] Hlen Hin;
    try discriminate; [contradiction|].
  destruct Hin as [->|Hin].
  - exists y. now left.
  - destruct (IH l' ltac:(simpl in Hlen; lia) Hin) as [b Hb].
    exists b. now right.
Qed.

Lemma bump_range_length (l : list RawShare) (i k : nat) :
  length (bump_range l i k) = length l.
Proof.
  pose proof (bump_range_entries l i k) as H.
  symmetry. eapply Forall2_length. exact H.
Qed.

(** The entry of every region and the count it ends up with. *)
Lemma allocateCounts_pairs (total : Q) (regions : list Region) :
  Forall (fun r => (0 <= region_area r)%Q) regions ->
  (0 < total_area regions)%Q ->
  NoDup (map region_name regions) ->
  Z.max 0 (js_floor total) <> 0 ->
  exists k : nat,
    forall r, In r regions ->
      exists x',
        In (raw_share total regions r, x')
           (combine (sort_by_frac (map (raw_share total regions) regions))
                    (bump_range
                       (sort_by_frac (map (raw_share total regions) regions))
                       0 k)) /\
        get_count (allocateCounts total regions) (region_name r)
          = raw_base x'.
Proof.
  intros Hareas HA Hnd HT.
  destruct (allocateCounts_entries total regions Hareas HA Hnd HT)
    as (sorted & k & Hperm & -> & _ & Hget).
  change (fun r : Region =>
            mkRaw (region_name r) (exact_share total regions r)
                  (js_floor (exact_share total regions r))
                  (exact_share total regions r
                   - inject_Z (js_floor (exact_share total regions r))))
    with (raw_share total regions) in *.
  set (sorted := sort_by_frac (map (raw_share total regions) regions)) in *.
  exists k. intros r Hr.
  assert (Hin : In (raw_share total regions r) sorted).
  { eapply Permutation_in; [symmetry; exact Hperm|].
    now apply in_map. }
  destruct (In_combine_exists sorted (bump_range sorted 0 k) _
              ltac:(now rewrite bump_range_length) Hin) as [x' Hx'].
  exists x'. split; [exact Hx'|].
  pose proof (Forall2_combine_In _ _ _ _ _ (bump_range_entries sorted 0 k) Hx')
    as (Hname & _ & _).
  cbn [raw_share raw_name] in Hname. rewrite <- Hname.
  apply Hget. eapply in_combine_r. exact Hx'.
Qed.

(** X5. For regions with distinct names and non-negative areas, of positive
    combined area, the count of every region is its exact share
    [area / ringArea * total] rounded down, or one more. *)
Theorem allocateCounts_proportional (total : Q) (regions : list Region) :
  Forall (fun r => (0 <= region_area r)%Q) regions ->
  (0 < total_area regions)%Q ->
  NoDup (map region_name regions) ->
  forall r, In r regions ->
    let c := get_count (allocateCounts total regions) (region_name r) in
    c = js_floor (exact_share total regions r) \/
    c = js_floor (exact_share total regions r) + 1.
Proof.
  intros Hareas HA Hnd r Hr c. subst c.
  destruct (Z.eq_dec (Z.max 0 (js_floor total)) 0) as [E|E].
  - left. rewrite allocateCounts_degenerate by now left.
    unfold exact_share. rewrite E.
    assert (H0 : (region_area r / total_area regions * inject_Z 0 == 0)%Q)
      by (change (inject_Z 0) with 0%Q; ring).
    unfold js_floor. rewrite (Qfloor_comp _ _ H0).
    now destruct (region_name r).
  - destruct (allocateCounts_pairs total regions Hareas HA Hnd E) as [k Hk].
    destruct (Hk r Hr) as (x' & Hx' & ->).
    pose proof (Forall2_combine_In _ _ _ _ _ (bump_range_entries _ 0 k) Hx')
      as (_ & _ & Hbase).
    exact Hbase.
Qed.

Lemma allocateCounts_proportional_witness :
  let regions := snd (computeRegions 100 (1 # 2)) in
  let r := hd (mkRegion Top (rectZ 0 0 0 0) 0) regions in
  get_count (allocateCounts 13 regions) (region_name r)
    = js_floor (exact_share 13 regions r) \/
  get_count (allocateCounts 13 regions) (region_name r)
    = js_floor (exact_share 13 regions r) + 1.
Proof.
  intros regions r.
  apply (allocateCounts_proportional 13 regions).
  - cbn [computeRegions snd regions]. repeat constructor; vm_compute;
      discriminate.
  - vm_compute. reflexivity.
  - cbn [computeRegions snd regions map region_name].
    repeat constructor; simpl; intuition discriminate.
  - left. reflexivity.
Defined.

(** *** The largest remainders come first *)

Lemma insert_by_frac_sorted (a : RawShare) (l : list RawShare) :
  StronglySorted (fun x y => (raw_frac y <= raw_frac x)%Q) l ->
  StronglySorted (fun x y => (raw_frac y <= raw_frac x)%Q)
                 (insert_by_frac a l).
Proof.
  induction 1 as [|b l Hl IH Hb]; cbn [insert_by_frac].
  - constructor; constructor.
  - destruct (Qle_bool (raw_frac b) (raw_frac a)) eqn:E.
    + apply Qle_bool_iff in E. constructor.
      * now constructor.
      * constructor; [exact E|].
        eapply Forall_impl; [|exact Hb]. intros c Hc. cbv beta in Hc. lra.
    + assert (Hlt : (raw_frac a < raw_frac b)%Q).
      { apply Qnot_le_lt. intros H. apply Qle_bool_iff in H. congruence. }
      constructor; [exact IH|].
      eapply Permutation_Forall;
        [symmetry; apply insert_by_frac_perm|].
      constructor; [lra | exact Hb].
Qed.

Lemma sort_by_frac_sorted (l : list RawShare) :
  StronglySorted (fun x y => (raw_frac y <= raw_frac x)%Q) (sort_by_frac l).
Proof.
  induction l as [|a l IH]; [constructor|].
  cbn [sort_by_frac fold_right]. now apply insert_by_frac_sorted.
Qed.

Lemma In_combine_same {A} (l : list A) (a b : A) :
  In (a, b) (combine l l) -> a = b.
Proof.
  induction l as [|x l IH]; [contradiction|].
  cbn [combine]. intros [[= <- <-]|H]; [reflexivity | now apply IH].
Qed.

(** In a list sorted by falling fractional part, an entry that got a unit
    has a fractional part at least as large as one that got none. *)
Lemma bump_range_largest (l : list RawShare) (k : nat)
    (a a' b b' : RawShare) :
  StronglySorted (fun x y => (raw_frac y <= raw_frac x)%Q) l ->
  In (a, a') (combine l (bump_range l 0 k)) ->
  In (b, b') (combine l (bump_range l 0 k)) ->
  raw_base a' = raw_base a + 1 -> raw_base b' = raw_base b ->
  (raw_frac b <= raw_frac a)%Q.
Proof.
  intros Hs. revert k. induction Hs as [|x l Hl IH Hx]; intros k Ha Hb Ea Eb;
    [contradiction|].
  destruct k as [|k].
  - rewrite bump_range_none in Ha. apply In_combine_same in Ha. subst a'. lia.
  - cbn [bump_range combine] in Ha, Hb.
    destruct Ha as [[= <- <-]|Ha], Hb as [[= <- <-]|Hb].
    + apply Qle_refl.
    + apply in_combine_l in Hb. rewrite Forall_forall in Hx. now apply Hx.
    + cbn [raw_base] in Eb. lia.
    + eapply IH; eassumption.
Qed.

(** X6. The units left over after flooring go to the largest fractional
    parts: among regions with distinct names, a region whose count is its
    floored share plus one has a fractional part at least as large as any
    region whose count is its floored share. *)
Theorem allocateCounts_largest_remainder (total : Q)
    (regions : list Region) :
  Forall (fun r => (0 <= region_area r)%Q) regions ->
  (0 < total_area regions)%Q ->
  NoDup (map region_name regions) ->
  forall r s, In r regions -> In s regions ->
    get_count (allocateCounts total regions) (region_name r)
      = js_floor (exact_share total regions r) + 1 ->
    get_count (allocateCounts total regions) (region_name s)
      = js_floor (exact_share total regions s) ->
    (share_frac total regions s <= share_frac total regions r)%Q.
Proof.
  intros Hareas HA Hnd r s Hr Hs Er Es.
  destruct (Z.eq_dec (Z.max 0 (js_floor total)) 0) as [E|E].
  - exfalso. rewrite allocateCounts_degenerate in Er by now left.
    unfold exact_share in Er. rewrite E in Er.
    assert (H0 : (region_area r / total_area regions * inject_Z 0 == 0)%Q)
      by (change (inject_Z 0) with 0%Q; ring).
    unfold js_floor in Er. rewrite (Qfloor_comp _ _ H0) in Er.
    change (Qfloor 0) with 0 in Er. destruct (region_name r); discriminate.
  - destruct (allocateCounts_pairs total regions Hareas HA Hnd E) as [k Hk].
    destruct (Hk r Hr) as (r' & Hr' & Cr).
    destruct (Hk s Hs) as (s' & Hs' & Cs).
    unfold share_frac.
    eapply (bump_range_largest _ k _ r' _ s');
      [apply sort_by_frac_sorted | exact Hr' | exact Hs' | |].
    + rewrite <- Cr, Er. reflexivity.
    + rewrite <- Cs, Es. reflexivity.
Qed.

Lemma allocateCounts_largest_remainder_witness :
  let regions := snd (computeRegions 100 (1 # 2)) in
  let r := nth 0 regions (mkRegion Top (rectZ 0 0 0 0) 0) in
  let s := nth 1 regions (mkRegion Top (rectZ 0 0 0 0) 0) in
  (share_frac 13 regions s <= share_frac 13 regions r)%Q.
Proof.
  intros regions r s.
  apply (allocateCounts_largest_remainder 13 regions).
  - cbn [computeRegions snd regions]. repeat constructor; vm_compute;
      discriminate.
  - vm_compute. reflexivity.
  - cbn [computeRegions snd regions map region_name].
    repeat constructor; simpl; intuition discriminate.
  - left. reflexivity.
  - right. left. reflexivity.
  - vm_compute. reflexivity.
  - vm_compute. reflexivity.
Defined.

(** ** The grid packer: feasibility and gaps *)

(** A row count that is feasible with a gap is feasible with any smaller
    gap. *)
Lemma feasible_gap_mono (n width height g g' rows : Z) :
  0 <= g <= g' ->
  feasible n width height g' rows -> feasible n width height g rows.
Proof.
  intros Hg (Hrange & Hh & Hw).
  split; [exact Hrange|]. split; [nia|].
  intros r Hr. specialize (Hw r Hr).
  pose proof (rowCount_bounds n rows r ltac:(lia)) as Hb. nia.
Qed.

Lemma computeBestRowsNoWaste_none (ln : Q -> Q) (n width height gap : Z) :
  1 <= n -> 1 <= width -> 1 <= height -> 0 <= gap ->
  computeBestRowsNoWaste ln (inject_Z n) (inject_Z width) (inject_Z height)
                         (inject_Z gap) = None
  <-> forall rows, ~ feasible n width height gap rows.
Proof.
  intros Hn Hw Hh Hg.
  pose proof (computeBestRowsNoWaste_best ln n width height gap Hn Hw Hh Hg)
    as Hbest.
  destruct (computeBestRowsNoWaste ln _ _ _ _) as [b|]; cbn in Hbest.
  - split; [discriminate|]. intros Hno. exfalso. apply (Hno b), Hbest.
  - split; [intros _; exact Hbest | reflexivity].
Qed.

(** X7. For a count and a rectangle of at least 1, without a gap,
    [computeBestRowsNoWaste] returns [null] exactly when the count exceeds
    the number of pixels of the rectangle; and whenever it returns [null]
    for a gap, it does so for every larger gap. *)
Theorem computeBestRowsNoWaste_null (ln : Q -> Q) (n width height : Z) :
  1 <= n -> 1 <= width -> 1 <= height ->
  (computeBestRowsNoWaste ln (inject_Z n) (inject_Z width) (inject_Z height) 0
     = None <-> width * height < n) /\
  (forall g g', 0 <= g <= g' ->
     computeBestRowsNoWaste ln (inject_Z n) (inject_Z width)
                            (inject_Z height) (inject_Z g) = None ->
     computeBestRowsNoWaste ln (inject_Z n) (inject_Z width)
                            (inject_Z height) (inject_Z g') = None).
Proof.
  intros Hn Hw Hh. split.
  - change 0%Q with (inject_Z 0).
    rewrite computeBestRowsNoWaste_none by lia. split.
    + intros Hno. destruct (Z.lt_ge_cases (width * height) n) as [H|H];
        [exact H|].
      exfalso. apply (Hno (Z.min n height)).
      apply feasible_without_gap; lia.
    + intros Hcap rows. apply infeasible_over_capacity; lia.
  - intros g g' Hg. rewrite !computeBestRowsNoWaste_none by lia.
    intros Hno rows Hf. apply (Hno rows).
    now apply feasible_gap_mono with g'.
Qed.

Lemma computeBestRowsNoWaste_null_witness :
  computeBestRowsNoWaste ln_approx (inject_Z 5) (inject_Z 2) (inject_Z 2) 0
    = None.
Proof.
  destruct (computeBestRowsNoWaste_null ln_approx 5 2 2
              ltac:(lia) ltac:(lia) ltac:(lia)) as [[_ H] _].
  apply H. lia.
Defined.

(** ** The cells of a grid *)

Lemma row_cells_pixel (x y h gap : Z) (ws : list Z) :
  1 <= h -> Forall (fun w => 1 <= w) ws ->
  Forall pixel_cell (row_cells x y h gap ws).
Proof.
  intros Hh Hws. revert x. induction Hws as [|w ws Hw _ IH]; intros x;
    [constructor|].
  cbn [row_cells]. constructor; [|apply IH].
  exists x, y, w, h. auto.
Qed.

Lemma row_cells_area (x y h gap : Z) (ws : list Z) :
  (total_cell_area (row_cells x y h gap ws) == inject_Z (h * sumZ ws)%Z)%Q.
Proof.
  revert x. induction ws as [|w ws IH]; intros x.
  - cbn [row_cells total_cell_area fold_right sumZ]. rewrite Z.mul_0_r.
    reflexivity.
  - cbn [row_cells total_cell_area fold_right sumZ].
    fold (total_cell_area (row_cells (x + w + gap) y h gap ws)).
    fold (sumZ ws). rewrite IH.
    unfold cell_area, rectZ. cbn [rect_width rect_height].
    rewrite <- inject_Z_mult, <- inject_Z_plus.
    apply inject_Z_injective. lia.
Qed.

Lemma total_cell_area_app (l1 l2 : list Rect) :
  (total_cell_area (l1 ++ l2) == total_cell_area l1 + total_cell_area l2)%Q.
Proof.
  induction l1 as [|c l1 IH].
  - cbn [app]. unfold total_cell_area at 2. cbn [fold_right].
    symmetry. apply Qplus_0_l.
  - cbn [app]. unfold total_cell_area at 1 2. cbn [fold_right].
    fold (total_cell_area (l1 ++ l2)). fold (total_cell_area l1).
    rewrite IH. apply Qplus_assoc.
Qed.

Lemma grid_cells_pixel (x0 y gap : Z) (rows : list (Z * list Z)) :
  Forall (fun row => 1 <= fst row /\ Forall (fun w => 1 <= w) (snd row)) rows ->
  Forall pixel_cell (grid_cells x0 y gap rows).
Proof.
  intros Hrows. revert y.
  induction Hrows as [|[h ws] rows [Hh Hws] _ IH]; intros y; [constructor|].
  cbn [grid_cells]. apply Forall_app. split; [|apply IH].
  now apply row_cells_pixel.
Qed.

Lemma grid_cells_area (x0 y gap : Z) (rows : list (Z * list Z)) :
  (total_cell_area (grid_cells x0 y gap rows)
   == inject_Z (sumZ (map (fun row => (fst row * sumZ (snd row))%Z) rows)))%Q.
Proof.
  revert y. induction rows as [|[h ws] rows IH]; intros y; [reflexivity|].
  cbn [grid_cells map sumZ fold_right fst snd].
  fold (sumZ (map (fun row => fst row * sumZ (snd row)) rows)).
  rewrite total_cell_area_app, row_cells_area, IH, <- inject_Z_plus.
  reflexivity.
Qed.

(** Rows and cells of the grid of a feasible row count are at least one
    pixel high and wide, and the widths of a row with their gaps add up to
    the width of the rectangle. *)
Lemma grid_rows_positive (n width height gap rows : Z) :
  0 <= gap -> feasible n width height gap rows ->
  Forall (fun row =>
            (1 <= fst row /\ Forall (fun w => 1 <= w) (snd row)) /\
            sumZ (snd row) + gap * (len (snd row) - 1) = width)
         (grid_rows n width height gap rows).
Proof.
  intros Hgap Hf. pose proof (rowCounts_fit _ _ _ _ _ Hf) as Hfit.
  destruct Hf as (Hrange & Hh & _). unfold grid_rows.
  eapply Forall_impl;
    [|apply (Forall_combine (fun h => 1 <= h)
               (fun ws => Forall (fun w => 1 <= w) ws /\
                          sumZ ws + gap * (len ws - 1) = width))].
  - intros row [H1 [H2 H3]]. auto.
  - eapply Forall_impl; [|apply distribute_int_lower; lia].
    intros h Hlow. cbv beta in Hlow.
    assert (1 <= (height - gap * (rows - 1)) / rows)
      by (apply Z.div_le_lower_bound; lia).
    lia.
  - apply Forall_map. eapply Forall_impl; [|exact Hfit].
    intros rc [H1 H2]. unfold row_widths. split.
    + eapply Forall_impl; [|apply distribute_int_lower; lia].
      intros w Hlow. cbv beta in Hlow.
      assert (1 <= (width - gap * (rc - 1)) / rc)
        by (apply Z.div_le_lower_bound; lia).
      lia.
    + rewrite distribute_int_sum, distribute_int_length by lia. lia.
Qed.

Lemma rows_area_full (W : Z) (l : list (Z * list Z)) :
  Forall (fun row => sumZ (snd row) = W) l ->
  sumZ (map (fun row => fst row * sumZ (snd row)) l) = W * sumZ (map fst l).
Proof.
  induction 1 as [|[h ws] l Hw _ IH]; [cbn [map sumZ fold_right]; lia|].
  cbn [map sumZ fold_right fst snd] in *.
  fold (sumZ (map (fun row => fst row * sumZ (snd row)) l)).
  fold (sumZ (map fst l)). rewrite IH, Hw. lia.
Qed.

(** Without a gap the grid leaves no pixel of the rectangle unused. *)
Lemma grid_rows_area (n width height rows : Z) :
  feasible n width height 0 rows ->
  sumZ (map (fun row => fst row * sumZ (snd row))
            (grid_rows n width height 0 rows)) = width * height.
Proof.
  intros Hf.
  pose proof (grid_rows_positive n width height 0 rows ltac:(lia) Hf) as Hpos.
  destruct (grid_rows_fit n width height 0 rows ltac:(lia) Hf) as [_ Hsum].
  rewrite Z.mul_0_l, Z.add_0_r in Hsum.
  rewrite (rows_area_full width).
  - now rewrite Hsum.
  - eapply Forall_impl; [|exact Hpos].
    intros row [_ Hw]. cbv beta in Hw. lia.
Qed.

Lemma buildCellsFilled_pixel_area (ln : Q -> Q) (rect : Rect) (count gap : Q) :
  Forall pixel_cell (buildCellsFilled ln rect count gap) /\
  (js_floor gap <= 0 -> buildCellsFilled ln rect count gap <> [] ->
   (total_cell_area (buildCellsFilled ln rect count gap)
    == inject_Z (js_round (rect_width rect) * js_round (rect_height rect))%Z)%Q).
Proof.
  destruct (buildCellsFilled_row_major ln rect count gap) as [->|Hgrid].
  { split; [constructor|]. intros _ H. contradiction. }
  destruct Hgrid as (g & rows & Hin & Hg & Hf & Hcells).
  rewrite Hcells. split.
  - apply grid_cells_pixel.
    eapply Forall_impl; [|apply grid_rows_positive; eassumption].
    intros row [H _]. exact H.
  - intros Hgap _.
    assert (E : g = 0).
    { rewrite (Z.max_l 0 (js_floor gap)) in Hin by lia.
      change (gap_chain 0) with [0; 0; 0; 0; 0] in Hin.
      cbn [In] in Hin. intuition lia. }
    subst g. rewrite grid_cells_area, grid_rows_area by exact Hf.
    reflexivity.
Qed.

(** X8. Every cell that [buildCellsFilled] returns has whole-pixel
    coordinates and is at least one pixel wide and one pixel high.  When the
    gap floors to 0 or less and cells are returned, their areas add up to
    the area of the rounded rectangle: no pixel is left unused. *)
Theorem buildCellsFilled_cells (ln : Q -> Q) (rect : Rect) (count gap : Q) :
  Forall pixel_cell (buildCellsFilled ln rect count gap) /\
  (js_floor gap <= 0 -> buildCellsFilled ln rect count gap <> [] ->
   (total_cell_area (buildCellsFilled ln rect count gap)
    == inject_Z (js_round (rect_width rect) * js_round (rect_height rect))%Z)%Q).
Proof. exact (buildCellsFilled_pixel_area ln rect count gap). Qed.

Lemma buildCellsFilled_cells_witness :
  (total_cell_area (buildCellsFilled ln_approx (rectZ 0 0 100 25) 7 0)
   == inject_Z (js_round (rect_width (rectZ 0 0 100 25))
                * js_round (rect_height (rectZ 0 0 100 25)))%Z)%Q.
Proof.
  destruct (buildCellsFilled_cells ln_approx (rectZ 0 0 100 25) 7 0)
    as [_ H].
  apply H.
  - vm_compute. discriminate.
  - vm_compute. discriminate.
Defined.

(** ** The gap that is used *)

(** X9. When some row count is feasible with the requested gap (floored,
    and not below 0), [buildCellsFilled] keeps that gap: it returns the
    row-major grid of a feasible row count with exactly that gap, on the
    first attempt, and the fallback to smaller gaps is not used. *)
Theorem buildCellsFilled_keeps_gap (ln : Q -> Q) (rect : Rect)
    (count gap : Q) (rows0 : Z) :
  let n := Z.max 0 (js_floor count) in
  let g := Z.max 0 (js_floor gap) in
  let W := js_round (rect_width rect) in
  let H := js_round (rect_height rect) in
  feasible n W H g rows0 ->
  exists rows,
    feasible n W H g rows /\
    buildCellsFilled ln rect count gap =
      grid_cells (js_round (rect_x rect)) (js_round (rect_y rect)) g
                 (grid_rows n W H g rows).
Proof.
  intros n g W H Hf0.
  assert (Hg : 0 <= g) by (unfold g; lia).
  assert (Hn : 1 <= n) by (destruct Hf0 as (Hr & _); lia).
  assert (HH : 1 <= H) by (destruct Hf0 as (Hr & _); lia).
  assert (HW : 1 <= W).
  { destruct Hf0 as (Hr & _ & Hw).
    pose proof (Hw 0 ltac:(lia)) as H0.
    pose proof (rowCount_bounds n rows0 0 ltac:(lia)). nia. }
  unfold buildCellsFilled. fold n g.
  destruct (Z.eqb_spec n 0); [lia|].
  cbn [attempts].
  rewrite (tryBuildCellsFilled_grid ln rect n g Hn Hg HW HH).
  fold W H.
  pose proof (computeBestRowsNoWaste_best ln n W H g Hn HW HH Hg) as Hbest.
  destruct (computeBestRowsNoWaste ln _ _ _ _) as [rows|].
  - exists rows. split; [apply Hbest | reflexivity].
  - exfalso. exact (Hbest rows0 Hf0).
Qed.

Lemma buildCellsFilled_keeps_gap_witness :
  exists rows,
    feasible 4 10 10 2 rows /\
    buildCellsFilled ln_approx (rectZ 0 0 10 10) 4 2 =
      grid_cells 0 0 2 (grid_rows 4 10 10 2 rows).
Proof.
  apply (buildCellsFilled_keeps_gap ln_approx (rectZ 0 0 10 10) 4 2 2).
  split; [vm_compute; split; discriminate|].
  split; [vm_compute; discriminate|].
  intros r Hr. assert (E : r = 0 \/ r = 1) by lia.
  destruct E as [->| ->]; vm_compute; discriminate.
Defined.

(** ** The layout as a whole *)

Lemma layout_gap_bounds (ln : Q -> Q) (options : CollageLayoutOptions) :
  (0 <= layout_gap (computeCollageLayout ln options)
     <= inject_Z (layout_canvas options / 8))%Q.
Proof.
  destruct (layout_fields ln options) as (_ & -> & _).
  assert (E : js_floor (inject_Z (layout_canvas options) / 8)
              = layout_canvas options / 8).
  { unfold js_floor. change 8%Q with (inject_Z 8).
    rewrite Qfloor_div_int by lia. now rewrite Qfloor_Z. }
  rewrite E. apply clamp_bounds.
  change 0%Q with (inject_Z 0). rewrite <- Zle_Qle.
  apply Z.div_pos; [unfold layout_canvas; lia | lia].
Qed.

Lemma ringCells_pixel (ln : Q -> Q) (options : CollageLayoutOptions) :
  Forall pixel_cell (ringCells (computeCollageLayout ln options)).
Proof.
  destruct (layout_fields ln options) as (_ & _ & _ & ->).
  rewrite flat_map_concat_map. apply Forall_concat.
  apply Forall_map. apply Forall_forall. intros region _.
  apply buildCellsFilled_pixel_area.
Qed.

(** X10. The layout is a canvas of [max(64, floor(size))] pixels; its gap
    is the requested gap clamped between 0 and an eighth of the canvas,
    rounded down: the request itself within these bounds, 0 for a request
    below 0 and the bound for a request above it; the main rectangle is a
    centred square with a ring of whole pixels around it; and every ring
    cell has whole-pixel coordinates and is at least one pixel wide and
    high. *)
Theorem computeCollageLayout_shape (ln : Q -> Q)
    (options : CollageLayoutOptions) :
  let layout := computeCollageLayout ln options in
  let bound := inject_Z (layout_size layout / 8) in
  layout_size layout = Z.max 64 (js_floor (opt_size options)) /\
  (0 <= layout_gap layout <= bound)%Q /\
  ((0 <= opt_gap options <= bound)%Q ->
   (layout_gap layout == opt_gap options)%Q) /\
  ((opt_gap options <= 0)%Q -> (layout_gap layout == 0)%Q) /\
  ((bound <= opt_gap options)%Q -> (layout_gap layout == bound)%Q) /\
  (exists mainSize ringT : Z,
     2 <= mainSize /\ 2 <= ringT /\
     layout_size layout = ringT + mainSize + ringT /\
     rect_eq (mainRect layout) (rectZ ringT ringT mainSize mainSize)) /\
  Forall pixel_cell (ringCells layout).
Proof.
  intros layout bound. subst layout bound.
  pose proof (layout_gap_bounds ln options) as Hgap.
  destruct (layout_fields ln options) as (Hsize & Hg & Hmain & _).
  rewrite Hsize. split; [reflexivity|]. split; [exact Hgap|]. clear Hgap.
  assert (E : js_floor (inject_Z (layout_canvas options) / 8)
              = layout_canvas options / 8).
  { unfold js_floor. change 8%Q with (inject_Z 8).
    rewrite Qfloor_div_int by lia. now rewrite Qfloor_Z. }
  assert (Hb : (0 <= inject_Z (layout_canvas options / 8))%Q).
  { change 0%Q with (inject_Z 0). rewrite <- Zle_Qle.
    apply Z.div_pos; [unfold layout_canvas; lia | lia]. }
  rewrite Hg, E. fold (layout_canvas options). unfold clamp.
  split; [|split; [|split]].
  - intros Hin. rewrite (Q.max_r 0 (opt_gap options)) by apply Hin.
    apply Q.min_r, Hin.
  - intros Hneg. rewrite (Q.max_l 0 (opt_gap options)) by exact Hneg.
    now apply Q.min_r.
  - intros Hbig. apply Q.min_l.
    eapply Qle_trans; [exact Hbig | apply Q.le_max_r].
  - split; [|apply ringCells_pixel].
    destruct (computeRegions_shape (layout_canvas options)
                (opt_mainRatio options) (size_ge_64 options))
      as (m & t & Hm & Ht & Hsz & Hrect & _).
    exists m, t. rewrite Hmain.
    split; [exact Hm|]. split; [exact Ht|]. split; [lia | exact Hrect].
Qed.

Lemma computeCollageLayout_shape_witness :
  (layout_gap (computeCollageLayout ln_approx (mkOptions 100 (1 # 2) 1000 12))
   == 12)%Q /\
  (layout_gap (computeCollageLayout ln_approx (mkOptions 100 (1 # 2) (-3) 12))
   == 0)%Q.
Proof.
  split.
  - destruct (computeCollageLayout_shape ln_approx
                (mkOptions 100 (1 # 2) 1000 12)) as (_ & _ & _ & _ & H & _).
    apply H. vm_compute. discriminate.
  - destruct (computeCollageLayout_shape ln_approx
                (mkOptions 100 (1 # 2) (-3) 12)) as (_ & _ & _ & H & _).
    apply H. vm_compute. discriminate.
Defined.

Lemma region_capacity (rect : Rect) (X Y W H : Z) :
  0 <= W -> 0 <= H -> rect_eq rect (rectZ X Y W H) -> capacity rect = W * H.
Proof.
  intros HW HH (_ & _ & Ew & Eh). unfold capacity.
  cbn [rectZ rect_width rect_height] in *.
  rewrite (js_round_int _ _ Ew), (js_round_int _ _ Eh). lia.
Qed.

(** The smallest region has at least [size - 2] pixels. *)
Lemma regions_capacity_min (options : CollageLayoutOptions) :
  Forall (fun region =>
            layout_canvas options - 2 <= capacity (region_rect region))
         (layout_regions options).
Proof.
  destruct (computeRegions_shape (layout_canvas options)
              (opt_mainRatio options) (size_ge_64 options))
    as (m & t & Hm & Ht & Hsz & _ & _ & Hrects & _).
  fold (layout_regions options) in Hrects.
  rewrite <- (Forall_map region_rect
                (fun rect => layout_canvas options - 2 <= capacity rect)).
  eapply Forall2_Forall_l with
    (Q := fun b => exists X Y W H, 0 <= W /\ 0 <= H /\
                     layout_canvas options - 2 <= W * H /\
                     b = rectZ X Y W H);
    [|exact Hrects|].
  - intros a b Hab (X & Y & W & H & HW & HH & Hcap & ->).
    now rewrite (region_capacity a X Y W H HW HH Hab).
  - unfold ring_rects.
    repeat (apply Forall_cons;
            [do 4 eexists; repeat split; [| |nia]; lia|]).
    apply Forall_nil.
Qed.

(** When every count fits its region the ring holds all the images. *)
Lemma ringCells_full (ln : Q -> Q) (options : CollageLayoutOptions) :
  Forall (fun region =>
            get_count (layout_counts options) (region_name region)
              <= capacity (region_rect region))
         (layout_regions options) ->
  len (ringCells (computeCollageLayout ln options))
    = Z.max 0 (js_floor (opt_othersCount options)).
Proof.
  intros Hfit. rewrite ringCells_length.
  rewrite <- (counts_sum options).
  pose proof (counts_over_regions options (fun c _ => c)) as Hall.
  cbv beta in Hall. fold (counts_total (layout_counts options)) in Hall.
  rewrite <- Hall. f_equal.
  apply map_ext_Forall. eapply Forall_impl; [|exact Hfit].
  intros r Hr. cbv beta in Hr. unfold region_cells_count.
  destruct (Z.leb_spec (get_count (layout_counts options) (region_name r))
                       (capacity (region_rect r))); [reflexivity|lia].
Qed.

Lemma counts_le_total (options : CollageLayoutOptions) (k : RegionName) :
  get_count (layout_counts options) k
    <= Z.max 0 (js_floor (opt_othersCount options)).
Proof.
  pose proof (counts_sum options) as Hsum. rewrite counts_total_get in Hsum.
  pose proof (counts_nonneg options Top).
  pose proof (counts_nonneg options Right).
  pose proof (counts_nonneg options Bottom).
  pose proof (counts_nonneg options Left).
  destruct k; lia.
Qed.

Lemma ringCells_small (ln : Q -> Q) (options : CollageLayoutOptions) :
  Z.max 0 (js_floor (opt_othersCount options)) <= layout_canvas options - 2 ->
  len (ringCells (computeCollageLayout ln options))
    = Z.max 0 (js_floor (opt_othersCount options)).
Proof.
  intros Hsmall. apply ringCells_full.
  eapply Forall_impl; [|apply regions_capacity_min].
  intros region Hcap. cbv beta in Hcap.
  pose proof (counts_le_total options (region_name region)). lia.
Qed.

(** X11. A layout never drops an image when there are at most [size - 2]
    of them, [size] being the side of the canvas: the ring then has exactly
    [max(0, floor(othersCount))] cells (62 images fit every canvas). *)
Theorem computeCollageLayout_enough_cells (ln : Q -> Q)
    (options : CollageLayoutOptions) :
  let layout := computeCollageLayout ln options in
  Z.max 0 (js_floor (opt_othersCount options)) <= layout_size layout - 2 ->
  len (ringCells layout) = Z.max 0 (js_floor (opt_othersCount options)).
Proof.
  intros layout Hsmall. subst layout.
  destruct (layout_fields ln options) as (Hsize & _).
  rewrite Hsize in Hsmall. now apply ringCells_small.
Qed.

Lemma computeCollageLayout_enough_cells_witness :
  len (ringCells (computeCollageLayout ln_approx (mkOptions 64 (95 # 100) 3 62)))
  = 62.
Proof.
  apply (computeCollageLayout_enough_cells ln_approx
           (mkOptions 64 (95 # 100) 3 62)).
  vm_compute. discriminate.
Defined.

(** X12. With no other image ([othersCount] below 1) the ring is empty;
    and the main rectangle depends on the size and the main ratio only, not
    on the count or the gap. *)
Theorem computeCollageLayout_no_others (ln : Q -> Q)
    (options : CollageLayoutOptions) :
  ((opt_othersCount options < 1)%Q ->
   ringCells (computeCollageLayout ln options) = []) /\
  (forall gap' count',
     mainRect (computeCollageLayout ln
                 (mkOptions (opt_size options) (opt_mainRatio options)
                            gap' count'))
     = mainRect (computeCollageLayout ln options)).
Proof.
  split.
  - intros Hlt. apply len_nil_iff.
    rewrite ringCells_full.
    + assert (js_floor (opt_othersCount options) < 1); [|lia].
      pose proof (Qfloor_le (opt_othersCount options)) as Hfl.
      unfold js_floor. rewrite Zlt_Qlt. change (inject_Z 1) with 1%Q. lra.
    + assert (E : Z.max 0 (js_floor (opt_othersCount options)) = 0).
      { assert (js_floor (opt_othersCount options) < 1); [|lia].
        pose proof (Qfloor_le (opt_othersCount options)) as Hfl.
        unfold js_floor. rewrite Zlt_Qlt. change (inject_Z 1) with 1%Q. lra. }
      apply Forall_forall. intros region _.
      pose proof (counts_le_total options (region_name region)) as Hle.
      rewrite E in Hle.
      assert (0 <= capacity (region_rect region)) by (unfold capacity; nia).
      lia.
  - intros gap' count'.
    destruct (layout_fields ln options) as (_ & _ & -> & _).
    destruct (layout_fields ln (mkOptions (opt_size options)
                (opt_mainRatio options) gap' count')) as (_ & _ & -> & _).
    reflexivity.
Qed.

Lemma computeCollageLayout_no_others_witness :
  ringCells (computeCollageLayout ln_approx (mkOptions 100 (1 # 2) 4 (1 # 2)))
  = [].
Proof.
  destruct (computeCollageLayout_no_others ln_approx
              (mkOptions 100 (1 # 2) 4 (1 # 2))) as [H _].
  apply H. reflexivity.
Defined.

Lemma js_floor_clamp_small (gap hi : Q) :
  js_floor gap <= 0 -> js_floor (clamp gap 0 hi) <= 0.
Proof.
  intros Hg. unfold js_floor in *.
  assert (Hlt : (gap < 1)%Q).
  { pose proof (Qlt_floor gap) as H.
    eapply Qlt_le_trans; [exact H|].
    change 1%Q with (inject_Z 1). rewrite <- Zle_Qle. lia. }
  assert (Hc : (clamp gap 0 hi < 1)%Q).
  { unfold clamp. eapply Qle_lt_trans; [apply Q.le_min_r|].
    apply Q.max_lub_lt; [reflexivity | exact Hlt]. }
  pose proof (Qfloor_le (clamp gap 0 hi)) as Hfl.
  assert (Qfloor (clamp gap 0 hi) < 1); [|lia].
  rewrite Zlt_Qlt. change (inject_Z 1) with 1%Q. lra.
Qed.

(** X13. When the gap floors to 0 or less and every region gets at least
    one image and no more than it has pixels, the main rectangle and the
    ring cells cover the canvas: their areas add up to [size * size]. *)
Theorem computeCollageLayout_covers_canvas (ln : Q -> Q)
    (options : CollageLayoutOptions) :
  let layout := computeCollageLayout ln options in
  js_floor (opt_gap options) <= 0 ->
  Forall (fun region =>
            1 <= get_count (layout_counts options) (region_name region)
              <= capacity (region_rect region))
         (layout_regions options) ->
  (cell_area (mainRect layout) + total_cell_area (ringCells layout)
   == inject_Z (layout_size layout * layout_size layout))%Q.
Proof.
  intros layout Hgap Hfit. subst layout.
  destruct (layout_fields ln options) as (-> & _ & -> & ->).
  set (gap := clamp _ _ _).
  assert (Hg : js_floor gap <= 0) by now apply js_floor_clamp_small.
  destruct (computeRegions_shape (layout_canvas options)
              (opt_mainRatio options) (size_ge_64 options))
    as (m & t & Hm & Ht & Hsz & Hmain & _ & Hrects & _).
  fold (layout_regions options) in Hrects.
  assert (Harea : forall region X Y W H,
            In region (layout_regions options) ->
            0 <= W -> 0 <= H ->
            rect_eq (region_rect region) (rectZ X Y W H) ->
            (total_cell_area
               (buildCellsFilled ln (region_rect region)
                  (inject_Z (get_count (layout_counts options)
                                       (region_name region))) gap)
             == inject_Z (W * H))%Q).
  { intros region X Y W H Hin HW HH Heq.
    rewrite Forall_forall in Hfit. specialize (Hfit region Hin).
    destruct (buildCellsFilled_pixel_area ln (region_rect region)
                (inject_Z (get_count (layout_counts options)
                                     (region_name region))) gap) as [_ Ha].
    destruct (buildCellsFilled_length ln (region_rect region)
                (inject_Z (get_count (layout_counts options)
                                     (region_name region))) gap) as [Hl _].
    rewrite js_floor_inject in Hl. rewrite Z.max_r in Hl by lia.
    specialize (Hl ltac:(lia)).
    rewrite Ha; [|exact Hg|].
    - destruct Heq as (_ & _ & Ew & Eh).
      cbn [rectZ rect_width rect_height] in Ew, Eh.
      now rewrite (js_round_int _ _ Ew), (js_round_int _ _ Eh).
    - intros E. rewrite E in Hl. unfold len in Hl. simpl in Hl. lia. }
  pose proof (regions_names options) as Hnames.
  destruct (layout_regions options) as [|r1 [|r2 [|r3 [|r4 [|]]]]];
    try discriminate.
  unfold ring_rects in Hrects. cbn [map] in Hrects.
  rewrite !Forall2_cons_iff in Hrects.
  destruct Hrects as (H1 & H2 & H3 & H4 & _).
  cbn [flat_map]. rewrite !total_cell_area_app.
  rewrite (Harea r1 0 0 (layout_canvas options) t
             ltac:(simpl; tauto) ltac:(lia) ltac:(lia) H1).
  rewrite (Harea r2 (t + m) t t m
             ltac:(simpl; tauto) ltac:(lia) ltac:(lia) H2).
  rewrite (Harea r3 0 (t + m) (layout_canvas options) t
             ltac:(simpl; tauto) ltac:(lia) ltac:(lia) H3).
  rewrite (Harea r4 0 t t m
             ltac:(simpl; tauto) ltac:(lia) ltac:(lia) H4).
  unfold cell_area. destruct Hmain as (_ & _ & Ew & Eh).
  rewrite Ew, Eh. cbn [rectZ rect_width rect_height].
  unfold total_cell_area. cbn [fold_right].
  change 0%Q with (inject_Z 0).
  rewrite <- !inject_Z_mult, <- !inject_Z_plus.
  apply inject_Z_injective. nia.
Qed.

Lemma computeCollageLayout_covers_canvas_witness :
  let layout := computeCollageLayout ln_approx (mkOptions 100 (1 # 2) 0 12) in
  (cell_area (mainRect layout) + total_cell_area (ringCells layout)
   == inject_Z (layout_size layout * layout_size layout))%Q.
Proof.
  apply (computeCollageLayout_covers_canvas ln_approx
           (mkOptions 100 (1 # 2) 0 12)).
  - vm_compute. discriminate.
  - repeat constructor; vm_compute; discriminate.
Defined.

(** ** Cover fit: [drawImageCover] *)

(** Two roundings in a row, of a difference and of its half. *)
Lemma fl_half_error (d : Q) :
  (Qabs (fl (fl d / 2) - d / 2) <= Qabs d * (2 * eps))%Q.
Proof.
  pose proof (fl_error d) as H1. pose proof (fl_error (fl d / 2)) as H2.
  assert (Heps : (0 <= eps <= 1)%Q) by (split; vm_compute; discriminate).
  assert (Hd : (0 <= Qabs d)%Q) by apply Qabs_nonneg.
  assert (Hfd : (Qabs (fl d) <= Qabs d + Qabs d * eps)%Q).
  { assert (E : (fl d == d + (fl d - d))%Q) by ring.
    rewrite E at 1. eapply Qle_trans; [apply Qabs_triangle|]. lra. }
  assert (Hy : (Qabs (fl d / 2) == Qabs (fl d) * (1 # 2))%Q).
  { unfold Qdiv. rewrite Qabs_Qmult. reflexivity. }
  rewrite Hy in H2.
  assert (E : (fl (fl d / 2) - d / 2
               == (fl (fl d / 2) - fl d / 2) + (fl d - d) * (1 # 2))%Q)
    by field.
  rewrite E. eapply Qle_trans; [apply Qabs_triangle|].
  rewrite Qabs_Qmult. change (Qabs (1 # 2)) with (1 # 2)%Q.
  assert (H3 : (Qabs (fl d) * (1 # 2) * eps
                <= (Qabs d + Qabs d * eps) * (1 # 2) * eps)%Q).
  { apply Qmult_le_compat_r; [|lra]. apply Qmult_le_compat_r; lra. }
  assert (H4 : (eps * (Qabs d * eps) <= 1 * (Qabs d * eps))%Q).
  { apply Qmult_le_compat_r; [lra|]. apply Qmult_le_0_compat; lra. }
  assert (H5 : (0 <= Qabs d * eps)%Q) by (apply Qmult_le_0_compat; lra).
  lra.
Qed.

Section Cover.

Variables File Source : Type.

(** X14. [drawImageCover] draws nothing when the destination or the source
    has a width or height that is not positive.  Otherwise, for sizes far
    from the limits of the doubles, it issues one [drawImage] into the
    destination, from a window that starts at 0 or later and is at least
    one pixel wide and high.  Up to the rounding of the doubles (a relative
    [eps = 2^-53] on either side) the window, before these minima are
    applied, is no larger than the source, spans its whole width or its
    whole height, has the proportions of the destination and is centred in
    the source. *)
Theorem drawImageCover_spec (source : Source) (sourceW sourceH : Q)
    (dest : Rect) :
  ((rect_width dest <= 0 \/ rect_height dest <= 0 \/
    sourceW <= 0 \/ sourceH <= 0)%Q ->
   drawImageCover (File := File) source sourceW sourceH dest = []) /\
  (Forall (fun v => (pow2 (-300) <= v <= pow2 300)%Q)
          [rect_width dest; rect_height dest; sourceW; sourceH] ->
   exists sx sy sWidth sHeight : Q,
     drawImageCover (File := File) source sourceW sourceH dest
       = [EvDrawImage source (Qmax 0 sx) (Qmax 0 sy) (Qmax 1 sWidth)
                      (Qmax 1 sHeight) dest] /\
     (0 < sWidth)%Q /\ (0 < sHeight)%Q /\
     (sWidth * (1 - eps) <= sourceW * (1 + eps))%Q /\
     (sHeight * (1 - eps) <= sourceH * (1 + eps))%Q /\
     ((sourceW * (1 - eps) <= sWidth * (1 + eps))%Q \/
      (sourceH * (1 - eps) <= sHeight * (1 + eps))%Q) /\
     (sWidth * rect_height dest * (1 - eps)
      <= sHeight * rect_width dest * (1 + eps))%Q /\
     (sHeight * rect_width dest * (1 - eps)
      <= sWidth * rect_height dest * (1 + eps))%Q /\
     (Qabs (sx - (sourceW - sWidth) / 2)
      <= Qabs (sourceW - sWidth) * (2 * eps))%Q /\
     (Qabs (sy - (sourceH - sHeight) / 2)
      <= Qabs (sourceH - sHeight) * (2 * eps))%Q).
Proof.
  unfold drawImageCover. split.
  - intros H.
    assert (E : Qle_bool (rect_width dest) 0 || Qle_bool (rect_height dest) 0
                || Qle_bool sourceW 0 || Qle_bool sourceH 0 = true).
    { rewrite !orb_true_iff, !Qle_bool_iff. tauto. }
    now rewrite E.
  - intros Hrange.
    assert (Hp : (0 < pow2 (-300))%Q) by apply pow2_pos.
    assert (Hdw : (0 < rect_width dest)%Q).
    { pose proof (Forall_inv Hrange) as [H _]. cbv beta in H. lra. }
    assert (Hdh : (0 < rect_height dest)%Q).
    { pose proof (Forall_inv (Forall_inv_tail Hrange)) as [H _].
      cbv beta in H. lra. }
    assert (Hsw : (0 < sourceW)%Q).
    { pose proof (Forall_inv (Forall_inv_tail (Forall_inv_tail Hrange)))
        as [H _]. cbv beta in H. lra. }
    assert (Hsh : (0 < sourceH)%Q).
    { pose proof (Forall_inv (Forall_inv_tail (Forall_inv_tail
                    (Forall_inv_tail Hrange)))) as [H _].
      cbv beta in H. lra. }
    clear Hrange Hp.
    assert (E : Qle_bool (rect_width dest) 0 || Qle_bool (rect_height dest) 0
                || Qle_bool sourceW 0 || Qle_bool sourceH 0 = false).
    { rewrite !Qle_bool_pos by assumption. reflexivity. }
    rewrite E. cbv zeta.
    set (dw := rect_width dest) in *. set (dh := rect_height dest) in *.
    assert (He : (0 < eps)%Q /\ (0 < 1 - eps)%Q /\ (0 < 1 + eps)%Q)
      by (repeat split; vm_compute; reflexivity).
    destruct He as (He0 & He1 & He2).
    set (a := (dw / sourceW)%Q). set (b := (dh / sourceH)%Q).
    assert (Ha : (0 < a)%Q) by (apply Qlt_shift_div_l; lra).
    assert (Hb : (0 < b)%Q) by (apply Qlt_shift_div_l; lra).
    assert (Easw : (a * sourceW == dw)%Q) by (unfold a; field; lra).
    assert (Ebsh : (b * sourceH == dh)%Q) by (unfold b; field; lra).
    destruct (fl_bounds a ltac:(lra)) as [Al Au].
    destruct (fl_bounds b ltac:(lra)) as [Bl Bu].
    pose proof (fl_pos a Ha) as HA. pose proof (fl_pos b Hb) as HB.
    set (scale := Qmax (fl a) (fl b)).
    assert (Hs : (0 < scale)%Q).
    { unfold scale. eapply Qlt_le_trans; [exact HA | apply Q.le_max_l]. }
    assert (HsA : (fl a <= scale)%Q) by apply Q.le_max_l.
    assert (HsB : (fl b <= scale)%Q) by apply Q.le_max_r.
    set (u := (dw / scale)%Q). set (v := (dh / scale)%Q).
    assert (Hu : (0 < u)%Q) by (apply Qlt_shift_div_l; lra).
    assert (Hv : (0 < v)%Q) by (apply Qlt_shift_div_l; lra).
    assert (Eu : (u * scale == dw)%Q) by (unfold u; field; lra).
    assert (Ev : (v * scale == dh)%Q) by (unfold v; field; lra).
    destruct (fl_bounds u ltac:(lra)) as [Ul Uu].
    destruct (fl_bounds v ltac:(lra)) as [Vl Vu].
    pose proof (fl_pos u Hu) as HU. pose proof (fl_pos v Hv) as HV.
    (* the exact window is no larger than the source, up to eps *)
    assert (Huw : (u * (1 - eps) <= sourceW)%Q).
    { assert (H1 : (a * (1 - eps) * u <= scale * u)%Q).
      { apply Qmult_le_compat_r; lra. }
      assert (H2 : (a * u * (1 - eps) <= a * sourceW)%Q).
      { rewrite Easw, <- Eu. lra. }
      assert (H3 : (a * (u * (1 - eps)) <= a * sourceW)%Q) by lra.
      apply Qmult_le_l in H3; assumption. }
    assert (Hvh : (v * (1 - eps) <= sourceH)%Q).
    { assert (H1 : (b * (1 - eps) * v <= scale * v)%Q).
      { apply Qmult_le_compat_r; lra. }
      assert (H2 : (b * v * (1 - eps) <= b * sourceH)%Q).
      { rewrite Ebsh, <- Ev. lra. }
      assert (H3 : (b * (v * (1 - eps)) <= b * sourceH)%Q) by lra.
      apply Qmult_le_l in H3; assumption. }
    exists (fl (fl (sourceW - fl u) / 2)), (fl (fl (sourceH - fl v) / 2)),
           (fl u), (fl v).
    split; [reflexivity|].
    split; [exact HU|]. split; [exact HV|].
    split.
    { apply Qle_trans with (u * (1 + eps) * (1 - eps))%Q.
      - apply Qmult_le_compat_r; lra.
      - assert (H : (u * (1 - eps) * (1 + eps) <= sourceW * (1 + eps))%Q)
          by (apply Qmult_le_compat_r; lra).
        lra. }
    split.
    { apply Qle_trans with (v * (1 + eps) * (1 - eps))%Q.
      - apply Qmult_le_compat_r; lra.
      - assert (H : (v * (1 - eps) * (1 + eps) <= sourceH * (1 + eps))%Q)
          by (apply Qmult_le_compat_r; lra).
        lra. }
    split.
    { destruct (Q.max_spec (fl a) (fl b)) as [[_ Hsc]|[_ Hsc]];
        fold scale in Hsc.
      - right.
        assert (H1 : (sourceH <= v * (1 + eps))%Q).
        { assert (H2 : (scale * v <= b * (1 + eps) * v)%Q).
          { apply Qmult_le_compat_r; [rewrite Hsc; exact Bu | lra]. }
          assert (H3 : (b * sourceH <= b * (v * (1 + eps)))%Q).
          { rewrite Ebsh, <- Ev. lra. }
          apply Qmult_le_l in H3; assumption. }
        apply Qle_trans with (v * (1 + eps) * (1 - eps))%Q.
        + apply Qmult_le_compat_r; lra.
        + assert (H : (v * (1 - eps) * (1 + eps) <= fl v * (1 + eps))%Q)
            by (apply Qmult_le_compat_r; lra).
          lra.
      - left.
        assert (H1 : (sourceW <= u * (1 + eps))%Q).
        { assert (H2 : (scale * u <= a * (1 + eps) * u)%Q).
          { apply Qmult_le_compat_r; [rewrite Hsc; exact Au | lra]. }
          assert (H3 : (a * sourceW <= a * (u * (1 + eps)))%Q).
          { rewrite Easw, <- Eu. lra. }
          apply Qmult_le_l in H3; assumption. }
        apply Qle_trans with (u * (1 + eps) * (1 - eps))%Q.
        + apply Qmult_le_compat_r; lra.
        + assert (H : (u * (1 - eps) * (1 + eps) <= fl u * (1 + eps))%Q)
            by (apply Qmult_le_compat_r; lra).
          lra. }
    assert (Euv : (u * dh == v * dw)%Q) by (unfold u, v; field; lra).
    split.
    { apply Qle_trans with (u * (1 + eps) * dh * (1 - eps))%Q.
      - apply Qmult_le_compat_r; [|lra]. apply Qmult_le_compat_r; lra.
      - assert (H : (v * (1 - eps) * dw * (1 + eps)
                     <= fl v * dw * (1 + eps))%Q).
        { apply Qmult_le_compat_r; [|lra]. apply Qmult_le_compat_r; lra. }
        assert (E1 : (u * (1 + eps) * dh * (1 - eps)
                      == u * dh * ((1 + eps) * (1 - eps)))%Q) by ring.
        assert (E2 : (v * (1 - eps) * dw * (1 + eps)
                      == v * dw * ((1 + eps) * (1 - eps)))%Q) by ring.
        rewrite E1, Euv, <- E2. exact H. }
    split.
    { apply Qle_trans with (v * (1 + eps) * dw * (1 - eps))%Q.
      - apply Qmult_le_compat_r; [|lra]. apply Qmult_le_compat_r; lra.
      - assert (H : (u * (1 - eps) * dh * (1 + eps)
                     <= fl u * dh * (1 + eps))%Q).
        { apply Qmult_le_compat_r; [|lra]. apply Qmult_le_compat_r; lra. }
        assert (E1 : (v * (1 + eps) * dw * (1 - eps)
                      == v * dw * ((1 + eps) * (1 - eps)))%Q) by ring.
        assert (E2 : (u * (1 - eps) * dh * (1 + eps)
                      == u * dh * ((1 + eps) * (1 - eps)))%Q) by ring.
        rewrite E1, <- Euv, <- E2. exact H. }
    split; apply fl_half_error.
Qed.

End Cover.

(** A photograph of 6000 by 4000 pixels into a cell of 32 by 22: the
    window is as wide as the photograph, and its height comes out as
    4000.0000000000005. *)
Lemma drawImageCover_spec_witness :
  let sourceW := 6000%Q in
  let sourceH := 4000%Q in
  let dest := rectZ 0 0 32 22 in
  exists sx sy sWidth sHeight : Q,
    drawImageCover (File := nat) 7%nat sourceW sourceH dest
      = [EvDrawImage 7%nat (Qmax 0 sx) (Qmax 0 sy) (Qmax 1 sWidth)
                     (Qmax 1 sHeight) dest] /\
    (0 < sWidth)%Q /\ (0 < sHeight)%Q /\
    (sWidth * (1 - eps) <= sourceW * (1 + eps))%Q /\
    (sHeight * (1 - eps) <= sourceH * (1 + eps))%Q /\
    ((sourceW * (1 - eps) <= sWidth * (1 + eps))%Q \/
     (sourceH * (1 - eps) <= sHeight * (1 + eps))%Q) /\
    (sWidth * rect_height dest * (1 - eps)
     <= sHeight * rect_width dest * (1 + eps))%Q /\
    (sHeight * rect_width dest * (1 - eps)
     <= sWidth * rect_height dest * (1 + eps))%Q /\
    (Qabs (sx - (sourceW - sWidth) / 2)
     <= Qabs (sourceW - sWidth) * (2 * eps))%Q /\
    (Qabs (sy - (sourceH - sHeight) / 2)
     <= Qabs (sourceH - sHeight) * (2 * eps))%Q.
Proof.
  intros sourceW sourceH dest.
  destruct (drawImageCover_spec nat nat 7%nat sourceW sourceH dest)
    as [_ H].
  apply H.
  repeat (apply Forall_cons; [split; vm_compute; discriminate|]).
  apply Forall_nil.
Defined.

(** ** Shuffling and choosing the main image *)

Lemma update_nth_perm {A} (l : list A) (j : nat) (b x : A) :
  nth_error l j = Some b -> Permutation (b :: update l j x) (x :: l).
Proof.
  revert j. induction l as [|a l IH]; intros [|j] Hj; try discriminate.
  - injection Hj as ->. cbn [update]. apply perm_swap.
  - cbn [update]. cbn [nth_error] in Hj.
    rewrite perm_swap. rewrite (IH j Hj). apply perm_swap.
Qed.

Lemma update_same {A} (l : list A) (i : nat) (a : A) :
  nth_error l i = Some a -> update l i a = l.
Proof.
  revert i. induction l as [|x l IH]; intros [|i] H; try discriminate.
  - now injection H as ->.
  - cbn [update]. f_equal. now apply IH.
Qed.

Lemma swap_perm {A} (l : list A) (i j : nat) : Permutation (swap l i j) l.
Proof.
  unfold swap.
  destruct (nth_error l i) as [a|] eqn:Ei; [|reflexivity].
  destruct (nth_error l j) as [b|] eqn:Ej; [|reflexivity].
  revert i j Ei Ej. induction l as [|x l IH]; intros i j Ei Ej;
    [destruct i; discriminate|].
  destruct i as [|i], j as [|j]; cbn [nth_error] in Ei, Ej; cbn [update].
  - injection Ei as ->. injection Ej as ->. reflexivity.
  - injection Ei as ->. now apply update_nth_perm.
  - injection Ej as ->. now apply update_nth_perm.
  - constructor. now apply IH.
Qed.

Section Shuffle.

Variable random : nat -> Q.

Lemma shuffleLoop_perm {A} (i call : nat) (arr : list A) :
  Permutation (shuffleLoop random i call arr) arr.
Proof.
  revert call arr. induction i as [|i IH]; intros call arr; [reflexivity|].
  cbn [shuffleLoop]. rewrite IH. apply swap_perm.
Qed.

(** X15. For values of [Math.random()] in [[0, 1)], [shuffleInPlace]
    rearranges the array: the result holds the same elements, each as often
    as before, and has the same length. *)
Theorem shuffleInPlace_permutation {A} (arr : list A) :
  (forall k, (0 <= random k < 1)%Q) ->
  Permutation (shuffleInPlace random arr) arr /\
  length (shuffleInPlace random arr) = length arr.
Proof.
  intros _.
  assert (H : Permutation (shuffleInPlace random arr) arr)
    by apply shuffleLoop_perm.
  split; [exact H | now apply Permutation_length].
Qed.

End Shuffle.

Lemma shuffleInPlace_permutation_witness :
  Permutation (shuffleInPlace (fun _ => 1 # 2) [1; 2; 3; 4]) [1; 2; 3; 4].
Proof.
  apply (shuffleInPlace_permutation (fun _ => 1 # 2) [1; 2; 3; 4]).
  intros k. split; [unfold Qle; simpl; lia | reflexivity].
Defined.

Section Select.

Variable File : Type.

Lemma selectMain_in (first : CollageImageItem File)
    (rest : list (CollageImageItem File)) (mainId : string) :
  In (selectMain first (first :: rest) mainId) (first :: rest).
Proof.
  unfold selectMain.
  destruct (find _ (first :: rest)) as [found|] eqn:Ef.
  - apply find_some in Ef. apply Ef.
  - now left.
Qed.

Lemma selectOthers_perm (images : list (CollageImageItem File))
    (main : CollageImageItem File) :
  NoDup (map item_id images) -> In main images ->
  Permutation (main :: selectOthers images main) images.
Proof.
  unfold selectOthers. induction images as [|i images IH];
    intros Hnd Hin; [contradiction|].
  inversion Hnd as [|? ? Hnotin Hnd']; subst.
  cbn [filter]. destruct Hin as [->|Hin].
  - rewrite String.eqb_refl. cbn [negb]. constructor.
    assert (E : filter (fun i => negb (String.eqb (item_id i) (item_id main)))
                       images = images).
    { clear -Hnotin. induction images as [|j images IH]; [reflexivity|].
      cbn [filter].
      destruct (String.eqb_spec (item_id j) (item_id main)) as [E|E].
      - exfalso. apply Hnotin. left. exact E.
      - cbn [negb]. f_equal. apply IH. intros H. apply Hnotin. now right. }
    now rewrite E.
  - destruct (String.eqb_spec (item_id i) (item_id main)) as [E|E].
    + exfalso. apply Hnotin. rewrite E. now apply in_map.
    + cbn [negb]. rewrite perm_swap. constructor. now apply IH.
Qed.

Lemma find_first {A} (f : A -> bool) (l : list A) (x : A) :
  find f l = Some x ->
  exists before after,
    l = before ++ x :: after /\ f x = true /\
    Forall (fun a => f a = false) before.
Proof.
  induction l as [|a l IH]; [discriminate|]. cbn [find].
  destruct (f a) eqn:Ea.
  - intros [= ->]. exists [], l. split; [reflexivity|].
    split; [exact Ea | apply Forall_nil].
  - intros Hx. destruct (IH Hx) as (before & after & -> & Hfx & Hb).
    exists (a :: before), after. split; [reflexivity|].
    split; [exact Hfx | now apply Forall_cons].
Qed.

Lemma filter_subsequence {A} (f : A -> bool) (l : list A) :
  subsequence (filter f l) l.
Proof.
  induction l as [|a l IH]; [apply subsequence_nil|]. cbn [filter].
  destruct (f a); [now apply subsequence_take | now apply subsequence_skip].
Qed.

(** X16. The main image is the first image with the id [mainId]: an image
    with that id before which no image has it; or the first image when no
    image has the id.  The others are the images with another id than the
    main image, all of them and in their order; and when the ids are
    distinct, the main image and the others are all the images, each
    once. *)
Theorem selectMain_others (first : CollageImageItem File)
    (rest : list (CollageImageItem File)) (mainId : string) :
  let images := first :: rest in
  let main := selectMain first images mainId in
  let others := selectOthers images main in
  ((exists i, In i images /\ item_id i = mainId) ->
   exists before after,
     images = before ++ main :: after /\ item_id main = mainId /\
     Forall (fun i => item_id i <> mainId) before) /\
  ((forall i, In i images -> item_id i <> mainId) -> main = first) /\
  subsequence others images /\
  (forall i, In i others <-> In i images /\ item_id i <> item_id main) /\
  (NoDup (map item_id images) -> Permutation (main :: others) images) /\
  In main images.
Proof.
  intros images main others.
  split.
  { intros (i & Hin & Hid). subst main. unfold selectMain.
    destruct (find _ images) as [found|] eqn:Ef.
    - destruct (find_first _ _ _ Ef) as (before & after & E & Hf & Hb).
      exists before, after. split; [exact E|].
      split; [now apply String.eqb_eq|].
      eapply Forall_impl; [|exact Hb]. intros a Ha.
      now apply String.eqb_neq.
    - exfalso. apply (find_none _ _ Ef) in Hin.
      rewrite Hid, String.eqb_refl in Hin. discriminate. }
  split.
  { intros Hno. subst main. unfold selectMain.
    destruct (find _ images) as [found|] eqn:Ef; [|reflexivity].
    apply find_some in Ef. destruct Ef as [Hin Hid].
    apply String.eqb_eq in Hid. exfalso. exact (Hno found Hin Hid). }
  split; [apply filter_subsequence|].
  split.
  { intros i. unfold others, selectOthers. rewrite filter_In.
    rewrite negb_true_iff, String.eqb_neq. reflexivity. }
  split; [|apply selectMain_in].
  intros Hnd. apply selectOthers_perm; [exact Hnd | apply selectMain_in].
Qed.

End Select.

Lemma selectMain_others_witness :
  exists before after,
    [mkItem "a"%string 1%nat; mkItem "b"%string 2%nat;
     mkItem "b"%string 3%nat]
    = before
      ++ selectMain (mkItem "a"%string 1%nat)
           [mkItem "a"%string 1%nat; mkItem "b"%string 2%nat;
            mkItem "b"%string 3%nat] "b"%string
      :: after /\
    Forall (fun i => item_id i <> "b"%string) before.
Proof.
  destruct (selectMain_others nat (mkItem "a"%string 1%nat)
              [mkItem "b"%string 2%nat; mkItem "b"%string 3%nat]
              "b"%string) as (Hfirst & _).
  destruct Hfirst as (before & after & E & _ & Hb).
  - exists (mkItem "b"%string 2%nat). split; [cbn; tauto | reflexivity].
  - exists before, after. split; assumption.
Defined.

(** ** Runs of the render pipeline *)

Section Runs.

Variable ln : Q -> Q.
Variables File Source : Type.
Variable decodeImage : File -> option (DecodedImage Source).
Variable hasContext : bool.
Variable aborted : nat -> bool.
Variable random : nat -> Q.

Local Abbreviation run :=
  (renderCollageToCanvas ln decodeImage hasContext aborted random).

Lemma decoded_files_app (a b : list (Event File Source)) :
  decoded_files (a ++ b) = decoded_files a ++ decoded_files b.
Proof.
  induction a as [|e a IH]; [reflexivity|].
  destruct e; cbn [app decoded_files]; rewrite IH; reflexivity.
Qed.

Lemma closed_sources_app (a b : list (Event File Source)) :
  closed_sources (a ++ b) = closed_sources a ++ closed_sources b.
Proof.
  induction a as [|e a IH]; [reflexivity|].
  destruct e; cbn [app closed_sources]; rewrite IH; reflexivity.
Qed.

Lemma sources_to_close_app (a b : list File) :
  sources_to_close decodeImage (a ++ b)
  = sources_to_close decodeImage a ++ sources_to_close decodeImage b.
Proof. unfold sources_to_close. apply flat_map_app. Qed.

Lemma drawImageCover_quiet (source : Source) (w h : Q) (dest : Rect) :
  decoded_files (drawImageCover (File := File) source w h dest) = [] /\
  closed_sources (drawImageCover (File := File) source w h dest) = [].
Proof.
  unfold drawImageCover. destruct (_ || _); split; reflexivity.
Qed.

(** What one image leaves in the trace. *)
Lemma drawItem_trace (file : File) (dest : Rect) (drawn totalToDraw : Z)
    (m1 m2 : ProgressMessage) :
  let r := drawItem decodeImage file dest drawn totalToDraw m1 m2 in
  decoded_files (fst r) = [file] /\
  closed_sources (fst r) = sources_to_close decodeImage [file] /\
  (snd r = None -> decodeImage file <> None) /\
  (forall e, snd r = Some e ->
     e = DecodeFailure /\ decodeImage file = None /\
     exists pre, fst r = pre ++ [EvDecode file]).
Proof.
  intros r. subst r. unfold drawItem, sources_to_close. cbn [flat_map].
  destruct (decodeImage file) as [decoded|]; cbn [fst snd].
  - destruct (drawImageCover_quiet (dec_source decoded) (dec_width decoded)
                (dec_height decoded) dest) as [Hd Hc].
    cbn [app decoded_files closed_sources].
    rewrite decoded_files_app, closed_sources_app, Hd, Hc.
    unfold closeDecoded. rewrite app_nil_r.
    repeat split; try discriminate;
      destruct (dec_close decoded); reflexivity.
  - split; [reflexivity|]. split; [reflexivity|].
    split; [discriminate|].
    intros e [= <-]. split; [reflexivity|]. split; [reflexivity|].
    eexists [_]. reflexivity.
Qed.

Lemma frame_quiet (b : bool) :
  decoded_files (if b then [@EvNextFrame File Source] else []) = [].
Proof. now destruct b. Qed.

(** How the loop can fail. *)
Lemma drawLoop_errors (ring : bool) (items : list (CollageImageItem File))
    (idx : nat) (cells : list Rect) (polls : nat) (drawn totalToDraw : Z)
    (events : list (Event File Source)) (e : RenderError) :
  drawLoop decodeImage aborted ring items idx cells polls drawn totalToDraw
    = (events, inl e) ->
  (e = Aborted /\ exists k, (polls <= k)%nat /\ aborted k = true) \/
  (e = DecodeFailure /\
   exists pre file, events = pre ++ [EvDecode file] /\
                    In file (map item_file items) /\
                    decodeImage file = None) \/
  (e = (if ring then NotEnoughRingCells else NotEnoughCells) /\
   (length cells < idx + length items)%nat).
Proof.
  revert idx polls drawn events. induction items as [|item rest IH];
    intros idx polls drawn events; cbn [drawLoop]; [discriminate|].
  destruct (aborted polls) eqn:Ea.
  { intros [= <- <-]. left. split; [reflexivity|]. exists polls. auto. }
  destruct (nth_error cells idx) as [dest|] eqn:Ecell.
  2:{ intros [= <- <-]. right. right. split; [reflexivity|].
      apply nth_error_None in Ecell. cbn [length]. lia. }
  pose proof (drawItem_trace (item_file item) dest drawn totalToDraw
                (MsgDecode (drawn + 1) totalToDraw)
                (MsgDraw (drawn + 1) totalToDraw)) as (_ & _ & _ & Herr).
  destruct (drawItem _ _ _ _ _ _ _) as [evs [e'|]]; cbn [fst snd] in *.
  - intros [= <- <-]. destruct (Herr e' eq_refl) as (-> & Hnone & pre & ->).
    right. left. split; [reflexivity|]. exists pre, (item_file item).
    split; [reflexivity|]. split; [now left | exact Hnone].
  - destruct (drawLoop _ _ _ _ _ _ _ _ _) as [later result] eqn:El.
    intros [= <- ->].
    destruct (IH _ _ _ _ El)
      as [(-> & k & Hk & Hak)|[(-> & pre & f & -> & Hin & Hf)|(-> & Hlen)]].
    + left. split; [reflexivity|]. exists k. split; [lia | exact Hak].
    + right. left. split; [reflexivity|].
      exists (evs ++ (if (idx mod 4 =? 0)%nat then [EvNextFrame] else [])
                  ++ pre), f.
      split; [now rewrite <- !app_assoc|]. split; [now right | exact Hf].
    + right. right. split; [reflexivity|]. cbn [length]. lia.
Qed.

(** A loop that ends without error has decoded every image, in order. *)
Lemma drawLoop_files (ring : bool) (items : list (CollageImageItem File))
    (idx : nat) (cells : list Rect) (polls : nat) (drawn totalToDraw : Z)
    (events : list (Event File Source)) (d : Z) (p : nat) :
  drawLoop decodeImage aborted ring items idx cells polls drawn totalToDraw
    = (events, inr (d, p)) ->
  decoded_files events = map item_file items /\ d = drawn + len items.
Proof.
  revert idx polls drawn events. induction items as [|item rest IH];
    intros idx polls drawn events; cbn [drawLoop].
  - intros [= <- <- <-]. unfold len. cbn. split; [reflexivity | lia].
  - destruct (aborted polls); [discriminate|].
    destruct (nth_error cells idx) as [dest|]; [|discriminate].
    pose proof (drawItem_trace (item_file item) dest drawn totalToDraw
                  (MsgDecode (drawn + 1) totalToDraw)
                  (MsgDraw (drawn + 1) totalToDraw)) as (Hd & _).
    destruct (drawItem _ _ _ _ _ _ _) as [evs [e'|]]; [discriminate|].
    cbn [fst] in Hd.
    destruct (drawLoop _ _ _ _ _ _ _ _ _) as [later result] eqn:El.
    intros [= <- ->]. destruct (IH _ _ _ _ El) as [Hl ->].
    rewrite !decoded_files_app, Hd, Hl, frame_quiet.
    unfold len. cbn [map length app]. split; [reflexivity | lia].
Qed.

Lemma canvas_capacity (size : Z) :
  0 <= size -> capacity (rectZ 0 0 size size) = size * size.
Proof.
  intros H. unfold capacity, rectZ. cbn [rect_width rect_height].
  rewrite js_round_inject. lia.
Qed.

Lemma shuffle_len {A} (arr : list A) :
  len (shuffleInPlace random arr) = len arr.
Proof.
  unfold len. f_equal. apply Permutation_length, shuffleLoop_perm.
Qed.

(** The cells of the flat mode: one per image as long as the images do not
    outnumber the pixels of the canvas, and none otherwise. *)
Lemma flat_cells (size : Z) (n : Z) (gap : Q) :
  64 <= size -> 0 <= n ->
  (n <= size * size ->
   len (buildCellsFilled ln (rectZ 0 0 size size) (inject_Z n) gap) = n) /\
  (size * size < n ->
   buildCellsFilled ln (rectZ 0 0 size size) (inject_Z n) gap = []).
Proof.
  intros Hsize Hn.
  destruct (buildCellsFilled_length ln (rectZ 0 0 size size) (inject_Z n) gap)
    as [Hfit Hover].
  rewrite js_floor_inject, Z.max_r, canvas_capacity in Hfit, Hover by lia.
  split; assumption.
Qed.

(** X18. The pipeline fails before it touches the canvas when there is no
    image, and next when the canvas has no 2D context.  When the signal is
    already aborted at its first reading, the run stops with the abort
    error after the background fill: no image is decoded or drawn (in the
    flat mode, provided the images do not outnumber the pixels of the
    canvas). *)
Theorem renderCollageToCanvas_early_failures
    (images : list (CollageImageItem File)) (mainId : string)
    (options : RenderCollageOptions) :
  (images = [] -> run images mainId options = ([], Some NoImages)) /\
  (images <> [] -> hasContext = false ->
   run images mainId options = ([], Some NoContext)) /\
  (images <> [] -> hasContext = true -> aborted 0%nat = true ->
   (ro_useMain options = false ->
    len images <= Z.max 64 (js_floor (ro_size options))
                  * Z.max 64 (js_floor (ro_size options))) ->
   run images mainId options = (start_events options, Some Aborted)).
Proof.
  unfold renderCollageToCanvas. split; [now intros ->|].
  destruct images as [|first rest]; [split; intros H; contradiction|].
  split; [intros _ ->; reflexivity|].
  intros _ -> Ha Hflat. cbn [negb]. fold (start_events (File := File)
                                            (Source := Source) options).
  set (size := Z.max 64 (js_floor (ro_size options))) in *.
  destruct (ro_useMain options); cbn [negb].
  - match goal with
    | |- context [drawLoop decodeImage aborted true ?its 0 ?cs 0 0 ?t] =>
        destruct its as [|item its']
    end; cbn [drawLoop]; rewrite Ha; now rewrite app_nil_r.
  - specialize (Hflat eq_refl).
    set (ordered := if ro_shuffleOthers options
                    then shuffleInPlace random (first :: rest)
                    else first :: rest).
    assert (Hlen : len ordered = len (first :: rest)).
    { unfold ordered. destruct (ro_shuffleOthers options);
        [apply shuffle_len | reflexivity]. }
    destruct (flat_cells size (len ordered) (ro_gap options)
                ltac:(unfold size; lia) ltac:(unfold len; lia)) as [Hfit _].
    rewrite Hfit by lia. rewrite Z.eqb_refl. cbn [negb].
    destruct ordered as [|item its'];
      [unfold len in Hlen; simpl in Hlen; lia|].
    cbn [drawLoop]. rewrite Ha. now rewrite app_nil_r.
Qed.

Lemma selectOthers_len (images : list (CollageImageItem File))
    (main : CollageImageItem File) :
  In main images -> len (selectOthers images main) <= len images - 1.
Proof.
  unfold selectOthers, len. induction images as [|i images IH];
    intros Hin; [contradiction|].
  cbn [filter length].
  pose proof (filter_length_le
                (fun i => negb (String.eqb (item_id i) (item_id main)))
                images) as Hle.
  destruct Hin as [->|Hin].
  - rewrite String.eqb_refl. cbn [negb]. lia.
  - specialize (IH Hin).
    destruct (negb _); cbn [length]; lia.
Qed.

(** The layout of a run has the size of the canvas, and a cell for every
    ring image when there are at most [size - 2] of them. *)
Lemma render_layout_cells (options : RenderCollageOptions)
    (others : list (CollageImageItem File)) :
  len others <= Z.max 64 (js_floor (ro_size options)) - 2 ->
  len (ringCells (render_layout ln options others)) = len others.
Proof.
  intros Hsmall. unfold render_layout.
  set (size := Z.max 64 (js_floor (ro_size options))) in *.
  rewrite ringCells_small; cbn [opt_othersCount opt_size];
    rewrite ?js_floor_inject; unfold layout_canvas; cbn [opt_size];
    rewrite ?js_floor_inject; unfold len in *; lia.
Qed.

(** X19. A run that ends with the failure of the decoder stops there: the
    attempt to decode the failing file, one of the images, is the last
    event of the run, and nothing is decoded or drawn after it. *)
Theorem renderCollageToCanvas_decode_failure
    (images : list (CollageImageItem File)) (mainId : string)
    (options : RenderCollageOptions) :
  snd (run images mainId options) = Some DecodeFailure ->
  exists pre file,
    fst (run images mainId options) = pre ++ [EvDecode file] /\
    In file (map item_file images) /\ decodeImage file = None.
Proof.
  unfold renderCollageToCanvas.
  destruct images as [|first rest]; [discriminate|].
  destruct hasContext; cbn [negb]; [|discriminate].
  set (images := first :: rest).
  destruct (ro_useMain options); cbn [negb].
  - set (main := selectMain first images mainId).
    set (others := selectOthers images main).
    set (ordered := if ro_shuffleOthers options
                    then shuffleInPlace random others else others).
    assert (Hsub : forall f, In f (map item_file ordered) ->
                             In f (map item_file images)).
    { intros f Hf. apply in_map_iff in Hf. destruct Hf as (i & <- & Hi).
      apply in_map.
      assert (Hio : In i others).
      { unfold ordered in Hi. destruct (ro_shuffleOthers options);
          [eapply Permutation_in; [apply shuffleLoop_perm | exact Hi]
          | exact Hi]. }
      unfold others, selectOthers in Hio. apply filter_In in Hio. apply Hio. }
    destruct (drawLoop _ _ _ _ _ _ _ _ _)
      as [events [e|[drawn polls]]] eqn:El; cbn [fst snd].
    + intros [= ->]. apply drawLoop_errors in El.
      destruct El as [[? _]|[(_ & pre & f & -> & Hin & Hf)|[? _]]];
        try discriminate.
      exists (start_events options ++ pre), f.
      split; [unfold start_events; now rewrite <- !app_assoc|]. auto.
    + destruct (aborted polls); [discriminate|].
      pose proof (drawItem_trace (item_file main)
                    (mainRect (computeCollageLayout ln
                       (mkOptions (inject_Z (Z.max 64 (js_floor (ro_size options))))
                          (ro_mainRatio options) (ro_gap options)
                          (inject_Z (len ordered)))))
                    drawn (len ordered + 1) MsgDecodeMain MsgDrawMain)
        as (_ & _ & _ & Herr).
      destruct (drawItem _ _ _ _ _ _ _) as [mainEvents [e|]];
        cbn [fst snd] in *; [|discriminate].
      intros [= ->]. destruct (Herr _ eq_refl) as (_ & Hnone & pre & ->).
      exists (start_events options ++ events ++ pre), (item_file main).
      split; [unfold start_events; now rewrite <- !app_assoc|].
      split; [apply in_map, selectMain_in | exact Hnone].
  - set (ordered := if ro_shuffleOthers options
                    then shuffleInPlace random images else images).
    assert (Hsub : forall f, In f (map item_file ordered) ->
                             In f (map item_file images)).
    { intros f Hf. apply in_map_iff in Hf. destruct Hf as (i & <- & Hi).
      apply in_map. unfold ordered in Hi.
      destruct (ro_shuffleOthers options);
        [eapply Permutation_in; [apply shuffleLoop_perm | exact Hi]
        | exact Hi]. }
    destruct (len _ =? len _); cbn [negb]; [|discriminate].
    destruct (drawLoop _ _ _ _ _ _ _ _ _)
      as [events [e|[drawn polls]]] eqn:El; cbn [fst snd]; [|discriminate].
    intros [= ->]. apply drawLoop_errors in El.
    destruct El as [[? _]|[(_ & pre & f & -> & Hin & Hf)|[? _]]];
      try discriminate.
    exists (start_events options ++ pre), f.
    split; [unfold start_events; now rewrite <- !app_assoc|]. auto.
Qed.

End Runs.

Lemma renderCollageToCanvas_early_failures_witness :
  renderCollageToCanvas ln_approx
    (fun f : nat => Some (mkDecoded f 4 3 true)) true (fun _ => true)
    (fun _ => 0%Q) [mkItem "a"%string 1%nat; mkItem "b"%string 2%nat]
    "a"%string (mkRenderOptions 100 (1 # 2) 0 "white"%string false true)
  = (start_events (mkRenderOptions 100 (1 # 2) 0 "white"%string false true),
     Some Aborted).
Proof.
  destruct (renderCollageToCanvas_early_failures ln_approx nat nat
              (fun f : nat => Some (mkDecoded f 4 3 true)) true
              (fun _ => true) (fun _ => 0%Q)
              [mkItem "a"%string 1%nat; mkItem "b"%string 2%nat]
              "a"%string
              (mkRenderOptions 100 (1 # 2) 0 "white"%string false true))
    as (_ & _ & H).
  apply H; [discriminate | reflexivity | reflexivity | discriminate].
Defined.

Lemma renderCollageToCanvas_decode_failure_witness :
  exists pre file,
    fst (renderCollageToCanvas ln_approx
           (fun f : nat => if Nat.eqb f 2 then None
                           else Some (mkDecoded f 4 3 true))
           true (fun _ => false) (fun _ => 0%Q)
           [mkItem "a"%string 1%nat; mkItem "b"%string 2%nat;
            mkItem "c"%string 3%nat]
           "a"%string
           (mkRenderOptions 100 (1 # 2) 0 "white"%string false true))
    = pre ++ [EvDecode file] /\
    file = 2%nat.
Proof.
  destruct (renderCollageToCanvas_decode_failure ln_approx nat nat
              (fun f : nat => if Nat.eqb f 2 then None
                              else Some (mkDecoded f 4 3 true))
              true (fun _ => false) (fun _ => 0%Q)
              [mkItem "a"%string 1%nat; mkItem "b"%string 2%nat;
               mkItem "c"%string 3%nat]
              "a"%string
              (mkRenderOptions 100 (1 # 2) 0 "white"%string false true))
    as (pre & file & Hrun & Hin & Hnone).
  - vm_compute. reflexivity.
  - exists pre, file. split; [exact Hrun|].
    cbn [map item_file] in Hin.
    destruct Hin as [<-|[<-|[<-|[]]]]; [discriminate|reflexivity|discriminate].
Defined.

(** ** Closing the decoded images *)

Section Closes.

Variable ln : Q -> Q.
Variables File Source : Type.
Variable decodeImage : File -> option (DecodedImage Source).
Variable hasContext : bool.
Variable aborted : nat -> bool.
Variable random : nat -> Q.
Variable reportThrows : CollageProgress -> bool.
Variable drawThrows : Source -> bool.

Local Abbreviation run :=
  (renderCollageToCanvas ln decodeImage hasContext aborted random).

Local Abbreviation runWith :=
  (renderCollageToCanvasWith ln decodeImage hasContext aborted random
                             reportThrows drawThrows).

(** The [try] block neither decodes nor closes. *)
Lemma tryDraw_quiet (p : CollageProgress) (decoded : DecodedImage Source)
    (dest : Rect) :
  let block :=
    fst (tryDraw (File := File) reportThrows drawThrows p decoded dest) in
  decoded_files block = [] /\ closed_sources block = [].
Proof.
  intros block. subst block. unfold tryDraw.
  destruct (reportThrows p); [split; reflexivity|].
  destruct (drawImageCover_quiet File Source (dec_source decoded)
              (dec_width decoded) (dec_height decoded) dest) as [Hd Hc].
  destruct (drawImageCover _ _ _ _); [split; reflexivity|].
  cbn [fst decoded_files closed_sources]. split; assumption.
Qed.

(** One image: it is closed when it was decoded, whatever the [try] block
    did. *)
Lemma drawItemWith_closes (file : File) (dest : Rect) (drawn totalToDraw : Z)
    (m1 m2 : ProgressMessage) :
  let events :=
    fst (drawItemWith decodeImage reportThrows drawThrows file dest drawn
                      totalToDraw m1 m2) in
  closed_sources events = sources_to_close decodeImage (decoded_files events).
Proof.
  intros events. subst events. unfold drawItemWith.
  destruct (reportThrows (mkProgress PhaseDecode _ _ _)); [reflexivity|].
  unfold sources_to_close.
  destruct (decodeImage file) as [decoded|] eqn:Ed.
  - pose proof (tryDraw_quiet (mkProgress PhaseRender drawn totalToDraw m2)
                  decoded dest) as [Hd Hc].
    destruct (tryDraw _ _ _ _ _) as [block thrown]. cbn [fst] in *.
    cbn [app decoded_files closed_sources].
    rewrite decoded_files_app, closed_sources_app, Hd, Hc.
    cbn [app flat_map]. rewrite Ed, ?app_nil_r.
    unfold closeDecoded. destruct (dec_close decoded); reflexivity.
  - cbn [fst decoded_files closed_sources flat_map]. now rewrite Ed.
Qed.

Lemma drawLoopWith_closes (ring : bool) (items : list (CollageImageItem File))
    (idx : nat) (cells : list Rect) (polls : nat) (drawn totalToDraw : Z) :
  let events :=
    fst (drawLoopWith decodeImage aborted reportThrows drawThrows ring items
                      idx cells polls drawn totalToDraw) in
  closed_sources events = sources_to_close decodeImage (decoded_files events).
Proof.
  revert idx polls drawn. induction items as [|item rest IH];
    intros idx polls drawn; cbn [drawLoopWith]; [reflexivity|].
  destruct (aborted polls); [reflexivity|].
  destruct (nth_error cells idx) as [dest|]; [|reflexivity].
  pose proof (drawItemWith_closes (item_file item) dest drawn totalToDraw
                (MsgDecode (drawn + 1) totalToDraw)
                (MsgDraw (drawn + 1) totalToDraw)) as Hitem.
  destruct (drawItemWith _ _ _ _ _ _ _ _ _) as [evs [e|]]; cbn [fst] in *;
    [exact Hitem|].
  specialize (IH (S idx) (S polls) (drawn + 1)).
  destruct (drawLoopWith _ _ _ _ _ _ _ _ _ _ _) as [later result].
  cbn [fst] in *.
  rewrite !decoded_files_app, !closed_sources_app, !sources_to_close_app.
  rewrite Hitem, IH.
  destruct (idx mod 4 =? 0)%nat; reflexivity.
Qed.

Lemma reportDone_closes (events : list (Event File Source))
    (drawn totalToDraw : Z) :
  closed_sources events = sources_to_close decodeImage (decoded_files events) ->
  closed_sources (fst (reportDone reportThrows events drawn totalToDraw))
  = sources_to_close decodeImage
      (decoded_files (fst (reportDone reportThrows events drawn totalToDraw))).
Proof.
  intros H. unfold reportDone. cbn [fst].
  rewrite decoded_files_app, closed_sources_app, H.
  cbn [decoded_files closed_sources]. now rewrite !app_nil_r.
Qed.

Lemma runWith_closes (images : list (CollageImageItem File))
    (mainId : string) (options : RenderCollageOptions) :
  closed_sources (fst (runWith images mainId options))
  = sources_to_close decodeImage
      (decoded_files (fst (runWith images mainId options))).
Proof.
  unfold renderCollageToCanvasWith.
  destruct images as [|first rest]; [reflexivity|].
  destruct hasContext; cbn [negb]; [|reflexivity].
  destruct (reportThrows (mkProgress PhaseLayout 0 1 MsgLayout));
    [reflexivity|].
  destruct (ro_useMain options); cbn [negb].
  - match goal with
    | |- context [drawLoopWith _ _ _ _ true ?its 0 ?cs 0 0 ?t] =>
        pose proof (drawLoopWith_closes true its 0 cs 0 0 t) as Hloop;
        destruct (drawLoopWith decodeImage aborted reportThrows drawThrows
                               true its 0 cs 0 0 t)
          as [events [e|[drawn polls]]]
    end; cbn [fst] in *.
    + rewrite decoded_files_app, closed_sources_app. exact Hloop.
    + destruct (aborted polls); cbn [fst].
      * rewrite decoded_files_app, closed_sources_app. exact Hloop.
      * match goal with
        | |- context [drawItemWith _ _ _ ?f ?dest ?d ?t ?m1 ?m2] =>
            pose proof (drawItemWith_closes f dest d t m1 m2) as Hmain;
            destruct (drawItemWith decodeImage reportThrows drawThrows f dest
                                   d t m1 m2) as [mainEvents [e|]]
        end; cbn [fst] in *; [|apply reportDone_closes];
          rewrite !decoded_files_app, !closed_sources_app,
            !sources_to_close_app, Hloop, Hmain;
          cbn [decoded_files closed_sources app]; reflexivity.
  - destruct (len _ =? len _); cbn [negb]; [|reflexivity].
    match goal with
    | |- context [drawLoopWith _ _ _ _ false ?its 0 ?cs 0 0 ?t] =>
        pose proof (drawLoopWith_closes false its 0 cs 0 0 t) as Hloop;
        destruct (drawLoopWith decodeImage aborted reportThrows drawThrows
                               false its 0 cs 0 0 t)
          as [events [e|[drawn polls]]]
    end; cbn [fst] in *; [|apply reportDone_closes];
      rewrite !decoded_files_app, !closed_sources_app, Hloop;
      cbn [decoded_files closed_sources app]; reflexivity.
Qed.

(** *** A callback and a canvas that return normally *)

Hypothesis reports : forall p, reportThrows p = false.
Hypothesis draws : forall source, drawThrows source = false.

Local Abbreviation thrown r := (fst r, option_map Thrown (snd r)).

Lemma drawItemWith_returns (file : File) (dest : Rect) (drawn totalToDraw : Z)
    (m1 m2 : ProgressMessage) :
  drawItemWith decodeImage reportThrows drawThrows file dest drawn
               totalToDraw m1 m2
  = thrown (drawItem decodeImage file dest drawn totalToDraw m1 m2).
Proof.
  unfold drawItemWith, drawItem, tryDraw. rewrite !reports.
  destruct (decodeImage file) as [decoded|]; [|reflexivity].
  rewrite draws. destruct (drawImageCover _ _ _ _); reflexivity.
Qed.

Lemma drawLoopWith_returns (ring : bool)
    (items : list (CollageImageItem File)) (idx : nat) (cells : list Rect)
    (polls : nat) (drawn totalToDraw : Z) :
  drawLoopWith decodeImage aborted reportThrows drawThrows ring items idx
               cells polls drawn totalToDraw
  = (fst (drawLoop decodeImage aborted ring items idx cells polls drawn
                   totalToDraw),
     match snd (drawLoop decodeImage aborted ring items idx cells polls drawn
                         totalToDraw) with
     | inl e => inl (Thrown e)
     | inr result => inr result
     end).
Proof.
  revert idx polls drawn. induction items as [|item rest IH];
    intros idx polls drawn; cbn [drawLoopWith drawLoop]; [reflexivity|].
  destruct (aborted polls); [reflexivity|].
  destruct (nth_error cells idx) as [dest|]; [|reflexivity].
  rewrite drawItemWith_returns.
  destruct (drawItem _ _ _ _ _ _ _) as [evs [e|]]; cbn [fst snd option_map];
    [reflexivity|].
  rewrite IH.
  destruct (drawLoop _ _ _ _ _ _ _ _ _) as [later result]. reflexivity.
Qed.

Lemma runWith_returns (images : list (CollageImageItem File))
    (mainId : string) (options : RenderCollageOptions) :
  runWith images mainId options = thrown (run images mainId options).
Proof.
  unfold renderCollageToCanvasWith, renderCollageToCanvas, reportDone.
  destruct images as [|first rest]; [reflexivity|].
  destruct hasContext; cbn [negb]; [|reflexivity].
  rewrite reports.
  destruct (ro_useMain options); cbn [negb].
  - rewrite drawLoopWith_returns.
    destruct (drawLoop _ _ _ _ _ _ _ _ _) as [events [e|[drawn polls]]];
      cbn [fst snd]; [reflexivity|].
    destruct (aborted polls); [reflexivity|].
    rewrite drawItemWith_returns.
    destruct (drawItem _ _ _ _ _ _ _) as [mainEvents [e|]];
      cbn [fst snd option_map]; [reflexivity|].
    rewrite reports, <- ?app_assoc. reflexivity.
  - destruct (len _ =? len _); cbn [negb]; [|reflexivity].
    rewrite drawLoopWith_returns.
    destruct (drawLoop _ _ _ _ _ _ _ _ _) as [events [e|[drawn polls]]];
      cbn [fst snd]; [reflexivity|].
    rewrite reports, <- ?app_assoc. reflexivity.
Qed.

End Closes.

(** X17. Whatever the images, the options and the platform do, and however
    the run ends -- with one of the errors of the pipeline, or because the
    progress callback or [ctx.drawImage] throws, also between the decoding
    of an image and its [close] -- every image that was decoded and has a
    [close] is closed: the sources closed during the run are those of the
    decoded files, in the order of decoding.  With a callback and a canvas
    that never throw, the run is the one of [renderCollageToCanvas]. *)
Theorem renderCollageToCanvas_closes (ln : Q -> Q) (File Source : Type)
    (decodeImage : File -> option (DecodedImage Source)) (hasContext : bool)
    (aborted : nat -> bool) (random : nat -> Q)
    (reportThrows : CollageProgress -> bool) (drawThrows : Source -> bool)
    (images : list (CollageImageItem File)) (mainId : string)
    (options : RenderCollageOptions) :
  let general :=
    renderCollageToCanvasWith ln decodeImage hasContext aborted random
                              reportThrows drawThrows images mainId options in
  let plain :=
    renderCollageToCanvas ln decodeImage hasContext aborted random images
                          mainId options in
  closed_sources (fst general)
  = sources_to_close decodeImage (decoded_files (fst general)) /\
  ((forall p, reportThrows p = false) ->
   (forall source, drawThrows source = false) ->
   general = (fst plain, option_map Thrown (snd plain))).
Proof.
  intros general plain. split.
  - apply runWith_closes.
  - intros Hr Hd. apply runWith_returns; assumption.
Qed.

(** The callback throws at the report that precedes the drawing of the
    second image: the run stops there, and both decoded images are
    closed. *)
Lemma renderCollageToCanvas_closes_witness :
  let decodeImage := fun f : nat => Some (mkDecoded f 4 3 true) in
  let images :=
    [mkItem "a"%string 1%nat; mkItem "b"%string 2%nat;
     mkItem "c"%string 3%nat] in
  let options := mkRenderOptions 100 (1 # 2) 0 "white"%string false true in
  let failing :=
    renderCollageToCanvasWith ln_approx decodeImage true (fun _ => false)
      (fun _ => 0%Q)
      (fun p => match phase p with
                | PhaseRender => (done p =? 1)%Z
                | _ => false
                end)
      (fun _ => false) images "a"%string options in
  (snd failing = Some CallbackError /\
   decoded_files (fst failing) = [2%nat; 3%nat] /\
   closed_sources (fst failing) = [2%nat; 3%nat]) /\
  renderCollageToCanvasWith ln_approx decodeImage true (fun _ => false)
    (fun _ => 0%Q) (fun _ => false) (fun _ => false) images "a"%string
    options
  = (fst (renderCollageToCanvas ln_approx decodeImage true (fun _ => false)
            (fun _ => 0%Q) images "a"%string options),
     option_map Thrown
       (snd (renderCollageToCanvas ln_approx decodeImage true
               (fun _ => false) (fun _ => 0%Q) images "a"%string options))).
Proof.
  intros decodeImage images options failing. split.
  - pose proof (renderCollageToCanvas_closes ln_approx nat nat decodeImage
                  true (fun _ => false) (fun _ => 0%Q)
                  (fun p => match phase p with
                            | PhaseRender => (done p =? 1)%Z
                            | _ => false
                            end)
                  (fun _ => false) images "a"%string options) as H.
    cbv zeta in H. destruct H as [H _]. fold failing in H.
    split; [vm_compute; reflexivity|].
    split; [vm_compute; reflexivity|].
    rewrite H. vm_compute. reflexivity.
  - pose proof (renderCollageToCanvas_closes ln_approx nat nat decodeImage
                  true (fun _ => false) (fun _ => 0%Q) (fun _ => false)
                  (fun _ => false) images "a"%string options) as H.
    cbv zeta in H. destruct H as [_ H]. apply H; reflexivity.
Defined.

(** ** How runs end *)

Section Outcomes.

Variable ln : Q -> Q.
Variables File Source : Type.
Variable decodeImage : File -> option (DecodedImage Source).
Variable hasContext : bool.
Variable aborted : nat -> bool.
Variable random : nat -> Q.

Local Abbreviation run :=
  (renderCollageToCanvas ln decodeImage hasContext aborted random).

Lemma ordered_perm {A} (b : bool) (l : list A) :
  Permutation (if b then shuffleInPlace random l else l) l.
Proof. destruct b; [apply shuffleLoop_perm | reflexivity]. Qed.

Lemma ordered_files (b : bool) (l : list (CollageImageItem File)) (f : File) :
  In f (map item_file (if b then shuffleInPlace random l else l)) ->
  In f (map item_file l).
Proof.
  apply Permutation_in, Permutation_map, ordered_perm.
Qed.

Lemma len_perm {A} (l l' : list A) : Permutation l l' -> len l = len l'.
Proof. intros H. unfold len. f_equal. now apply Permutation_length. Qed.

(** X20. With distinct ids, a run that ends without error has decoded
    every image exactly once, and its last event reports all of them done:
    [done = total =] the number of images. *)
Theorem renderCollageToCanvas_success
    (images : list (CollageImageItem File)) (mainId : string)
    (options : RenderCollageOptions) :
  NoDup (map item_id images) ->
  snd (run images mainId options) = None ->
  Permutation (decoded_files (fst (run images mainId options)))
              (map item_file images) /\
  exists pre,
    fst (run images mainId options)
    = pre ++ [EvProgress (mkProgress PhaseRender (len images) (len images)
                                     MsgDone)].
Proof.
  intros Hnd. unfold renderCollageToCanvas.
  destruct images as [|first rest]; [discriminate|].
  destruct hasContext; cbn [negb]; [|discriminate].
  set (images := first :: rest) in *.
  destruct (ro_useMain options); cbn [negb].
  - set (main := selectMain first images mainId).
    set (others := selectOthers images main).
    set (ordered := if ro_shuffleOthers options
                    then shuffleInPlace random others else others).
    assert (Hperm : Permutation (ordered ++ [main]) images).
    { rewrite Permutation_app_comm. cbn [app].
      etransitivity; [apply perm_skip, ordered_perm|].
      apply selectOthers_perm; [exact Hnd | apply selectMain_in]. }
    assert (Hlen : len ordered + 1 = len images).
    { rewrite <- (len_perm _ _ Hperm), len_app. reflexivity. }
    destruct (drawLoop _ _ _ _ _ _ _ _ _)
      as [events [e|[drawn polls]]] eqn:El; cbn [fst snd]; [discriminate|].
    apply drawLoop_files in El. destruct El as [Hfiles ->].
    destruct (aborted polls); [discriminate|].
    match goal with
    | |- context [drawItem decodeImage ?f ?dest ?d ?t ?m1 ?m2] =>
        pose proof (drawItem_trace _ _ decodeImage f dest d t m1 m2)
          as (Hd & _);
        destruct (drawItem decodeImage f dest d t m1 m2)
          as [mainEvents [e|]]
    end; cbn [fst snd] in *; [discriminate|].
    intros _. split.
    + rewrite !decoded_files_app, Hfiles, Hd.
      cbn [decoded_files app]. rewrite ?app_nil_r.
      change [item_file main] with (map item_file [main]).
      rewrite <- map_app. now apply Permutation_map.
    + rewrite Z.add_0_l, Hlen.
      rewrite !app_assoc. eexists. reflexivity.
  - set (ordered := if ro_shuffleOthers options
                    then shuffleInPlace random images else images).
    pose proof (ordered_perm (ro_shuffleOthers options) images) as Hperm.
    fold ordered in Hperm.
    destruct (len _ =? len _); cbn [negb]; [|discriminate].
    destruct (drawLoop _ _ _ _ _ _ _ _ _)
      as [events [e|[drawn polls]]] eqn:El; cbn [fst snd]; [discriminate|].
    apply drawLoop_files in El. destruct El as [Hfiles ->].
    intros _. split.
    + rewrite !decoded_files_app, Hfiles.
      cbn [decoded_files app]. rewrite ?app_nil_r.
      now apply Permutation_map.
    + rewrite Z.add_0_l, (len_perm _ _ Hperm).
      rewrite !app_assoc. eexists. reflexivity.
Qed.

(** X21. The pipeline lacks cells only when there are too many images for
    the canvas: it ends with the error of the flat mode only without a main
    image and with more images than the canvas has pixels, and with the
    error of the ring only with a main image and more than [size - 1]
    images, [size] being the side of the canvas. *)
Theorem renderCollageToCanvas_cell_errors
    (images : list (CollageImageItem File)) (mainId : string)
    (options : RenderCollageOptions) :
  let size := Z.max 64 (js_floor (ro_size options)) in
  (snd (run images mainId options) = Some NotEnoughCells ->
   ro_useMain options = false /\ size * size < len images) /\
  (snd (run images mainId options) = Some NotEnoughRingCells ->
   ro_useMain options = true /\ size - 1 < len images).
Proof.
  intros size. unfold renderCollageToCanvas.
  destruct images as [|first rest]; [split; discriminate|].
  destruct hasContext; cbn [negb]; [|split; discriminate].
  set (images := first :: rest) in *. fold size.
  destruct (ro_useMain options); cbn [negb].
  - set (main := selectMain first images mainId).
    set (others := selectOthers images main).
    set (ordered := if ro_shuffleOthers options
                    then shuffleInPlace random others else others).
    assert (Hlen : len ordered <= len images - 1).
    { unfold ordered.
      rewrite (len_perm _ _ (ordered_perm (ro_shuffleOthers options) others)).
      apply selectOthers_len, selectMain_in. }
    fold (render_layout ln options ordered).
    pose proof (render_layout_cells ln File options ordered) as Hcells.
    fold size in Hcells.
    destruct (drawLoop _ _ _ _ _ _ _ _ _)
      as [events [e|[drawn polls]]] eqn:El; cbn [fst snd].
    + apply drawLoop_errors in El.
      split; intros [= ->];
        destruct El as [[? _]|[[? _]|[He Hshort]]]; try discriminate.
      split; [reflexivity|].
      destruct (Z.le_gt_cases (len ordered) (size - 2)) as [Hs|Hs]; [|lia].
      specialize (Hcells Hs). unfold render_layout in Hcells.
      fold size in Hcells. unfold len in *. lia.
    + destruct (aborted polls); [split; discriminate|].
      match goal with
      | |- context [drawItem decodeImage ?f ?dest ?d ?t ?m1 ?m2] =>
          pose proof (drawItem_trace _ _ decodeImage f dest d t m1 m2)
            as (_ & _ & _ & Herr);
          destruct (drawItem decodeImage f dest d t m1 m2)
            as [mainEvents [e|]]
      end; cbn [fst snd] in *; [|split; discriminate].
      destruct (Herr e eq_refl) as (-> & _). split; discriminate.
  - set (ordered := if ro_shuffleOthers options
                    then shuffleInPlace random images else images).
    pose proof (len_perm _ _ (ordered_perm (ro_shuffleOthers options) images))
      as Hlen.
    fold ordered in Hlen.
    destruct (flat_cells ln size (len ordered) (ro_gap options)
                ltac:(unfold size; lia) ltac:(unfold len; lia)) as [Hfit _].
    destruct (Z.eqb_spec
                (len (buildCellsFilled ln (rectZ 0 0 size size)
                        (inject_Z (len ordered)) (ro_gap options)))
                (len ordered)) as [Ec|Ec]; cbn [negb].
    + destruct (drawLoop _ _ _ _ _ _ _ _ _)
        as [events [e|[drawn polls]]] eqn:El; cbn [fst snd];
        [|split; discriminate].
      apply drawLoop_errors in El.
      split; intros [= ->];
        destruct El as [[? _]|[[? _]|[He Hshort]]]; try discriminate.
      exfalso. unfold len in *. lia.
    + split; [|discriminate]. intros _. split; [reflexivity|].
      destruct (Z.le_gt_cases (len ordered) (size * size)) as [Hs|Hs];
        [|lia].
      exfalso. apply Ec. now apply Hfit.
Qed.

(** X22. With a context, at least one and at most [size - 1] images, a
    signal that is never aborted and a decoder that accepts every image, the
    run ends without error. *)
Theorem renderCollageToCanvas_succeeds
    (images : list (CollageImageItem File)) (mainId : string)
    (options : RenderCollageOptions) :
  hasContext = true -> images <> [] ->
  len images <= Z.max 64 (js_floor (ro_size options)) - 1 ->
  (forall k, aborted k = false) ->
  (forall file, In file (map item_file images) -> decodeImage file <> None) ->
  snd (run images mainId options) = None.
Proof.
  intros Hctx Hne Hlen Hsig Hdec. unfold renderCollageToCanvas.
  destruct images as [|first rest]; [contradiction|].
  rewrite Hctx. cbn [negb].
  set (images := first :: rest) in *.
  set (size := Z.max 64 (js_floor (ro_size options))) in *.
  destruct (ro_useMain options); cbn [negb].
  - set (main := selectMain first images mainId).
    set (others := selectOthers images main).
    set (ordered := if ro_shuffleOthers options
                    then shuffleInPlace random others else others).
    assert (Hlo : len ordered <= len images - 1).
    { unfold ordered.
      rewrite (len_perm _ _ (ordered_perm (ro_shuffleOthers options) others)).
      apply selectOthers_len, selectMain_in. }
    assert (Hsub : forall f, In f (map item_file ordered) ->
                             In f (map item_file images)).
    { intros f Hf. apply ordered_files in Hf. apply in_map_iff in Hf.
      destruct Hf as (i & <- & Hi). apply in_map.
      unfold others, selectOthers in Hi. apply filter_In in Hi. apply Hi. }
    fold (render_layout ln options ordered).
    pose proof (render_layout_cells ln File options ordered) as Hcells.
    fold size in Hcells. specialize (Hcells ltac:(lia)).
    destruct (drawLoop _ _ _ _ _ _ _ _ _)
      as [events [e|[drawn polls]]] eqn:El; cbn [fst snd].
    + exfalso. apply drawLoop_errors in El.
      destruct El as [(_ & k & _ & Hk)|[(_ & pre & f & _ & Hin & Hf)|[_ Hs]]].
      * rewrite Hsig in Hk. discriminate.
      * exact (Hdec f (Hsub f Hin) Hf).
      * unfold render_layout in Hcells. fold size in Hcells.
        unfold len in *. lia.
    + rewrite Hsig.
      match goal with
      | |- context [drawItem decodeImage ?f ?dest ?d ?t ?m1 ?m2] =>
          pose proof (drawItem_trace _ _ decodeImage f dest d t m1 m2)
            as (_ & _ & _ & Herr);
          destruct (drawItem decodeImage f dest d t m1 m2)
            as [mainEvents [e|]]
      end; cbn [fst snd] in *; [exfalso|reflexivity].
      destruct (Herr e eq_refl) as (_ & Hnone & _).
      apply (Hdec (item_file main)); [|exact Hnone].
      apply in_map, selectMain_in.
  - set (ordered := if ro_shuffleOthers options
                    then shuffleInPlace random images else images).
    pose proof (len_perm _ _ (ordered_perm (ro_shuffleOthers options) images))
      as Hlo.
    fold ordered in Hlo.
    destruct (flat_cells ln size (len ordered) (ro_gap options)
                ltac:(unfold size; lia) ltac:(unfold len; lia)) as [Hfit _].
    rewrite Hfit by nia. rewrite Z.eqb_refl. cbn [negb].
    specialize (Hfit ltac:(nia)).
    destruct (drawLoop _ _ _ _ _ _ _ _ _)
      as [events [e|[drawn polls]]] eqn:El; cbn [fst snd]; [|reflexivity].
    exfalso. apply drawLoop_errors in El.
    destruct El as [(_ & k & _ & Hk)|[(_ & pre & f & _ & Hin & Hf)|[_ Hs]]].
    + rewrite Hsig in Hk. discriminate.
    + apply (Hdec f); [|exact Hf]. now apply ordered_files in Hin.
    + unfold len in *. lia.
Qed.

End Outcomes.

Lemma renderCollageToCanvas_success_witness :
  Permutation
    (decoded_files
       (fst (renderCollageToCanvas ln_approx
               (fun f : nat => Some (mkDecoded f 4 3 true)) true
               (fun _ => false) (fun _ => 1 # 2)
               [mkItem "a"%string 1%nat; mkItem "b"%string 2%nat;
                mkItem "c"%string 3%nat]
               "b"%string
               (mkRenderOptions 100 (1 # 2) 0 "white"%string true true))))
    [1%nat; 2%nat; 3%nat].
Proof.
  refine (proj1 (renderCollageToCanvas_success ln_approx nat nat
           (fun f : nat => Some (mkDecoded f 4 3 true)) true
           (fun _ => false) (fun _ => 1 # 2)
           [mkItem "a"%string 1%nat; mkItem "b"%string 2%nat;
            mkItem "c"%string 3%nat]
           "b"%string
           (mkRenderOptions 100 (1 # 2) 0 "white"%string true true) _ _)).
  - cbn [map item_id].
    repeat (apply NoDup_cons; [cbn [In]; intuition discriminate|]).
    apply NoDup_nil.
  - vm_compute. reflexivity.
Defined.

Lemma renderCollageToCanvas_succeeds_witness :
  snd (renderCollageToCanvas ln_approx
         (fun f : nat => Some (mkDecoded f 4 3 true)) true
         (fun _ => false) (fun _ => 1 # 2)
         [mkItem "a"%string 1%nat; mkItem "b"%string 2%nat;
          mkItem "c"%string 3%nat]
         "none"%string
         (mkRenderOptions 100 (1 # 2) 4 "white"%string true false))
  = None.
Proof.
  apply (renderCollageToCanvas_succeeds ln_approx nat nat
           (fun f : nat => Some (mkDecoded f 4 3 true)) true
           (fun _ => false) (fun _ => 1 # 2)
           [mkItem "a"%string 1%nat; mkItem "b"%string 2%nat;
            mkItem "c"%string 3%nat]
           "none"%string
           (mkRenderOptions 100 (1 # 2) 4 "white"%string true false)).
  - reflexivity.
  - discriminate.
  - vm_compute. discriminate.
  - reflexivity.
  - discriminate.
Defined.

Lemma renderCollageToCanvas_cell_errors_witness :
  Z.max 64 (js_floor 64) - 1
  < len (mkItem "a"%string 0%nat :: map (mkItem "b"%string) (seq 1 1000)).
Proof.
  pose proof (renderCollageToCanvas_cell_errors ln_approx nat nat
                (fun f : nat => Some (mkDecoded f 4 3 true)) true
                (fun _ => false) (fun _ => 0%Q)
                (mkItem "a"%string 0%nat
                 :: map (mkItem "b"%string) (seq 1 1000))
                "m"%string
                (mkRenderOptions 64 (95 # 100) 0 "white"%string false true))
    as H.
  cbv zeta in H. destruct H as [_ H]. apply H. vm_compute. reflexivity.
Defined.

(** ** Progress reports *)

Lemma StronglySorted_app {A} (R : A -> A -> Prop) (a b : list A) :
  StronglySorted R a -> StronglySorted R b ->
  (forall x y, In x a -> In y b -> R x y) ->
  StronglySorted R (a ++ b).
Proof.
  intros Ha Hb Hab. induction Ha as [|x a Ha IH Hx]; [exact Hb|].
  cbn [app]. apply SSorted_cons.
  - apply IH. intros u v Hu Hv. apply Hab; [now right | exact Hv].
  - apply Forall_app. split; [exact Hx|].
    apply Forall_forall. intros y Hy. apply Hab; [now left | exact Hy].
Qed.

Lemma StronglySorted_const {A} (f : A -> Z) (c : Z) (l : list A) :
  Forall (fun x => f x = c) l ->
  StronglySorted (fun x y => f x <= f y) l.
Proof.
  induction 1 as [|x l Hx Hl IH]; [apply SSorted_nil|].
  apply SSorted_cons; [exact IH|].
  eapply Forall_impl; [|exact Hl]. intros y Hy. cbv beta in Hy. lia.
Qed.

Section Progress.

Variable ln : Q -> Q.
Variables File Source : Type.
Variable decodeImage : File -> option (DecodedImage Source).
Variable hasContext : bool.
Variable aborted : nat -> bool.
Variable random : nat -> Q.

Local Abbreviation run :=
  (renderCollageToCanvas ln decodeImage hasContext aborted random).

Local Abbreviation reports := (@progress_reports File Source).

Lemma progress_reports_app (a b : list (Event File Source)) :
  reports (a ++ b) = reports a ++ reports b.
Proof.
  induction a as [|e a IH]; [reflexivity|].
  destruct e; cbn [app progress_reports]; rewrite IH; reflexivity.
Qed.

(** The reports about one image carry the number of images drawn before
    it. *)
Lemma drawItem_reports (file : File) (dest : Rect) (drawn totalToDraw : Z)
    (m1 m2 : ProgressMessage) :
  Forall (fun p => total p = totalToDraw /\ done p = drawn)
         (reports (fst (drawItem decodeImage file dest drawn totalToDraw
                                 m1 m2))).
Proof.
  unfold drawItem. destruct (decodeImage file) as [decoded|]; cbn [fst].
  - cbn [app progress_reports]. rewrite progress_reports_app.
    assert (Hq : reports (drawImageCover (dec_source decoded)
                            (dec_width decoded) (dec_height decoded) dest)
                 = []).
    { unfold drawImageCover. now destruct (_ || _). }
    assert (Hc : reports (closeDecoded (File := File) decoded) = []).
    { unfold closeDecoded. now destruct (dec_close decoded). }
    rewrite Hq, Hc. cbn [app].
    repeat (apply Forall_cons; [split; reflexivity|]). apply Forall_nil.
  - cbn [progress_reports].
    apply Forall_cons; [split; reflexivity | apply Forall_nil].
Qed.

(** The reports of the loop: the images drawn so far, never as many as
    there are to draw, and never fewer than before. *)
Lemma drawLoop_reports (ring : bool) (items : list (CollageImageItem File))
    (idx : nat) (cells : list Rect) (polls : nat) (drawn totalToDraw : Z) :
  let l :=
    reports (fst (drawLoop decodeImage aborted ring items idx cells polls
                           drawn totalToDraw)) in
  Forall (fun p => total p = totalToDraw /\
                   drawn <= done p < drawn + len items) l /\
  StronglySorted (fun p q => done p <= done q) l.
Proof.
  revert idx polls drawn. induction items as [|item rest IH];
    intros idx polls drawn; cbn [drawLoop].
  { split; [apply Forall_nil | apply SSorted_nil]. }
  destruct (aborted polls);
    [split; [apply Forall_nil | apply SSorted_nil]|].
  destruct (nth_error cells idx) as [dest|];
    [|split; [apply Forall_nil | apply SSorted_nil]].
  pose proof (drawItem_reports (item_file item) dest drawn totalToDraw
                (MsgDecode (drawn + 1) totalToDraw)
                (MsgDraw (drawn + 1) totalToDraw)) as Hitem.
  assert (Hlen : len (item :: rest) = len rest + 1)
    by (unfold len; cbn [length]; lia).
  assert (Hrest : 0 <= len rest) by (unfold len; lia).
  destruct (drawItem _ _ _ _ _ _ _) as [evs [e|]]; cbn [fst] in *.
  - split.
    + eapply Forall_impl; [|exact Hitem]. intros p [Ht Hd].
      split; [exact Ht | lia].
    + eapply StronglySorted_const.
      eapply Forall_impl; [|exact Hitem]. intros p [_ Hd]. exact Hd.
  - specialize (IH (S idx) (S polls) (drawn + 1)).
    destruct (drawLoop _ _ _ _ _ _ _ _ _) as [later result].
    cbn [fst] in *. destruct IH as [Hall Hsorted].
    rewrite !progress_reports_app.
    assert (Hframe : reports (if (idx mod 4 =? 0)%nat
                              then [EvNextFrame] else []) = [])
      by now destruct (idx mod 4 =? 0)%nat.
    rewrite Hframe. cbn [app]. split.
    + apply Forall_app. split.
      * eapply Forall_impl; [|exact Hitem]. intros p [Ht Hd].
        split; [exact Ht | lia].
      * eapply Forall_impl; [|exact Hall]. intros p [Ht Hd].
        split; [exact Ht | lia].
    + apply StronglySorted_app; [|exact Hsorted|].
      * eapply StronglySorted_const.
        eapply Forall_impl; [|exact Hitem]. intros p [_ Hd]. exact Hd.
      * intros p q Hp Hq.
        rewrite Forall_forall in Hitem, Hall.
        destruct (Hitem p Hp) as [_ Hdp]. destruct (Hall q Hq) as [_ Hdq].
        lia.
Qed.

(** The reports of a run: the one of the layout, then reports that all
    carry the number of images to draw and a number of images drawn that
    does not exceed it and never decreases. *)
Lemma run_reports (first : CollageImageItem File)
    (rest : list (CollageImageItem File)) (mainId : string)
    (options : RenderCollageOptions) :
  let t := images_to_draw first rest mainId options in
  reports (fst (run (first :: rest) mainId options)) = [] \/
  exists later,
    reports (fst (run (first :: rest) mainId options))
    = mkProgress PhaseLayout 0 1 MsgLayout :: later /\
    Forall (fun p => total p = t /\ 0 <= done p <= t) later /\
    StronglySorted (fun p q => done p <= done q) later.
Proof.
  intros t. subst t. unfold images_to_draw, renderCollageToCanvas.
  destruct hasContext; cbn [negb]; [|now left]. right.
  set (images := first :: rest).
  destruct (ro_useMain options); cbn [negb].
  - set (main := selectMain first images mainId).
    set (others := selectOthers images main).
    set (ordered := if ro_shuffleOthers options
                    then shuffleInPlace random others else others).
    assert (Hlen : len ordered = len others).
    { unfold ordered. destruct (ro_shuffleOthers options);
        [apply shuffle_len | reflexivity]. }
    assert (Hpos : 0 <= len ordered) by (unfold len; lia).
    rewrite <- Hlen.
    match goal with
    | |- context [drawLoop decodeImage aborted true ?its 0 ?cs 0 0 ?t] =>
        pose proof (drawLoop_reports true its 0 cs 0 0 t) as [Hall Hsorted];
        pose proof (drawLoop_files _ _ decodeImage aborted true its 0 cs 0 0 t)
          as Hfiles;
        destruct (drawLoop decodeImage aborted true its 0 cs 0 0 t)
          as [events [e|[drawn polls]]]
    end; cbn [fst snd] in *.
    + exists (reports events). rewrite progress_reports_app.
      split; [reflexivity|]. split; [|exact Hsorted].
      eapply Forall_impl; [|exact Hall]. intros p [Ht Hd].
      split; [exact Ht | lia].
    + destruct (Hfiles _ _ _ eq_refl) as [_ ->]. rewrite Z.add_0_l.
      assert (Hloop : Forall (fun p => total p = len ordered + 1 /\
                                       0 <= done p <= len ordered + 1)
                             (reports events)).
      { eapply Forall_impl; [|exact Hall]. intros p [Ht Hd].
        split; [exact Ht | lia]. }
      destruct (aborted polls); cbn [fst].
      * exists (reports events). rewrite progress_reports_app.
        split; [reflexivity|]. split; [exact Hloop | exact Hsorted].
      * match goal with
        | |- context [drawItem decodeImage ?f ?dest ?d ?t ?m1 ?m2] =>
            pose proof (drawItem_reports f dest d t m1 m2) as Hmain;
            destruct (drawItem decodeImage f dest d t m1 m2)
              as [mainEvents [e|]]
        end; cbn [fst] in *.
        -- exists (reports events ++ reports mainEvents).
           rewrite !progress_reports_app. split; [reflexivity|]. split.
           ++ apply Forall_app. split; [exact Hloop|].
              eapply Forall_impl; [|exact Hmain]. intros p [Ht Hd].
              split; [exact Ht | lia].
           ++ apply StronglySorted_app; [exact Hsorted| |].
              ** eapply StronglySorted_const.
                 eapply Forall_impl; [|exact Hmain]. intros p [_ Hd].
                 exact Hd.
              ** intros p q Hp Hq. rewrite Forall_forall in Hall, Hmain.
                 destruct (Hall p Hp) as [_ Hdp].
                 destruct (Hmain q Hq) as [_ Hdq]. lia.
        -- exists (reports events ++ reports mainEvents
                   ++ [mkProgress PhaseRender (len ordered + 1)
                                  (len ordered + 1) MsgDone]).
           rewrite !progress_reports_app. split; [reflexivity|]. split.
           ++ apply Forall_app. split; [exact Hloop|].
              apply Forall_app. split.
              ** eapply Forall_impl; [|exact Hmain]. intros p [Ht Hd].
                 split; [exact Ht | lia].
              ** apply Forall_cons; [|apply Forall_nil].
                 cbn [total done]. lia.
           ++ apply StronglySorted_app; [exact Hsorted| |].
              ** apply StronglySorted_app.
                 --- eapply StronglySorted_const.
                     eapply Forall_impl; [|exact Hmain]. intros p [_ Hd].
                     exact Hd.
                 --- apply SSorted_cons; [apply SSorted_nil | apply Forall_nil].
                 --- intros p q Hp [<-|[]]. rewrite Forall_forall in Hmain.
                     destruct (Hmain p Hp) as [_ Hdp]. cbn [done]. lia.
              ** intros p q Hp Hq. rewrite Forall_forall in Hall, Hmain.
                 destruct (Hall p Hp) as [_ Hdp].
                 apply in_app_or in Hq. destruct Hq as [Hq|[<-|[]]].
                 --- destruct (Hmain q Hq) as [_ Hdq]. lia.
                 --- cbn [done]. lia.
  - set (ordered := if ro_shuffleOthers options
                    then shuffleInPlace random images else images).
    assert (Hlen : len ordered = len images).
    { unfold ordered. destruct (ro_shuffleOthers options);
        [apply shuffle_len | reflexivity]. }
    assert (Hpos : 0 <= len ordered) by (unfold len; lia).
    rewrite <- Hlen.
    destruct (len _ =? len _); cbn [negb fst].
    2:{ exists []. split; [reflexivity|].
        split; [apply Forall_nil | apply SSorted_nil]. }
    match goal with
    | |- context [drawLoop decodeImage aborted false ?its 0 ?cs 0 0 ?t] =>
        pose proof (drawLoop_reports false its 0 cs 0 0 t) as [Hall Hsorted];
        pose proof (drawLoop_files _ _ decodeImage aborted false its 0 cs 0 0 t)
          as Hfiles;
        destruct (drawLoop decodeImage aborted false its 0 cs 0 0 t)
          as [events [e|[drawn polls]]]
    end; cbn [fst snd] in *.
    + exists (reports events). rewrite progress_reports_app.
      split; [reflexivity|]. split; [|exact Hsorted].
      eapply Forall_impl; [|exact Hall]. intros p [Ht Hd].
      split; [exact Ht | lia].
    + destruct (Hfiles _ _ _ eq_refl) as [_ ->]. rewrite Z.add_0_l.
      exists (reports events
              ++ [mkProgress PhaseRender (len ordered) (len ordered)
                             MsgDone]).
      rewrite !progress_reports_app. split; [reflexivity|]. split.
      * apply Forall_app. split.
        -- eapply Forall_impl; [|exact Hall]. intros p [Ht Hd].
           split; [exact Ht | lia].
        -- apply Forall_cons; [|apply Forall_nil]. cbn [total done]. lia.
      * apply StronglySorted_app; [exact Hsorted| |].
        -- apply SSorted_cons; [apply SSorted_nil | apply Forall_nil].
        -- intros p q Hp [<-|[]]. rewrite Forall_forall in Hall.
           destruct (Hall p Hp) as [_ Hdp]. cbn [done]. lia.
Qed.

(** *** The percentage shown by the page *)

Lemma percent_le (d d' t : Z) :
  0 <= d <= d' -> 0 <= t ->
  progressPercent (Some (mkProgress PhaseRender d t MsgDone))
  <= progressPercent (Some (mkProgress PhaseRender d' t MsgDone)).
Proof.
  intros Hd Ht. unfold progressPercent, js_round. cbn [done total].
  apply Qfloor_resp_le. apply Qplus_le_l.
  apply Qmult_le_compat_r; [|discriminate].
  apply Qmult_le_compat_r; [rewrite <- Zle_Qle; lia|].
  apply Qinv_le_0_compat. change 0%Q with (inject_Z 0).
  rewrite <- Zle_Qle. lia.
Qed.

Lemma percent_phase (p : CollageProgress) :
  progressPercent (Some p)
  = progressPercent (Some (mkProgress PhaseRender (done p) (total p) MsgDone)).
Proof. reflexivity. Qed.

Lemma percent_none (t : Z) :
  progressPercent (Some (mkProgress PhaseRender 0 t MsgDone)) = 0.
Proof.
  unfold progressPercent, js_round. cbn [done total].
  assert (E : (inject_Z 0 / inject_Z (Z.max 1 t) * 100 + (1 # 2) == 1 # 2)%Q).
  { change (inject_Z 0) with 0%Q. unfold Qdiv. rewrite !Qmult_0_l.
    reflexivity. }
  rewrite E. reflexivity.
Qed.

Lemma percent_all (t : Z) :
  1 <= t -> progressPercent (Some (mkProgress PhaseRender t t MsgDone)) = 100.
Proof.
  intros Ht. unfold progressPercent, js_round. cbn [done total].
  rewrite Z.max_r by lia.
  assert (E : (inject_Z t / inject_Z t * 100 + (1 # 2) == 201 # 2)%Q).
  { assert (~ inject_Z t == 0)%Q.
    { change 0%Q with (inject_Z 0). rewrite inject_Z_injective. lia. }
    field. assumption. }
  rewrite E. reflexivity.
Qed.

Lemma percent_bounds (p : CollageProgress) :
  0 <= done p <= total p -> 0 <= progressPercent (Some p) <= 100.
Proof.
  intros Hd. rewrite percent_phase.
  destruct (Z.eq_dec (total p) 0) as [E|E].
  - assert (done p = 0) as -> by lia. rewrite percent_none. lia.
  - split.
    + rewrite <- (percent_none (total p)). apply percent_le; lia.
    + rewrite <- (percent_all (total p)) by lia. apply percent_le; lia.
Qed.


(** X23. The progress reported during a run never goes back and never
    overshoots: in every report [0 <= done <= total], the reports are in
    the order of [done], and every report after the first, that of the
    layout, carries the same [total]: the number of images to draw. *)
Theorem renderCollageToCanvas_progress (first : CollageImageItem File)
    (rest : list (CollageImageItem File)) (mainId : string)
    (options : RenderCollageOptions) :
  let l := reports (fst (run (first :: rest) mainId options)) in
  Forall (fun p => 0 <= done p <= total p) l /\
  StronglySorted (fun p q => done p <= done q) l /\
  Forall (fun p => total p = images_to_draw first rest mainId options)
         (tl l).
Proof.
  intros l. subst l.
  destruct (run_reports first rest mainId options)
    as [->|(later & -> & Hall & Hsorted)].
  { split; [apply Forall_nil|]. split; [apply SSorted_nil | apply Forall_nil]. }
  cbn [tl]. split; [|split].
  - apply Forall_cons; [cbn [done total]; lia|].
    eapply Forall_impl; [|exact Hall]. intros p [-> Hd]. exact Hd.
  - apply SSorted_cons; [exact Hsorted|].
    eapply Forall_impl; [|exact Hall]. intros p [_ Hd]. cbn [done]. lia.
  - eapply Forall_impl; [|exact Hall]. intros p [Ht _]. exact Ht.
Qed.

(** The last report of a run that ends without error: everything done. *)
Lemma run_last_report (first : CollageImageItem File)
    (rest : list (CollageImageItem File)) (mainId : string)
    (options : RenderCollageOptions) :
  let t := images_to_draw first rest mainId options in
  snd (run (first :: rest) mainId options) = None ->
  exists before,
    reports (fst (run (first :: rest) mainId options))
    = before ++ [mkProgress PhaseRender t t MsgDone].
Proof.
  intros t. subst t. unfold images_to_draw, renderCollageToCanvas.
  destruct hasContext; cbn [negb]; [|discriminate].
  set (images := first :: rest).
  destruct (ro_useMain options); cbn [negb].
  - set (main := selectMain first images mainId).
    set (others := selectOthers images main).
    set (ordered := if ro_shuffleOthers options
                    then shuffleInPlace random others else others).
    assert (Hlen : len ordered = len others).
    { unfold ordered. destruct (ro_shuffleOthers options);
        [apply shuffle_len | reflexivity]. }
    rewrite <- Hlen.
    destruct (drawLoop _ _ _ _ _ _ _ _ _)
      as [events [e|[drawn polls]]] eqn:El; cbn [fst snd]; [discriminate|].
    apply drawLoop_files in El. destruct El as [_ ->].
    destruct (aborted polls); [discriminate|].
    destruct (drawItem _ _ _ _ _ _ _) as [mainEvents [e|]];
      cbn [fst snd]; [discriminate|].
    intros _. rewrite Z.add_0_l, !app_assoc, progress_reports_app.
    eexists. reflexivity.
  - set (ordered := if ro_shuffleOthers options
                    then shuffleInPlace random images else images).
    assert (Hlen : len ordered = len images).
    { unfold ordered. destruct (ro_shuffleOthers options);
        [apply shuffle_len | reflexivity]. }
    rewrite <- Hlen.
    destruct (len _ =? len _); cbn [negb]; [|discriminate].
    destruct (drawLoop _ _ _ _ _ _ _ _ _)
      as [events [e|[drawn polls]]] eqn:El; cbn [fst snd]; [discriminate|].
    apply drawLoop_files in El. destruct El as [_ ->].
    intros _. rewrite Z.add_0_l, !app_assoc, progress_reports_app.
    eexists. reflexivity.
Qed.

Lemma images_to_draw_pos (first : CollageImageItem File)
    (rest : list (CollageImageItem File)) (mainId : string)
    (options : RenderCollageOptions) :
  1 <= images_to_draw first rest mainId options.
Proof.
  unfold images_to_draw, len.
  destruct (ro_useMain options); cbn [length]; lia.
Qed.

(** X24. With the progress callback of the page, which stores each report
    in its state, the percentage shown during a run stays between 0 and 100
    and never decreases; and it is 100 at the end of a run without
    error. *)
Theorem progressPercent_run (first : CollageImageItem File)
    (rest : list (CollageImageItem File)) (mainId : string)
    (options : RenderCollageOptions) :
  let l := reports (fst (run (first :: rest) mainId options)) in
  Forall (fun p => 0 <= progressPercent (Some p) <= 100) l /\
  StronglySorted (fun p q => progressPercent (Some p)
                             <= progressPercent (Some q)) l /\
  (snd (run (first :: rest) mainId options) = None ->
   progressPercent (last (map Some l) None) = 100).
Proof.
  intros l. subst l.
  pose proof (run_last_report first rest mainId options) as Hlast.
  pose proof (images_to_draw_pos first rest mainId options) as Hpos.
  cbv zeta in Hlast.
  destruct (run_reports first rest mainId options)
    as [E|(later & E & Hall & Hsorted)]; rewrite E in *.
  { split; [apply Forall_nil|]. split; [apply SSorted_nil|].
    intros Hok. destruct (Hlast Hok) as [before Hb].
    now destruct before. }
  split; [|split].
  - apply Forall_cons; [apply percent_bounds; cbn [done total]; lia|].
    eapply Forall_impl; [|exact Hall]. intros p [Ht Hd].
    apply percent_bounds. lia.
  - apply SSorted_cons.
    + clear E Hlast. induction Hsorted as [|p later Hs IH Hp];
        [apply SSorted_nil|].
      pose proof (Forall_inv Hall) as [Htp Hdp].
      apply SSorted_cons; [apply IH; now apply Forall_inv_tail in Hall|].
      apply Forall_inv_tail in Hall.
      rewrite Forall_forall in Hp, Hall. apply Forall_forall.
      intros q Hq. destruct (Hall q Hq) as [Htq Hdq].
      specialize (Hp q Hq). cbv beta in Hp.
      rewrite (percent_phase p), (percent_phase q), Htp, Htq.
      apply percent_le; lia.
    + eapply Forall_impl; [|exact Hall]. intros p [Ht Hd].
      rewrite (percent_phase (mkProgress _ _ _ _)). cbn [done total].
      change (progressPercent (Some (mkProgress PhaseRender 0 1 MsgDone)))
        with 0.
      apply percent_bounds. lia.
  - intros Hok. destruct (Hlast Hok) as [before ->].
    rewrite map_app. cbn [map]. rewrite last_last.
    now apply percent_all.
Qed.

End Progress.

Lemma progressPercent_run_witness :
  progressPercent
    (last (map Some
             (progress_reports
                (fst (renderCollageToCanvas ln_approx
                        (fun f : nat => Some (mkDecoded f 4 3 true)) true
                        (fun _ => false) (fun _ => 1 # 2)
                        [mkItem "a"%string 1%nat; mkItem "b"%string 2%nat;
                         mkItem "c"%string 3%nat]
                        "b"%string
                        (mkRenderOptions 100 (1 # 2) 0 "white"%string true
                                         true)))))
          None)
  = 100.
Proof.
  refine (proj2 (proj2 (progressPercent_run ln_approx nat nat
                          (fun f : nat => Some (mkDecoded f 4 3 true)) true
                          (fun _ => false) (fun _ => 1 # 2)
                          (mkItem "a"%string 1%nat)
                          [mkItem "b"%string 2%nat; mkItem "c"%string 3%nat]
                          "b"%string
                          (mkRenderOptions 100 (1 # 2) 0 "white"%string true
                                           true)))
                _).
  vm_compute. reflexivity.
Defined.

(** ** Where the images are drawn *)

Lemma subsequence_nil_l {A} (l : list A) : subsequence [] l.
Proof.
  induction l as [|x l IH]; [apply subsequence_nil|].
  now apply subsequence_skip.
Qed.

Lemma subsequence_refl {A} (l : list A) : subsequence l l.
Proof.
  induction l as [|x l IH]; [apply subsequence_nil|].
  now apply subsequence_take.
Qed.

Lemma subsequence_app {A} (a l b m : list A) :
  subsequence a l -> subsequence b m -> subsequence (a ++ b) (l ++ m).
Proof.
  intros Ha Hb. induction Ha as [|x sub l Ha IH|x sub l Ha IH];
    cbn [app]; [exact Hb | now apply subsequence_skip
                | now apply subsequence_take].
Qed.

Lemma skipn_nth_error {A} (l : list A) (i : nat) (x : A) :
  nth_error l i = Some x -> skipn i l = x :: skipn (S i) l.
Proof.
  revert l. induction i as [|i IH]; intros [|y l] H; try discriminate.
  - now injection H as ->.
  - cbn [nth_error] in H. cbn [skipn]. rewrite (IH l H). reflexivity.
Qed.

Lemma pixel_cell_positive (c : Rect) :
  pixel_cell c -> (0 < rect_width c)%Q /\ (0 < rect_height c)%Q.
Proof.
  intros (x & y & w & h & -> & Hw & Hh). cbn [rectZ rect_width rect_height].
  change 0%Q with (inject_Z 0). rewrite <- !Zlt_Qlt. lia.
Qed.

(** The ring never has more cells than images were asked for. *)
Lemma ringCells_le (ln : Q -> Q) (options : CollageLayoutOptions) :
  len (ringCells (computeCollageLayout ln options))
  <= Z.max 0 (js_floor (opt_othersCount options)).
Proof.
  rewrite (ringCells_length ln options), <- (counts_sum options).
  pose proof (counts_over_regions options (fun c _ => c)) as Hall.
  cbv beta in Hall. fold (counts_total (layout_counts options)) in Hall.
  rewrite <- Hall. generalize (layout_regions options). intros l.
  induction l as [|r l IH]; [cbn; lia|].
  cbn [map sumZ fold_right].
  fold (sumZ (map (region_cells_count (layout_counts options)) l)).
  fold (sumZ (map (fun r => get_count (layout_counts options)
                                      (region_name r)) l)).
  pose proof (counts_nonneg options (region_name r)).
  unfold region_cells_count at 1.
  destruct (_ <=? _); lia.
Qed.

Lemma mainRect_positive (ln : Q -> Q) (options : CollageLayoutOptions) :
  (0 < rect_width (mainRect (computeCollageLayout ln options)))%Q /\
  (0 < rect_height (mainRect (computeCollageLayout ln options)))%Q.
Proof.
  destruct (layout_fields ln options) as (_ & _ & -> & _).
  destruct (computeRegions_shape (layout_canvas options)
              (opt_mainRatio options) (size_ge_64 options))
    as (m & t & Hm & _ & _ & (_ & _ & Ew & Eh) & _).
  rewrite Ew, Eh. cbn [rectZ rect_width rect_height].
  change 0%Q with (inject_Z 0). rewrite <- !Zlt_Qlt. lia.
Qed.

Section Destinations.

Variable ln : Q -> Q.
Variables File Source : Type.
Variable decodeImage : File -> option (DecodedImage Source).
Variable hasContext : bool.
Variable aborted : nat -> bool.
Variable random : nat -> Q.

Local Abbreviation run :=
  (renderCollageToCanvas ln decodeImage hasContext aborted random).

Local Abbreviation dests := (@draw_destinations File Source).

(** Every decoded image has a width and a height above 0. *)
Local Abbreviation decodes_positive :=
  (forall file decoded,
     decodeImage file = Some decoded ->
     (0 < dec_width decoded)%Q /\ (0 < dec_height decoded)%Q).

Local Abbreviation positive_cell :=
  (fun c : Rect => (0 < rect_width c)%Q /\ (0 < rect_height c)%Q).

Lemma draw_destinations_app (a b : list (Event File Source)) :
  dests (a ++ b) = dests a ++ dests b.
Proof.
  induction a as [|e a IH]; [reflexivity|].
  destruct e; cbn [app draw_destinations]; rewrite IH; reflexivity.
Qed.

(** One image is drawn into its cell, or not at all. *)
Lemma drawItem_destinations (file : File) (dest : Rect)
    (drawn totalToDraw : Z) (m1 m2 : ProgressMessage) :
  let r := drawItem decodeImage file dest drawn totalToDraw m1 m2 in
  subsequence (dests (fst r)) [dest] /\
  (snd r = None -> decodes_positive -> positive_cell dest ->
   dests (fst r) = [dest]).
Proof.
  intros r. subst r. unfold drawItem.
  destruct (decodeImage file) as [decoded|] eqn:Ed; cbn [fst snd].
  2:{ split; [apply subsequence_nil_l | discriminate]. }
  cbn [app draw_destinations]. rewrite draw_destinations_app.
  assert (Hc : dests (closeDecoded decoded) = []).
  { unfold closeDecoded. now destruct (dec_close decoded). }
  rewrite Hc, app_nil_r. unfold drawImageCover. split.
  - destruct (_ || _); [apply subsequence_nil_l | apply subsequence_refl].
  - intros _ Hpos [Hw Hh]. destruct (Hpos file decoded Ed) as [Hdw Hdh].
    now rewrite !Qle_bool_pos.
Qed.

(** The loop draws into the cells from [idx] on, each at most once, in
    order; and into each of them, one per image, when it ends without
    error and nothing is empty. *)
Lemma drawLoop_destinations (ring : bool)
    (items : list (CollageImageItem File)) (idx : nat) (cells : list Rect)
    (polls : nat) (drawn totalToDraw : Z) :
  let r :=
    drawLoop decodeImage aborted ring items idx cells polls drawn
             totalToDraw in
  subsequence (dests (fst r)) (skipn idx cells) /\
  (forall d p, snd r = inr (d, p) -> decodes_positive ->
               Forall positive_cell cells ->
               dests (fst r) = firstn (length items) (skipn idx cells)).
Proof.
  revert idx polls drawn. induction items as [|item rest IH];
    intros idx polls drawn; cbn [drawLoop fst snd].
  { split; [apply subsequence_nil_l | reflexivity]. }
  destruct (aborted polls);
    [split; [apply subsequence_nil_l | discriminate]|].
  destruct (nth_error cells idx) as [dest|] eqn:Ecell;
    [|split; [apply subsequence_nil_l | discriminate]].
  rewrite (skipn_nth_error _ _ _ Ecell).
  pose proof (drawItem_destinations (item_file item) dest drawn totalToDraw
                (MsgDecode (drawn + 1) totalToDraw)
                (MsgDraw (drawn + 1) totalToDraw)) as [Hsub Hall].
  destruct (drawItem _ _ _ _ _ _ _) as [evs [e|]]; cbn [fst snd] in *.
  { split; [|discriminate].
    rewrite <- (app_nil_r (dests evs)).
    apply (subsequence_app _ [dest] [] _ Hsub), subsequence_nil_l. }
  specialize (IH (S idx) (S polls) (drawn + 1)).
  destruct (drawLoop _ _ _ _ _ _ _ _ _) as [later result].
  cbn [fst snd] in *. destruct IH as [Hlater Hrest].
  rewrite !draw_destinations_app.
  assert (Hframe : dests (if (idx mod 4 =? 0)%nat
                          then [EvNextFrame] else []) = [])
    by now destruct (idx mod 4 =? 0)%nat.
  rewrite Hframe. cbn [app]. split.
  - apply (subsequence_app _ [dest] _ _ Hsub Hlater).
  - intros d p -> Hpos Hcells. cbn [length firstn].
    rewrite (Hall eq_refl Hpos), (Hrest d p eq_refl Hpos Hcells);
      [reflexivity|].
    rewrite Forall_forall in Hcells. apply Hcells.
    eapply nth_error_In, Ecell.
Qed.

Lemma render_layout_len (options : RenderCollageOptions)
    (a b : list (CollageImageItem File)) :
  len a = len b -> render_layout ln options a = render_layout ln options b.
Proof. intros E. unfold render_layout. now rewrite E. Qed.


End Destinations.


(** ** The helpers of the page *)

Lemma dash_unit_eq (c : CodeUnit) :
  dash_unit c = true <-> c = code "-"%char.
Proof. unfold dash_unit. apply Z.eqb_eq. Qed.

Lemma dash_safe : safe_unit (code "-"%char) = true.
Proof. reflexivity. Qed.

Lemma replaceRuns_length (class : CodeUnit -> bool) (inRun : bool)
    (input : list CodeUnit) :
  (length (replaceRuns class inRun input) <= length input)%nat.
Proof.
  revert inRun. induction input as [|c rest IH]; intros inRun;
    cbn [replaceRuns length]; [lia|].
  destruct (class c); [destruct inRun|]; cbn [length];
    match goal with
    | |- context [replaceRuns class ?b rest] => specialize (IH b); lia
    end.
Qed.

(** A unit of the result is a dash or a unit of the input outside the
    class. *)
Lemma replaceRuns_units (class : CodeUnit -> bool) (inRun : bool)
    (input : list CodeUnit) :
  Forall (fun c => c = code "-"%char \/ (In c input /\ class c = false))
         (replaceRuns class inRun input).
Proof.
  revert inRun. induction input as [|c rest IH]; intros inRun;
    cbn [replaceRuns]; [apply Forall_nil|].
  assert (Hrest : forall b,
             Forall (fun u => u = code "-"%char \/
                              (In u (c :: rest) /\ class u = false))
                    (replaceRuns class b rest)).
  { intros b. eapply Forall_impl; [|apply (IH b)].
    intros u [Hu|[Hu Hc]]; [now left | right; split; [now right | exact Hc]]. }
  destruct (class c) eqn:Ec; [destruct inRun|].
  - apply Hrest.
  - apply Forall_cons; [now left | apply Hrest].
  - apply Forall_cons; [right; split; [now left | exact Ec] | apply Hrest].
Qed.

Lemma replaceRuns_nonempty (class : CodeUnit -> bool)
    (input : list CodeUnit) :
  input <> [] -> replaceRuns class false input <> [].
Proof.
  destruct input as [|c rest]; [contradiction|]. intros _.
  cbn [replaceRuns]. destruct (class c); discriminate.
Qed.

(** After a run of dashes no dash follows at once. *)
Lemma replaceRuns_dashes (inRun : bool) (input : list CodeUnit) :
  single_dashes (replaceRuns dash_unit inRun input) /\
  (inRun = true ->
   match replaceRuns dash_unit inRun input with
   | [] => True
   | c :: _ => dash_unit c = false
   end).
Proof.
  revert inRun. induction input as [|c rest IH]; intros inRun;
    cbn [replaceRuns]; [split; [exact I | intros _; exact I]|].
  destruct (dash_unit c) eqn:Ec; [destruct inRun|].
  - apply IH.
  - destruct (IH true) as [Hs Hhd]. specialize (Hhd eq_refl).
    split; [|discriminate].
    destruct (replaceRuns dash_unit true rest) as [|d out];
      [exact I|].
    cbn [single_dashes]. split; [|exact Hs].
    intros [_ Hd]. congruence.
  - destruct (IH false) as [Hs _]. split; [|intros _; exact Ec].
    destruct (replaceRuns dash_unit false rest) as [|d out];
      [exact I|].
    cbn [single_dashes]. split; [|exact Hs].
    intros [Hc _]. congruence.
Qed.

Lemma single_dashes_firstn (n : nat) (s : list CodeUnit) :
  single_dashes s -> single_dashes (firstn n s).
Proof.
  revert s. induction n as [|n IH]; intros s Hs; [exact I|].
  destruct s as [|a [|b rest]]; [exact I | destruct n; exact I |].
  destruct Hs as [Hab Hs]. specialize (IH (b :: rest) Hs).
  destruct n as [|n]; [exact I|].
  cbn [firstn] in *. cbn [single_dashes]. split; assumption.
Qed.

Lemma Forall_slice {A} (P : A -> Prop) (n : nat) (s : list A) :
  Forall P s -> Forall P (firstn n s).
Proof.
  intros H. revert n. induction H as [|a s Ha _ IH]; intros [|n];
    cbn [firstn]; try apply Forall_nil.
  apply Forall_cons; [exact Ha | apply IH].
Qed.

Lemma replaceRuns_outside (class : CodeUnit -> bool) (inRun : bool)
    (input : list CodeUnit) :
  Forall (fun c => class c = false) input ->
  replaceRuns class inRun input = input.
Proof.
  intros H. revert inRun.
  induction H as [|c rest Hc _ IH]; intros inRun; [reflexivity|].
  cbn [replaceRuns]. now rewrite Hc, IH.
Qed.

Lemma replaceRuns_single (inRun : bool) (input : list CodeUnit) :
  single_dashes input ->
  (inRun = true ->
   match input with [] => True | c :: _ => dash_unit c = false end) ->
  replaceRuns dash_unit inRun input = input.
Proof.
  revert inRun. induction input as [|c rest IH]; intros inRun Hs Hhd;
    [reflexivity|].
  cbn [replaceRuns].
  assert (Hrest : single_dashes rest).
  { destruct rest as [|d rest]; [exact I | apply Hs]. }
  destruct (dash_unit c) eqn:Ec.
  - destruct inRun; [specialize (Hhd eq_refl); congruence|].
    apply dash_unit_eq in Ec. subst c. f_equal.
    apply IH; [exact Hrest|]. intros _.
    destruct rest as [|d rest]; [exact I|].
    destruct Hs as [Hs _]. destruct (dash_unit d); [|reflexivity].
    exfalso. apply Hs. split; reflexivity.
  - f_equal. apply IH; [exact Hrest | discriminate].
Qed.

(** X26. Whatever the file name, [safeFilenamePart] returns at most 80
    units, all of them among [a-z], [A-Z], [0-9], [.], [_] and [-], with no
    two dashes in a row; and it returns at least one unit unless the name
    is empty. *)
Theorem safeFilenamePart_safe (input : list CodeUnit) :
  (length (safeFilenamePart input) <= 80)%nat /\
  Forall (fun c => safe_unit c = true) (safeFilenamePart input) /\
  single_dashes (safeFilenamePart input) /\
  (safeFilenamePart input = [] <-> input = []).
Proof.
  unfold safeFilenamePart, slice0, replaceAll.
  set (once := replaceRuns unsafe_unit false input).
  set (twice := replaceRuns dash_unit false once).
  split; [apply firstn_le_length|]. split; [|split].
  - apply Forall_slice.
    pose proof (replaceRuns_units dash_unit false once) as H2.
    pose proof (replaceRuns_units unsafe_unit false input) as H1.
    fold once in H1. fold twice in H2.
    rewrite Forall_forall in H1, H2. apply Forall_forall. intros c Hc.
    destruct (H2 c Hc) as [->|[Hin _]]; [exact dash_safe|].
    destruct (H1 c Hin) as [->|[_ Hsafe]]; [exact dash_safe|].
    unfold unsafe_unit in Hsafe. now apply negb_false_iff in Hsafe.
  - apply single_dashes_firstn, replaceRuns_dashes.
  - split.
    + intros E. destruct input as [|c rest]; [reflexivity|]. exfalso.
      assert (Hne : twice <> []).
      { apply replaceRuns_nonempty, replaceRuns_nonempty. discriminate. }
      destruct twice; [now apply Hne | discriminate].
    + intros ->. reflexivity.
Qed.

(** X27. A name that is already safe is left as it is: at most 80 units,
    all among the allowed ones, no two dashes in a row.  So cleaning a name
    twice gives the same as cleaning it once. *)
Theorem safeFilenamePart_fixed (input : list CodeUnit) :
  ((length input <= 80)%nat ->
   Forall (fun c => safe_unit c = true) input ->
   single_dashes input ->
   safeFilenamePart input = input) /\
  safeFilenamePart (safeFilenamePart input) = safeFilenamePart input.
Proof.
  assert (Hfix : forall s,
             (length s <= 80)%nat ->
             Forall (fun c => safe_unit c = true) s ->
             single_dashes s -> safeFilenamePart s = s).
  { intros s Hlen Hsafe Hs. unfold safeFilenamePart, slice0, replaceAll.
    rewrite (replaceRuns_outside unsafe_unit).
    - rewrite replaceRuns_single by (exact Hs || discriminate).
      now apply firstn_all2.
    - eapply Forall_impl; [|exact Hsafe]. intros c Hc.
      unfold unsafe_unit. now rewrite Hc. }
  split; [apply Hfix|].
  unfold safeFilenamePart at 2 3, slice0, replaceAll.
  set (once := replaceRuns unsafe_unit false input).
  set (twice := replaceRuns dash_unit false once).
  apply Hfix.
  - apply firstn_le_length.
  - apply Forall_slice.
    pose proof (replaceRuns_units dash_unit false once) as H2.
    pose proof (replaceRuns_units unsafe_unit false input) as H1.
    fold once in H1. fold twice in H2.
    rewrite Forall_forall in H1, H2. apply Forall_forall. intros c Hc.
    destruct (H2 c Hc) as [->|[Hin _]]; [exact dash_safe|].
    destruct (H1 c Hin) as [->|[_ Hsafe]]; [exact dash_safe|].
    unfold unsafe_unit in Hsafe. now apply negb_false_iff in Hsafe.
  - apply single_dashes_firstn, replaceRuns_dashes.
Qed.

Lemma safeFilenamePart_fixed_witness :
  safeFilenamePart (units "IMG_2041-b.jpg") = units "IMG_2041-b.jpg".
Proof.
  apply (proj1 (safeFilenamePart_fixed (units "IMG_2041-b.jpg"))).
  - cbn. lia.
  - repeat (apply Forall_cons; [reflexivity|]). apply Forall_nil.
  - cbn. repeat split; intros [H1 H2]; discriminate.
Defined.

(** X28. For an export size above 0, the gap of a canvas is a whole number
    of pixels, not negative; it is the rounded export gap on a canvas of
    the export size; and for an export gap that is not negative it does
    not shrink when the canvas grows. *)
Theorem scaledGap_spec (gapPxAtExport exportSize : Q) :
  (0 < exportSize)%Q ->
  (forall size, 0 <= scaledGap gapPxAtExport exportSize size) /\
  scaledGap gapPxAtExport exportSize exportSize
    = Z.max 0 (js_round gapPxAtExport) /\
  ((0 <= gapPxAtExport)%Q ->
   forall size size' : Q,
     (size <= size')%Q ->
     scaledGap gapPxAtExport exportSize size
     <= scaledGap gapPxAtExport exportSize size').
Proof.
  intros He. unfold scaledGap. split; [intros; lia|]. split.
  - f_equal. unfold js_round.
    assert (E : (gapPxAtExport * (exportSize / exportSize) + (1 # 2)
                 == gapPxAtExport + (1 # 2))%Q) by (field; lra).
    now rewrite E.
  - intros Hg size size' Hle. apply Z.max_le_compat_l.
    unfold js_round. apply Qfloor_resp_le. apply Qplus_le_l.
    rewrite !(Qmult_comm gapPxAtExport).
    apply Qmult_le_compat_r; [|exact Hg].
    apply Qmult_le_compat_r; [exact Hle|].
    apply Qinv_le_0_compat. lra.
Qed.

Lemma scaledGap_spec_witness :
  scaledGap 6 4096 4096 = Z.max 0 (js_round 6).
Proof.
  apply (proj1 (proj2 (scaledGap_spec 6 4096 ltac:(reflexivity)))).
Defined.

(** ** The previous revision *)

Lemma scale_le (a b : Z) (c : Q) :
  a <= b -> (0 <= c)%Q -> (inject_Z a * c <= inject_Z b * c)%Q.
Proof.
  intros Hab Hc. apply Qmult_le_compat_r; [|exact Hc].
  now rewrite <- Zle_Qle.
Qed.

Lemma ForallOrdPairs_map_seq {A} (R : A -> A -> Prop) (f : nat -> A)
    (a k : nat) :
  (forall i j, (a <= i < j)%nat -> (j < a + k)%nat -> R (f i) (f j)) ->
  ForallOrdPairs R (map f (seq a k)).
Proof.
  revert a. induction k as [|k IH]; intros a H; cbn [seq map];
    [apply FOP_nil|].
  apply FOP_cons.
  - apply Forall_forall. intros x Hx. apply in_map_iff in Hx.
    destruct Hx as (j & <- & Hj). apply in_seq in Hj. apply H; lia.
  - apply IH. intros i j Hij Hj. apply H; lia.
Qed.

Section PreviousGrid.

Variable ln : Q -> Q.

Lemma ceil_div_bounds (n r : Z) :
  1 <= n -> 1 <= r ->
  1 <= Previous.js_ceil (inject_Z n / inject_Z r) /\
  n <= r * Previous.js_ceil (inject_Z n / inject_Z r).
Proof.
  intros Hn Hr. unfold Previous.js_ceil.
  set (q := (inject_Z n / inject_Z r)%Q).
  pose proof (Qle_ceiling q) as Hc.
  assert (Hr0 : (0 < inject_Z r)%Q) by (apply inject_Z_pos; lia).
  assert (Hq : (q * inject_Z r == inject_Z n)%Q).
  { unfold q. field. lra. }
  assert (Hn0 : (0 < inject_Z n)%Q) by (apply inject_Z_pos; lia).
  assert (Hqpos : (0 < q)%Q).
  { unfold q. apply Qlt_shift_div_l; [exact Hr0 | lra]. }
  set (c := Qceiling q) in *.
  assert (H1 : (0 < inject_Z c)%Q) by lra.
  change 0%Q with (inject_Z 0) in H1. rewrite <- Zlt_Qlt in H1.
  split; [lia|].
  assert (H2 : (inject_Z n <= inject_Z (r * c))%Q).
  { rewrite <- Hq, inject_Z_mult, (Qmult_comm (inject_Z r)).
    apply Qmult_le_compat_r; lra. }
  now rewrite <- Zle_Qle in H2.
Qed.

(** The grid has room for every cell. *)
Lemma searchGrid_room (k : nat) (r n : Z) (width height : Q)
    (best : Previous.Grid * option Q) :
  1 <= n -> 1 <= r ->
  (1 <= Previous.rows (fst best) /\ 1 <= Previous.cols (fst best) /\
   n <= Previous.rows (fst best) * Previous.cols (fst best)) ->
  let g := fst (Previous.searchGrid ln k r n width height best) in
  1 <= Previous.rows g /\ 1 <= Previous.cols g /\
  n <= Previous.rows g * Previous.cols g.
Proof.
  intros Hn. revert r best. induction k as [|k IH]; intros r best Hr Hbest;
    cbn [Previous.searchGrid]; [exact Hbest|].
  apply IH; [lia|].
  destruct (score_lt _ (snd best)); [|exact Hbest].
  cbn [fst Previous.rows Previous.cols].
  destruct (ceil_div_bounds n r Hn Hr) as [Hc Hm]. lia.
Qed.

Lemma computeGrid_room (n : Z) (width height : Q) :
  1 <= n ->
  let g := Previous.computeGrid ln (inject_Z n) width height in
  1 <= Previous.rows g /\ 1 <= Previous.cols g /\
  n <= Previous.rows g * Previous.cols g.
Proof.
  intros Hn. unfold Previous.computeGrid.
  rewrite js_floor_inject, Z.max_r by lia.
  destruct (Z.eqb_spec n 0) as [E|_]; [lia|].
  destruct (_ || _); [cbn [Previous.rows Previous.cols]; lia|].
  apply searchGrid_room; [exact Hn | lia |].
  cbn [fst Previous.rows Previous.cols]. lia.
Qed.

Lemma pushCells_map (k : nat) (i : Z) (rect : Rect) (n cols : Z)
    (cellW cellH : Q) (cells : list Rect) :
  Previous.pushCells k i rect n cols cellW cellH cells
  = cells ++ map (fun j => Previous.cellAt rect n cols cellW cellH
                                           (i + Z.of_nat j))
                 (seq 0 k).
Proof.
  revert i cells. induction k as [|k IH]; intros i cells;
    cbn [Previous.pushCells seq map]; [now rewrite app_nil_r|].
  rewrite IH, <- app_assoc. cbn [app]. rewrite Z.add_0_r.
  f_equal. f_equal. rewrite <- seq_shift, map_map.
  apply map_ext. intros j. f_equal. lia.
Qed.

(** Row and column of the cell of index [i]. *)
Lemma cellAt_index (i cols : Z) :
  0 <= i -> 1 <= cols ->
  js_floor (inject_Z i / inject_Z cols) = i / cols /\
  Z.rem i cols = i mod cols.
Proof.
  intros Hi Hc. split.
  - unfold js_floor. rewrite Qfloor_div_int by lia. now rewrite Qfloor_Z.
  - apply Z.rem_mod_nonneg; lia.
Qed.

(** One rounding, with the size of the argument bounded by [M]. *)
Lemma fl_within (q M : Q) :
  (- M <= q <= M)%Q ->
  (q - M * (1 # 9007199254740992) <= fl q
   <= q + M * (1 # 9007199254740992))%Q.
Proof.
  intros HM. pose proof (fl_error q) as H.
  change eps with (1 # 9007199254740992)%Q in H.
  assert (Ha : (Qabs q <= M)%Q) by (apply Qabs_Qle_condition; lra).
  apply Qabs_Qle_condition in H. split; lra.
Qed.

(** A side of length [L] cut into [k] steps of the rounded length
    [fl (L / k)], from a base [b]: where the code puts step [c]. *)
Section Track.

Variables (L b B : Q) (k : Z).
Hypothesis HL : (0 < L)%Q.
Hypothesis Hk : 1 <= k.
Hypothesis Hb : (- B <= b <= B)%Q.

Local Abbreviation step := (fl (L / inject_Z k)).
Local Abbreviation pos c := (fl (b + fl (inject_Z c * step))).
Local Abbreviation slack := ((B + 4 * L) * (1 # 9007199254740992))%Q.

Lemma step_bounds :
  (0 < step)%Q /\
  (L - L * (1 # 9007199254740992) <= inject_Z k * step
   <= L + L * (1 # 9007199254740992))%Q.
Proof.
  assert (Hkq : (0 < inject_Z k)%Q) by (apply inject_Z_pos; lia).
  assert (Hq : (0 < L / inject_Z k)%Q) by (apply Qlt_shift_div_l; lra).
  split; [now apply fl_pos|].
  destruct (fl_bounds (L / inject_Z k) ltac:(lra)) as [Hlo Hhi].
  change eps with (1 # 9007199254740992)%Q in Hlo, Hhi.
  assert (E : forall c : Q,
             (inject_Z k * (L / inject_Z k * c) == L * c)%Q).
  { intros c. field. lra. }
  apply (Qmult_le_l _ _ (inject_Z k) Hkq) in Hlo.
  apply (Qmult_le_l _ _ (inject_Z k) Hkq) in Hhi.
  rewrite E in Hlo, Hhi. split; lra.
Qed.

Lemma steps_le (c c' : Z) :
  c <= c' -> (inject_Z c * step <= inject_Z c' * step)%Q.
Proof.
  intros H. apply scale_le; [exact H|].
  destruct step_bounds as [Hs _]. lra.
Qed.

(** The rounded position of step [c] against its exact one. *)
Lemma pos_bounds (c : Z) :
  0 <= c <= k ->
  (b + inject_Z c * step - slack <= pos c
   <= b + inject_Z c * step + slack)%Q.
Proof.
  intros Hc. destruct step_bounds as [Hs [Hlo Hhi]].
  pose proof (steps_le 0 c ltac:(lia)) as H0.
  pose proof (steps_le c k ltac:(lia)) as H1.
  change (inject_Z 0) with 0%Q in H0.
  set (a := (inject_Z c * step)%Q) in *.
  set (A := (inject_Z k * step)%Q) in *.
  destruct (fl_within a (2 * L) ltac:(lra)) as [Pl Pu].
  assert (HB : (0 <= B)%Q) by lra.
  destruct (fl_within (b + fl a) (B + 2 * L) ltac:(lra)) as [Xl Xu].
  split; lra.
Qed.

Lemma pos_low (c : Z) : 0 <= c <= k -> (b - slack <= pos c)%Q.
Proof.
  intros Hc. destruct (pos_bounds c Hc) as [Hl _].
  pose proof (steps_le 0 c ltac:(lia)) as H0.
  change (inject_Z 0) with 0%Q in H0. lra.
Qed.

Lemma pos_high (c c' : Z) :
  0 <= c -> c + 1 <= c' -> c' <= k ->
  (pos c + step <= b + inject_Z c' * step + slack)%Q.
Proof.
  intros Hc Hcc Hck. destruct (pos_bounds c ltac:(lia)) as [_ Hu].
  pose proof (steps_le (c + 1) c' Hcc) as H1.
  rewrite inject_Z_plus in H1. change (inject_Z 1) with 1%Q in H1. lra.
Qed.

Lemma pos_apart (c c' : Z) :
  0 <= c -> c + 1 <= c' -> c' <= k ->
  (pos c + step <= pos c' + 2 * slack)%Q.
Proof.
  intros Hc Hcc Hck. pose proof (pos_high c c' Hc Hcc Hck) as H.
  destruct (pos_bounds c' ltac:(lia)) as [Hl _]. lra.
Qed.

End Track.

Section Cells.

Variables (rect : Rect) (n rows cols : Z).
Hypothesis Hx : (0 <= rect_x rect)%Q.
Hypothesis Hy : (0 <= rect_y rect)%Q.
Hypothesis Hw : (0 < rect_width rect)%Q.
Hypothesis Hh : (0 < rect_height rect)%Q.
Hypothesis Hrows : 1 <= rows.
Hypothesis Hcols : 1 <= cols.
Hypothesis Hroom : n <= rows * cols.

Local Abbreviation cellW := (fl (rect_width rect / inject_Z cols)).
Local Abbreviation cellH := (fl (rect_height rect / inject_Z rows)).
Local Abbreviation cell := (Previous.cellAt rect n cols cellW cellH).
Local Abbreviation e := (1 # 9007199254740992)%Q.

(** Where a row of [items] cells starts: [rect.x + rowXOffset]. *)
Local Abbreviation rowStart items :=
  (fl (rect_x rect
       + (if items =? cols then 0
          else fl (fl (rect_width rect - fl (inject_Z items * cellW)) / 2)))).

Lemma rowStart_bounds (items : Z) :
  0 <= items <= cols ->
  (- (2 * (rect_x rect + rect_width rect)) <= rowStart items
   <= 2 * (rect_x rect + rect_width rect))%Q /\
  (rect_x rect - (rect_x rect + 5 * rect_width rect) * e
   <= rowStart items)%Q /\
  (rowStart items + inject_Z items * cellW
   <= rect_x rect + rect_width rect
      + (rect_x rect + 5 * rect_width rect) * e)%Q.
Proof.
  intros Hitems.
  destruct (step_bounds (rect_width rect) cols Hw Hcols) as [Hs [Hlo Hhi]].
  pose proof (steps_le (rect_width rect) cols Hw Hcols 0 items ltac:(lia))
    as H0.
  pose proof (steps_le (rect_width rect) cols Hw Hcols items cols
                ltac:(lia)) as H1.
  change (inject_Z 0) with 0%Q in H0.
  set (a := (inject_Z items * cellW)%Q) in *.
  set (A := (inject_Z cols * cellW)%Q) in *.
  clearbody a A.
  set (w := rect_width rect) in *. set (x := rect_x rect) in *.
  destruct (Z.eqb_spec items cols) as [E|E]; cbv iota.
  - destruct (fl_within (x + 0) x ltac:(lra)) as [Xl Xu].
    repeat split; lra.
  - destruct (fl_within a (2 * w) ltac:(lra)) as [Il Iu].
    destruct (fl_within (w - fl a) (2 * w) ltac:(lra)) as [Dl Du].
    set (D := fl (w - fl a)) in *.
    change (D / 2)%Q with (D * (1 # 2))%Q.
    destruct (fl_within (D * (1 # 2)) w ltac:(lra)) as [Ol Ou].
    set (off := fl (D * (1 # 2))) in *.
    destruct (fl_within (x + off) (x + w) ltac:(lra)) as [Xl Xu].
    repeat split; lra.
Qed.

(** Row, column and length of the row of the cell of index [i]. *)
Lemma cellAt_place (i : Z) :
  0 <= i < n ->
  let row := i / cols in
  let col := i mod cols in
  let items := Z.min cols (n - row * cols) in
  0 <= row /\ row + 1 <= rows /\ 0 <= col /\ col + 1 <= items /\
  items <= cols /\
  cell i = mkRect (fl (rowStart items + fl (inject_Z col * cellW)))
                  (fl (rect_y rect + fl (inject_Z row * cellH)))
                  cellW cellH.
Proof.
  intros Hi row col items. subst row col items. unfold Previous.cellAt.
  destruct (cellAt_index i cols ltac:(lia) Hcols) as [-> ->].
  pose proof (Z.div_mod i cols ltac:(lia)) as Hdm.
  pose proof (Z.mod_pos_bound i cols ltac:(lia)) as Hmod.
  pose proof (Z.div_pos i cols ltac:(lia) ltac:(lia)) as Hdiv.
  assert (Hrow : i / cols < rows) by (apply Z.div_lt_upper_bound; nia).
  repeat split; try lia; nia.
Qed.

Lemma tolerance_value :
  (rounding_tolerance rect
   == 16 * (rect_x rect + rect_width rect + rect_y rect + rect_height rect)
      * e)%Q.
Proof.
  unfold rounding_tolerance.
  change (pow2 (-49)) with (1 # 562949953421312)%Q. ring.
Qed.

Lemma cellAt_inside (i : Z) :
  0 <= i < n -> inside_within (rounding_tolerance rect) (cell i) rect.
Proof.
  intros Hi.
  destruct (cellAt_place i Hi) as (Hr0 & Hr1 & Hc0 & Hc1 & Hit & ->).
  set (row := i / cols) in *. set (col := i mod cols) in *.
  set (items := Z.min cols (n - row * cols)) in *.
  destruct (rowStart_bounds items ltac:(lia)) as (HX & HXl & HXu).
  unfold inside_within. rewrite tolerance_value.
  cbn [rect_x rect_y rect_width rect_height].
  pose proof (pos_low (rect_width rect) (rowStart items)
                (2 * (rect_x rect + rect_width rect)) cols Hw Hcols HX col
                ltac:(lia)) as Hxl.
  pose proof (pos_high (rect_width rect) (rowStart items)
                (2 * (rect_x rect + rect_width rect)) cols Hw Hcols HX col items
                Hc0 Hc1 Hit) as Hxu.
  pose proof (pos_low (rect_height rect) (rect_y rect) (rect_y rect) rows
                Hh Hrows ltac:(lra) row ltac:(lia)) as Hyl.
  pose proof (pos_high (rect_height rect) (rect_y rect) (rect_y rect) rows
                Hh Hrows ltac:(lra) row rows Hr0 Hr1 ltac:(lia)) as Hyu.
  destruct (step_bounds (rect_height rect) rows Hh Hrows) as [_ [_ Hhi]].
  repeat split; lra.
Qed.

Lemma cellAt_separated (i j : Z) :
  0 <= i < j -> j < n ->
  separated_within (rounding_tolerance rect) (cell i) (cell j).
Proof.
  intros Hij Hj.
  destruct (cellAt_place i ltac:(lia)) as (Hr0 & Hr1 & Hc0 & Hc1 & Hit & ->).
  destruct (cellAt_place j ltac:(lia))
    as (Hr0' & Hr1' & Hc0' & Hc1' & Hit' & ->).
  pose proof (Z.div_mod i cols ltac:(lia)) as Hdi.
  pose proof (Z.div_mod j cols ltac:(lia)) as Hdj.
  pose proof (Z.div_le_mono i j cols ltac:(lia) ltac:(lia)) as Hrows'.
  unfold separated_within. rewrite tolerance_value.
  cbn [rect_x rect_y rect_width rect_height].
  destruct (Z.eq_dec (i / cols) (j / cols)) as [E|E].
  - left. rewrite <- E in *.
    set (items := Z.min cols (n - i / cols * cols)) in *.
    destruct (rowStart_bounds items ltac:(lia)) as (HX & _).
    pose proof (pos_apart (rect_width rect) (rowStart items)
                  (2 * (rect_x rect + rect_width rect)) cols Hw Hcols HX
                  (i mod cols) (j mod cols) Hc0 ltac:(nia) ltac:(lia)) as H.
    lra.
  - right. right. left.
    pose proof (pos_apart (rect_height rect) (rect_y rect) (rect_y rect)
                  rows Hh Hrows ltac:(lra) (i / cols) (j / cols) Hr0
                  ltac:(lia) ltac:(lia)) as H.
    lra.
Qed.

End Cells.

Lemma buildCells_count (rect : Rect) (count : Q) :
  (0 < rect_width rect)%Q -> (0 < rect_height rect)%Q ->
  len (Previous.buildCells ln rect count) = Z.max 0 (js_floor count).
Proof.
  intros Hw Hh. unfold Previous.buildCells.
  set (n := Z.max 0 (js_floor count)).
  destruct (Z.eqb_spec n 0) as [E|E]; cbn [orb]; [now rewrite E|].
  rewrite !Qle_bool_pos by assumption. cbn [orb].
  destruct (computeGrid_room n (rect_width rect) (rect_height rect)
              ltac:(unfold n in *; lia)) as (Hr & Hc & _).
  set (g := Previous.computeGrid ln (inject_Z n) (rect_width rect)
                                 (rect_height rect)) in *.
  destruct (Z.eqb_spec (Previous.rows g) 0) as [E0|_]; [lia|].
  destruct (Z.eqb_spec (Previous.cols g) 0) as [E0|_]; [lia|].
  cbn [orb]. rewrite pushCells_map. cbn [app].
  unfold len. rewrite length_map, length_seq. unfold n in *. lia.
Qed.

(** X29. In the previous revision, [buildCells] gives a rectangle of
    positive width and height exactly [max(0, floor(count))] cells, however
    many are asked for, all of one positive width and height.  The
    positions of the cells are rounded doubles: for a rectangle at
    non-negative coordinates and fewer than [2^52] cells, with sizes far
    from the limits of the doubles, every cell lies inside the rectangle
    and no two of them overlap up to the rounding, which is at most
    [2^-49] of the coordinates of the far corner of the rectangle. *)
Theorem previous_buildCells_spec (rect : Rect) (count : Q) :
  (0 < rect_width rect)%Q -> (0 < rect_height rect)%Q ->
  let cells := Previous.buildCells ln rect count in
  len cells = Z.max 0 (js_floor count) /\
  (exists w h : Q,
     (0 < w)%Q /\ (0 < h)%Q /\
     Forall (fun c => rect_width c = w /\ rect_height c = h) cells) /\
  (Forall (fun v => (0 <= v <= pow2 300)%Q) [rect_x rect; rect_y rect] ->
   Forall (fun v => (pow2 (-300) <= v <= pow2 300)%Q)
          [rect_width rect; rect_height rect] ->
   (count < inject_Z (2 ^ 52))%Q ->
   Forall (fun c => inside_within (rounding_tolerance rect) c rect) cells /\
   ForallOrdPairs (separated_within (rounding_tolerance rect)) cells).
Proof.
  intros Hw Hh cells. subst cells.
  split; [now apply buildCells_count|]. unfold Previous.buildCells.
  set (n := Z.max 0 (js_floor count)).
  destruct (Z.eqb_spec n 0) as [E|E]; cbn [orb].
  { split.
    - exists 1%Q, 1%Q. repeat split; apply Forall_nil.
    - intros _ _ _. split; [apply Forall_nil | apply FOP_nil]. }
  rewrite !Qle_bool_pos by assumption. cbn [orb].
  destruct (computeGrid_room n (rect_width rect) (rect_height rect)
              ltac:(unfold n in *; lia)) as (Hr & Hc & Hroom).
  set (g := Previous.computeGrid ln (inject_Z n) (rect_width rect)
                                 (rect_height rect)) in *.
  destruct (Z.eqb_spec (Previous.rows g) 0) as [E0|_]; [lia|].
  destruct (Z.eqb_spec (Previous.cols g) 0) as [E0|_]; [lia|].
  cbn [orb]. rewrite pushCells_map. cbn [app]. split.
  - destruct (step_bounds (rect_width rect) (Previous.cols g) Hw Hc)
      as [Hcw _].
    destruct (step_bounds (rect_height rect) (Previous.rows g) Hh Hr)
      as [Hch _].
    eexists _, _. split; [exact Hcw|]. split; [exact Hch|].
    apply Forall_map, Forall_forall. intros j _. split; reflexivity.
  - intros Hxy _ _.
    pose proof (Forall_inv Hxy) as [Hx _].
    pose proof (Forall_inv (Forall_inv_tail Hxy)) as [Hy _].
    cbv beta in Hx, Hy. split.
    + apply Forall_map, Forall_forall. intros j Hj. apply in_seq in Hj.
      apply (cellAt_inside rect n (Previous.rows g) (Previous.cols g));
        try assumption. lia.
    + apply ForallOrdPairs_map_seq. intros i j Hij Hj.
      apply (cellAt_separated rect n (Previous.rows g) (Previous.cols g));
        try assumption; lia.
Qed.

(** The regions of the previous revision: four strips of positive width
    and height around the main square. *)
Lemma previous_regions (size : Z) (mainRatio : Q) :
  64 <= size ->
  let regions := snd (Previous.computeRegions size mainRatio) in
  map region_name regions = [Top; Right; Bottom; Left] /\
  Forall (fun r => (0 < rect_width (region_rect r))%Q /\
                   (0 < rect_height (region_rect r))%Q /\
                   (region_area r
                    == rect_width (region_rect r)
                       * rect_height (region_rect r))%Q)
         regions.
Proof.
  intros Hsize regions. subst regions. unfold Previous.computeRegions.
  pose proof (clamp_bounds mainRatio (fl (5 # 100)) (fl (95 # 100))
                ltac:(apply ratio_bounds)) as Hc.
  pose proof (round_main_bounds size _ Hsize Hc) as Hm.
  set (m := js_round (fl (inject_Z size
                          * clamp mainRatio (fl (5 # 100)) (fl (95 # 100)))))
    in *.
  set (ringT := Qmax 0 (inject_Z (size - m) / 2)).
  assert (Ht : (0 < ringT)%Q).
  { eapply Qlt_le_trans; [|apply Q.le_max_r].
    apply Qlt_shift_div_l; [reflexivity|].
    rewrite Qmult_0_l. apply inject_Z_pos. lia. }
  assert (Hs : (0 < inject_Z size)%Q) by (apply inject_Z_pos; lia).
  assert (Hmq : (0 < inject_Z m)%Q) by (apply inject_Z_pos; lia).
  cbn [snd map region_name]. split; [reflexivity|].
  repeat (apply Forall_cons;
          [cbn [region_rect region_area rect_width rect_height];
           split; [assumption|]; split; [assumption | reflexivity]|]).
  apply Forall_nil.
Qed.

(** X30. The previous revision never drops an image: whatever the
    options, the ring of its layout has exactly
    [max(0, floor(othersCount))] cells. *)
Theorem previous_layout_never_drops (options : CollageLayoutOptions) :
  len (ringCells (Previous.computeCollageLayout ln options))
  = Z.max 0 (js_floor (opt_othersCount options)).
Proof.
  unfold Previous.computeCollageLayout.
  set (size := Z.max 64 (js_floor (opt_size options))).
  set (N := Z.max 0 (js_floor (opt_othersCount options))).
  destruct (previous_regions size (opt_mainRatio options)
              ltac:(unfold size; lia)) as [Hnames Hrects].
  destruct (Previous.computeRegions size (opt_mainRatio options))
    as [mainRect regions].
  cbn [snd ringCells] in *.
  set (counts := allocateCounts (inject_Z N) regions).
  assert (Hareas : Forall (fun r => (0 < region_area r)%Q) regions).
  { eapply Forall_impl; [|exact Hrects]. intros r (Hw & Hh & ->).
    now apply Qmult_lt_0_compat. }
  destruct regions as [|r1 [|r2 [|r3 [|r4 [|]]]]]; try discriminate.
  assert (Htotal : (0 < total_area [r1; r2; r3; r4])%Q).
  { unfold total_area. cbn [fold_left].
    repeat match goal with
           | H : Forall _ (_ :: _) |- _ =>
               let H1 := fresh in let H2 := fresh in
               pose proof (Forall_inv H) as H1;
               pose proof (Forall_inv_tail H) as H2; clear H
           end.
    cbv beta in *. lra. }
  assert (Hnonneg : forall k, 0 <= get_count counts k).
  { apply allocateCounts_nonneg; [|exact Htotal].
    eapply Forall_impl; [|exact Hareas]. intros r Hr. cbv beta in Hr. lra. }
  assert (Hsum : counts_total counts = N).
  { unfold counts. rewrite allocateCounts_total by exact Htotal.
    rewrite js_floor_inject. unfold N. lia. }
  rewrite fold_left_push. cbn [app]. rewrite len_flat_map.
  assert (Hcells : forall inset r,
             In r [r1; r2; r3; r4] ->
             len (map (fun c => Previous.insetRect c inset)
                      (Previous.buildCells ln (region_rect r)
                         (inject_Z (get_count counts (region_name r)))))
             = get_count counts (region_name r)).
  { intros inset r Hr. rewrite Forall_forall in Hrects.
    destruct (Hrects r Hr) as (Hw & Hh & _).
    unfold len. rewrite length_map. fold (len (Previous.buildCells ln
      (region_rect r) (inject_Z (get_count counts (region_name r))))).
    rewrite buildCells_count by assumption.
    rewrite js_floor_inject. specialize (Hnonneg (region_name r)). lia. }
  cbn [map sumZ fold_right].
  rewrite !Hcells by (cbn [In]; tauto).
  injection Hnames as -> -> -> ->.
  rewrite <- Hsum, counts_total_get. lia.
Qed.

End PreviousGrid.

(** Five cells in a strip of 64 by 2: one row of cells 12.8 wide, a width
    that is not a double. *)
Lemma previous_buildCells_spec_witness :
  let rect := rectZ 0 0 64 2 in
  let cells := Previous.buildCells ln_approx rect 5 in
  len cells = 5 /\
  Forall (fun c => inside_within (rounding_tolerance rect) c rect) cells /\
  ForallOrdPairs (separated_within (rounding_tolerance rect)) cells.
Proof.
  intros rect cells.
  destruct (previous_buildCells_spec ln_approx rect 5) as (Hn & _ & H);
    [reflexivity | reflexivity |].
  split; [exact Hn|]. apply H.
  - repeat (apply Forall_cons; [split; vm_compute; discriminate|]).
    apply Forall_nil.
  - repeat (apply Forall_cons; [split; vm_compute; discriminate|]).
    apply Forall_nil.
  - reflexivity.
Defined.
